(** * Exact Lagrange interpolation at zero: the hashira-polynomial solver

    A shallow embedding of the hardened solver (robust_constant.js and its
    string-input sibling): the base-N big-integer parser, the fraction
    reduction utility, the exact Lagrange evaluator, the two point-set
    builders and the result formatter, followed by the properties the
    specification states about them.

    Conventions.
    - A JavaScript [BigInt] is a [Z]; [/] and [%] on BigInts truncate towards
      zero and are [Z.quot] and [Z.rem].
    - A JavaScript string is a [string]: a sequence of code units below 256
      (the Latin-1 range).  The parsers are modelled a second time on all
      strings, as lists of 16-bit code units, in the module [Wide], where
      the two models are shown to agree on the strings of the first.
    - [throw new Error(...)] is the [Error] branch of [outcome]; one
      constructor of [error] per kind of the specification's taxonomy, the
      message text is not modelled. *)

From Equations Require Import Equations.
From Stdlib Require Import ZArith QArith Qcanon List String Ascii Bool Lia.
From Stdlib Require Import Permutation Sorted Znumtheory.
From Stdlib Require DecimalString DecimalZ DecimalPos DecimalFacts.
Import ListNotations.

Set Warnings "-register-all".

Local Open Scope string_scope.
Local Open Scope list_scope.
Local Open Scope Z_scope.

(** ** Errors and the error monad *)

Inductive error : Type :=
| InvalidBase            (* 'Invalid base ... Supported bases are integers between 2 and 36.' *)
| EmptyValue             (* 'Empty value string', 'only sign found', 'after removing separators' *)
| InvalidCharacter       (* 'Invalid character ... for base ...' *)
| InvalidK               (* 'k must be positive integer.', 'Invalid keys.k: ...' *)
| InsufficientPoints     (* 'Need at least k=... points', 'Not enough data points: ...' *)
| DuplicateX             (* 'Duplicate x value(s) ... among selected points' *)
| ZeroDenominator        (* 'Zero denominator in fraction reduction.' *)
| DegenerateDenominator  (* 'Final denominator is zero (unexpected).' *)
| TopLevelNotObject      (* 'Top-level JSON must be an object.' *)
| MissingK               (* 'Missing "keys.k" in JSON input.' *)
| InvalidPointKey        (* 'Invalid point key ...' *)
| InvalidPointEntry      (* 'Invalid point entry for key ...' *)
| InvalidValueType.      (* 'Invalid type for 'value' at key ...' *)

Inductive outcome (A : Type) : Type :=
| Ok (a : A)
| Error (e : error).
Arguments Ok {A} a.
Arguments Error {A} e.

Definition bind {A B : Type} (r : outcome A) (f : A -> outcome B) : outcome B :=
  match r with
  | Ok a => f a
  | Error e => Error e
  end.

Notation "x <- r ;; k" := (bind r (fun x => k))
  (at level 61, r at next level, right associativity).
Notation "' p <- r ;; k" := (bind r (fun p => k))
  (at level 61, p pattern, r at next level, right associativity).

(** A [for] loop over [l] whose body may throw: the state is threaded
    through the iterations and the first error ends the loop. *)
Fixpoint foldM {A S : Type} (body : S -> A -> outcome S) (l : list A) (s : S)
  : outcome S :=
  match l with
  | [] => Ok s
  | a :: l' => s' <- body s a ;; foldM body l' s'
  end.

(** The same for a loop that pushes one element per iteration. *)
Fixpoint mapM {A B : Type} (body : A -> outcome B) (l : list A)
  : outcome (list B) :=
  match l with
  | [] => Ok []
  | a :: l' => b <- body a ;; bs <- mapM body l' ;; Ok (b :: bs)
  end.

(** ** Fraction reduction *)

(** The loop of [bigIntGcd]: [while (b !== 0n) { t = a % b; a = b; b = t }]. *)
Equations? gcdLoop (a b : Z) : Z by wf (Z.abs_nat b) lt :=
  gcdLoop a b with Z.eq_dec b 0 := {
    | left _ => a
    | right _ => gcdLoop b (Z.rem a b) }.
Proof.
  pose proof (Z.rem_bound_abs a b ltac:(assumption)). lia.
Qed.

Definition bigIntGcd (a b : Z) : Z :=
  let a := if a <? 0 then - a else a in
  let b := if b <? 0 then - b else b in
  gcdLoop a b.

Definition fraction : Type := Z * Z.

Definition reduceFraction (num den : Z) : outcome fraction :=
  if den =? 0 then Error ZeroDenominator
  else
    let '(num, den) := if den <? 0 then (- num, - den) else (num, den) in
    let g := bigIntGcd (if num <? 0 then - num else num) den in
    Ok (Z.quot num g, Z.quot den g).

(** ** Numbers

    A JavaScript Number as this program observes one: through
    [Number.isInteger], comparisons with integer constants, and [BigInt()]. *)
Inductive jsnumber : Type :=
| IntegerValue (z : Z)   (* Number.isInteger holds and z is the value *)
| NotInteger.            (* a fraction, NaN or an infinity *)

(** ** The base-N integer parser *)

(** White space of [String.prototype.trim] in the Latin-1 range:
    TAB, LF, VT, FF, CR, SP and NBSP. *)
Definition isWhiteSpace (c : ascii) : bool :=
  let n := nat_of_ascii c in
  ((9 <=? n) && (n <=? 13) || (n =? 32) || (n =? 160))%nat.

Fixpoint trimStart (s : string) : string :=
  match s with
  | EmptyString => EmptyString
  | String c s' => if isWhiteSpace c then trimStart s' else s
  end.

Fixpoint trimEnd (s : string) : string :=
  match s with
  | EmptyString => EmptyString
  | String c s' =>
      match trimEnd s' with
      | EmptyString => if isWhiteSpace c then EmptyString else String c EmptyString
      | t => String c t
      end
  end.

Definition trim (s : string) : string := trimEnd (trimStart s).

(** [ch.toLowerCase()] on a code unit below 256: A-Z, and the Latin-1
    capitals other than the multiplication sign, move up by 32.  The units
    from 256 on are in [Wide] below. *)
Definition toLowerCase (c : ascii) : ascii :=
  let n := nat_of_ascii c in
  if ((65 <=? n) && (n <=? 90) || (192 <=? n) && (n <=? 222) && negb (n =? 215))%nat
  then ascii_of_nat (n + 32) else c.

Definition DIGITS : string := "0123456789abcdefghijklmnopqrstuvwxyz".

(** [Array.from(s).map((c, i) => [c, i])], counting from [i]. *)
Fixpoint entriesFrom (i : Z) (s : string) : list (ascii * Z) :=
  match s with
  | EmptyString => []
  | String c s' => (c, i) :: entriesFrom (i + 1) s'
  end.

Definition DIGIT_MAP : list (ascii * Z) := entriesFrom 0 DIGITS.

Fixpoint mapGet (m : list (ascii * Z)) (c : ascii) : option Z :=
  match m with
  | [] => None
  | (c', i) :: m' => if Ascii.eqb c c' then Some i else mapGet m' c
  end.

(** [DIGIT_MAP.has(cl) ? DIGIT_MAP.get(cl) : -1] *)
Definition digitOf (ch : ascii) : Z :=
  let cl := toLowerCase ch in
  match mapGet DIGIT_MAP cl with
  | Some d => d
  | None => -1
  end.

(** [s.replace(/_/g, '')] *)
Fixpoint removeSeparators (s : string) : string :=
  match s with
  | EmptyString => EmptyString
  | String c s' =>
      if Ascii.eqb c "_" then removeSeparators s' else String c (removeSeparators s')
  end.

(** The digit loop: [for (const ch of s) { ... result = result * baseBig + BigInt(digit) }]. *)
Fixpoint digitLoop (base : Z) (s : string) (result : Z) : outcome Z :=
  match s with
  | EmptyString => Ok result
  | String ch s' =>
      let digit := digitOf ch in
      if (digit =? -1) || (digit >=? base) then Error InvalidCharacter
      else digitLoop base s' (result * base + digit)
  end.

Definition parseBigIntFromString (valueString : string) (base : jsnumber)
  : outcome Z :=
  match base with
  | NotInteger => Error InvalidBase
  | IntegerValue base =>
      if (base <? 2) || (base >? 36) then Error InvalidBase else
      let s := trim valueString in
      match s with
      | EmptyString => Error EmptyValue
      | String c0 rest =>
          '(sign, s) <-
            (if Ascii.eqb c0 "+" || Ascii.eqb c0 "-" then
               let sign := if Ascii.eqb c0 "-" then -1 else 1 in
               match rest with
               | EmptyString => Error EmptyValue
               | _ => Ok (sign, rest)
               end
             else Ok (1, s)) ;;
          let s := removeSeparators s in
          match s with
          | EmptyString => Error EmptyValue
          | _ =>
              result <- digitLoop base s 0 ;;
              Ok (sign * result)
          end
      end
  end.

(** ** The exact Lagrange evaluator *)

Record point : Type := mkPoint { x : Z; y : Z }.

(** [selectedPoints[i]], read inside the array only. *)
Definition pointAt (selectedPoints : list point) (i : nat) : point :=
  nth i selectedPoints (mkPoint 0 0).

(** One iteration of the inner loop over [i], for a fixed [j]. *)
Definition basisStep (selectedPoints : list point) (j : nat) (xj : Z)
  (acc : Z * Z) (i : nat) : outcome (Z * Z) :=
  let '(numerator, denominator) := acc in
  if (i =? j)%nat then Ok (numerator, denominator)
  else
    let xi := x (pointAt selectedPoints i) in
    if xi =? xj then Error DuplicateX
    else Ok (numerator * (0 - xi), denominator * (xj - xi)).

(** The inner loop: the numerator and the denominator of the j-th Lagrange
    basis polynomial at 0. *)
Definition basisLoop (selectedPoints : list point) (k j : nat) (xj : Z)
  : outcome (Z * Z) :=
  foldM (basisStep selectedPoints j xj) (seq 0 k) (1, 1).

(** One iteration of the outer loop over [j]. *)
Definition accumulateTerm (selectedPoints : list point) (k : nat)
  (total : fraction) (j : nat) : outcome fraction :=
  let '(totalNum, totalDen) := total in
  let xj := x (pointAt selectedPoints j) in
  let yj := y (pointAt selectedPoints j) in
  '(numerator, denominator) <- basisLoop selectedPoints k j xj ;;
  let termNum := yj * numerator in
  let termDen := denominator in
  '(termNum, termDen) <- reduceFraction termNum termDen ;;
  let newNum := totalNum * termDen + termNum * totalDen in
  let newDen := totalDen * termDen in
  reduceFraction newNum newDen.

Definition computeConstantTermFromSelected (selectedPoints : list point)
  (k : jsnumber) : outcome fraction :=
  match k with
  | NotInteger => Error InvalidK
  | IntegerValue k =>
      if k <=? 0 then Error InvalidK
      else if Z.of_nat (List.length selectedPoints) <? k then Error InsufficientPoints
      else
        let k := Z.to_nat k in
        '(totalNum, totalDen) <-
          foldM (accumulateTerm selectedPoints k) (seq 0 k) (0, 1) ;;
        if totalDen =? 0 then Error DegenerateDenominator
        else reduceFraction totalNum totalDen
  end.

(** ** Parsed JSON records

    The builders start from what [JSON.parse] returned; reading the file or the
    standard input and parsing the JSON text are left out.  Numbers of the
    record are IEEE doubles; the program only classifies them, tests their
    truthiness and prints them, so they are kept abstract behind these
    operations. *)
Class NumberModel : Type := {
  number : Type;
  Number_classify : number -> jsnumber;  (* Number.isInteger(n) and the value *)
  Number_truthy : number -> bool;        (* false for +0, -0 and NaN *)
  Number_toString : number -> string;    (* String(n) *)
  String_toNumber : string -> number     (* Number(s) *)
}.

Section Records.
Context {NM : NumberModel}.

(** A JavaScript value as [JSON.parse] builds it, and [undefined] for what a
    property read may return.  [VObject] lists the own properties in the
    order [Object.keys] enumerates them: the keys that are array indices in
    ascending order, then the other keys in the order of the JSON text.  The
    keys of an object are pairwise distinct; the properties that depend on
    it assume it. *)
Inductive value : Type :=
| VUndefined
| VNull
| VBool (b : bool)
| VNumber (n : number)
| VString (s : string)
| VArray (elements : list value)
| VObject (properties : list (string * value)).

Fixpoint lookup (name : string) (properties : list (string * value))
  : value :=
  match properties with
  | [] => VUndefined
  | (key, v) :: rest => if String.eqb name key then v else lookup name rest
  end.

(** [v.name] for the names this program reads ([keys], [k], [value], [base]
    and own keys): a property of an object, [undefined] on anything else. *)
Definition get (v : value) (name : string) : value :=
  match v with
  | VObject properties => lookup name properties
  | _ => VUndefined
  end.

(** [!v] is [negb (truthy v)]. *)
Definition truthy (v : value) : bool :=
  match v with
  | VUndefined | VNull => false
  | VBool b => b
  | VNumber n => Number_truthy n
  | VString s => negb (String.eqb s "")
  | VArray _ | VObject _ => true
  end.

Definition isUndefined (v : value) : bool :=
  match v with VUndefined => true | _ => false end.

(** [typeof v === 'string'], and the string that [v] then is. *)
Definition isString (v : value) : bool :=
  match v with VString _ => true | _ => false end.

Definition stringOf (v : value) : string :=
  match v with VString s => s | _ => "" end.

(** [String(v)]; an array joins its elements with commas, [null] and
    [undefined] elements giving the empty string. *)
Fixpoint ToString (v : value) : string :=
  match v with
  | VUndefined => "undefined"
  | VNull => "null"
  | VBool b => if b then "true" else "false"
  | VNumber n => Number_toString n
  | VString s => s
  | VArray elements =>
      (fix join (l : list value) : string :=
         match l with
         | [] => ""
         | e :: l' =>
             let here := match e with
                         | VUndefined | VNull => ""
                         | _ => ToString e
                         end in
             match l' with
             | [] => here
             | _ => here ++ "," ++ join l'
             end
         end) elements
  | VObject _ => "[object Object]"
  end%string.

(** [Number(v)], classified. *)
Definition ToNumber (v : value) : jsnumber :=
  match v with
  | VUndefined => NotInteger
  | VNull => IntegerValue 0
  | VBool b => IntegerValue (if b then 1 else 0)
  | VNumber n => Number_classify n
  | VString s => Number_classify (String_toNumber s)
  | VArray _ | VObject _ => Number_classify (String_toNumber (ToString v))
  end.

End Records.

Definition isDecimalDigit (c : ascii) : bool :=
  let n := nat_of_ascii c in ((48 <=? n) && (n <=? 57))%nat.

Fixpoint allDecimalDigits (s : string) : bool :=
  match s with
  | EmptyString => true
  | String c s' => isDecimalDigit c && allDecimalDigits s'
  end.

(** [/^-?\d+$/.test(rawKey)] *)
Definition isIntegerKey (rawKey : string) : bool :=
  let digits := match rawKey with
                | String c rest => if Ascii.eqb c "-" then rest else rawKey
                | EmptyString => rawKey
                end in
  match digits with
  | EmptyString => false
  | _ => allDecimalDigits digits
  end.

Fixpoint decimalValue (s : string) (acc : Z) : Z :=
  match s with
  | EmptyString => acc
  | String c s' => decimalValue s' (acc * 10 + (Z.of_nat (nat_of_ascii c) - 48))
  end.

(** [BigInt(rawKey)] on a key that passed [isIntegerKey]. *)
Definition BigInt_ofKey (rawKey : string) : Z :=
  match rawKey with
  | String c rest =>
      if Ascii.eqb c "-" then - decimalValue rest 0 else decimalValue rawKey 0
  | EmptyString => 0
  end.

(** The longest prefix of decimal digits and its value. *)
Fixpoint leadingDigits (s : string) (acc : Z) (seen : bool) : option Z :=
  match s with
  | EmptyString => if seen then Some acc else None
  | String c s' =>
      if isDecimalDigit c
      then leadingDigits s' (acc * 10 + (Z.of_nat (nat_of_ascii c) - 48)) true
      else if seen then Some acc else None
  end.

(** [parseInt(s, 10)] on a string, classified: leading white space is
    skipped, one sign is read, then the longest prefix of decimal digits;
    [NaN] without a digit.  The value is the exact integer of the digits,
    which is what [parseInt] returns up to the magnitude 2^53.  Above it the
    double that [parseInt] returns is the integer rounded (an infinity
    beyond the doubles' range): another number above 36, or below 2, which
    the parser refuses as a base alike; the program uses the result for
    nothing else. *)
Definition parseInt10 (s : string) : jsnumber :=
  let s := trimStart s in
  let '(sign, s) := match s with
                    | String c rest =>
                        if Ascii.eqb c "-" then (-1, rest)
                        else if Ascii.eqb c "+" then (1, rest)
                        else (1, s)
                    | EmptyString => (1, s)
                    end in
  match leadingDigits s 0 false with
  | Some n => IntegerValue (sign * n)
  | None => NotInteger
  end.

(** ** The point-set builders *)

(** [pts.sort((a, b) => a.x < b.x ? -1 : a.x > b.x ? 1 : 0)].  The comparator
    is a total preorder on the points and [Array.prototype.sort] is stable,
    so the outcome is the stable sort by [x]: insertion from the right, a
    point going in front of the points that do not have a smaller [x]. *)
Fixpoint insertByX (p : point) (sorted : list point) : list point :=
  match sorted with
  | [] => [p]
  | q :: rest => if x p <=? x q then p :: sorted else q :: insertByX p rest
  end.

Fixpoint sortByX (pts : list point) : list point :=
  match pts with
  | [] => []
  | p :: rest => insertByX p (sortByX rest)
  end.

(** [for (i = 1; i < selected.length; i++) if (selected[i].x === selected[i-1].x) throw ...] *)
Fixpoint adjacentScan (selected : list point) : outcome unit :=
  match selected with
  | p :: (q :: _) as rest =>
      if x q =? x p then Error DuplicateX else adjacentScan rest
  | _ => Ok tt
  end.

(** The lines after the loop over the keys, the same in both builders. *)
Definition selectAndEvaluate (pts : list point) (k : Z) : outcome fraction :=
  if Z.of_nat (List.length pts) <? k then Error InsufficientPoints
  else
    let pts := sortByX pts in
    let selected := firstn (Z.to_nat k) pts in
    _ <- adjacentScan selected ;;
    computeConstantTermFromSelected selected (IntegerValue k).

Section Builders.
Context {NM : NumberModel}.

(** The check and the conversion of [keys.k], the same in both builders. *)
Definition readK (data : value) : outcome Z :=
  let keys := get data "keys" in
  if negb (truthy keys) || isUndefined (get keys "k") then Error MissingK
  else
    match ToNumber (get keys "k") with
    | NotInteger => Error InvalidK
    | IntegerValue k => if k <=? 0 then Error InvalidK else Ok k
    end.

(** The body of the loop over the keys in [findConstantTermFromString]. *)
Definition pointOfKeyFromString (parsed : value) (rawKey : string)
  : outcome point :=
  if negb (isIntegerKey rawKey) then Error InvalidPointKey
  else
    let x := BigInt_ofKey rawKey in
    let entry := get parsed rawKey in
    if negb (truthy entry) || isUndefined (get entry "base")
    then Error InvalidPointEntry
    else
      let rawValue := get entry "value" in
      valueStr <- match rawValue with
                  | VString s => Ok s
                  | VNumber _ | VBool _ => Ok (ToString rawValue)
                  | _ => Error InvalidValueType
                  end ;;
      y <- parseBigIntFromString valueStr
             (parseInt10 (ToString (get entry "base"))) ;;
      Ok (mkPoint x y).

(** The body of the loop over the keys in [findConstantTermFromFile]. *)
Definition pointOfKeyFromFile (data : value) (rawKey : string)
  : outcome point :=
  if negb (isIntegerKey rawKey) then Error InvalidPointKey
  else
    let x := BigInt_ofKey rawKey in
    let entry := get data rawKey in
    if negb (truthy entry) || negb (isString (get entry "value"))
       || isUndefined (get entry "base")
    then Error InvalidPointEntry
    else
      y <- parseBigIntFromString (stringOf (get entry "value"))
             (parseInt10 (ToString (get entry "base"))) ;;
      Ok (mkPoint x y).

(** [for (const rawKey of Object.keys(data)) { if (rawKey === 'keys') continue; ... pts.push({ x, y }) }] *)
Definition collectPoints (pointOfKey : string -> outcome point)
  (properties : list (string * value)) : outcome (list point) :=
  foldM (fun pts rawKey =>
           if String.eqb rawKey "keys" then Ok pts
           else p <- pointOfKey rawKey ;; Ok (pts ++ [p]))
        (map fst properties) [].

(** [findConstantTermFromString] from the value [JSON.parse] returned. *)
Definition findConstantTermFromString (parsed : value) : outcome fraction :=
  match parsed with
  | VObject properties =>
      k <- readK parsed ;;
      pts <- collectPoints (pointOfKeyFromString parsed) properties ;;
      selectAndEvaluate pts k
  | _ => Error TopLevelNotObject
  end.

(** [findConstantTermFromFile] from the object [JSON.parse] returned: the
    file's text starts with an opening brace, so [data] is an object, given
    here by its properties. *)
Definition findConstantTermFromFile (properties : list (string * value))
  : outcome fraction :=
  let data := VObject properties in
  k <- readK data ;;
  pts <- collectPoints (pointOfKeyFromFile data) properties ;;
  selectAndEvaluate pts k.

End Builders.

(** ** Output formatting *)

(** [n.toString()] on a BigInt: the decimal numeral, with a minus sign for a
    negative number. *)
Definition BigInt_toString (n : Z) : string :=
  DecimalString.NilZero.string_of_int (Z.to_int n).

(** [den === 1n ? num.toString() : `${num.toString()}/${den.toString()}`] *)
Definition formatFraction (f : fraction) : string :=
  let '(num, den) := f in
  if den =? 1 then BigInt_toString num
  else (BigInt_toString num ++ "/" ++ BigInt_toString den)%string.

Definition processJsonStringOrFileContent {NM : NumberModel} (parsed : value)
  : outcome string :=
  '(num, den) <- findConstantTermFromString parsed ;;
  Ok (formatFraction (num, den)).

(** The line the batch driver of robust_constant.js logs for a file that was
    processed without error. *)
Definition mainLine {NM : NumberModel} (fname : string)
  (properties : list (string * value)) : outcome string :=
  '(num, den) <- findConstantTermFromFile properties ;;
  Ok (if Z.eqb den 1
      then fname ++ " => constant term (c) = " ++ BigInt_toString num
      else fname ++ " => constant term (c) = " ++ BigInt_toString num
                 ++ "/" ++ BigInt_toString den)%string.

(** An instance for examples: the numbers of a record whose numbers are
    integers of magnitude at most 2^53, which a double holds exactly and
    [String] prints as their decimal numeral, and whose numeric strings are
    plain decimal numerals of such integers; [NotInteger] stands for
    [NaN]. *)
Definition IntegerRecords : NumberModel := {|
  number := jsnumber;
  Number_classify := fun n => n;
  Number_truthy := fun n =>
    match n with IntegerValue z => negb (z =? 0) | NotInteger => false end;
  Number_toString := fun n =>
    match n with IntegerValue z => BigInt_toString z | NotInteger => "NaN" end;
  String_toNumber := fun s =>
    match trim s with
    | EmptyString => IntegerValue 0
    | String c rest =>
        let '(sign, digits) :=
          if Ascii.eqb c "-" then (-1, rest)
          else if Ascii.eqb c "+" then (1, rest)
          else (1, String c rest) in
        match digits with
        | EmptyString => NotInteger
        | _ => if allDecimalDigits digits
               then IntegerValue (sign * decimalValue digits 0)
               else NotInteger
        end
    end
|}.

(** * The vocabulary of the properties *)

(** ** Strings and numerals *)

Fixpoint allChars (p : ascii -> bool) (s : string) : bool :=
  match s with
  | EmptyString => true
  | String c s' => p c && allChars p s'
  end.

(** The digit value of a character as the specification words it: its
    position in the alphabet 0-9 then a-z, whatever its case. *)
Definition alphabetValue (c : ascii) : option Z :=
  let n := Z.of_nat (nat_of_ascii c) in
  if (48 <=? n) && (n <=? 57) then Some (n - 48)
  else if (97 <=? n) && (n <=? 122) then Some (n - 87)
  else if (65 <=? n) && (n <=? 90) then Some (n - 55)
  else None.

Definition validDigit (base : Z) (c : ascii) : bool :=
  match alphabetValue c with
  | Some d => d <? base
  | None => false
  end.

Definition valueOfDigit (c : ascii) : Z :=
  match alphabetValue c with Some d => d | None => 0 end.

(** Left-to-right accumulation [result = result * base + digit]. *)
Fixpoint accumulate (base : Z) (s : string) (result : Z) : Z :=
  match s with
  | EmptyString => result
  | String c s' => accumulate base s' (result * base + valueOfDigit c)
  end.

(** The positional value of a numeral: each digit times the power of the
    base that its place has. *)
Fixpoint positionalValue (base : Z) (s : string) : Z :=
  match s with
  | EmptyString => 0
  | String c s' =>
      valueOfDigit c * base ^ Z.of_nat (String.length s') + positionalValue base s'
  end.

Definition isSign (c : ascii) : bool := Ascii.eqb c "+" || Ascii.eqb c "-".

(** The string without its optional leading sign. *)
Definition stripSign (s : string) : string :=
  match s with
  | String c rest => if isSign c then rest else s
  | EmptyString => s
  end.

Definition signOf (s : string) : Z :=
  match s with
  | String c _ => if Ascii.eqb c "-" then -1 else 1
  | EmptyString => 1
  end.

(** [inserted s s']: [s'] is [s] with separators put in at any places. *)
Inductive inserted : string -> string -> Prop :=
| inserted_nil : inserted EmptyString EmptyString
| inserted_keep c s s' : inserted s s' -> inserted (String c s) (String c s')
| inserted_sep s s' : inserted s s' -> inserted s (String "_" s').

Definition allWhite (s : string) : bool := allChars isWhiteSpace s.
Definition noWhite (s : string) : bool :=
  allChars (fun c => negb (isWhiteSpace c)) s.

Definition validBase (b : Z) : Prop := 2 <= b <= 36.

(** The text the digit loop runs over. *)
Definition bodyOf (s : string) : string :=
  removeSeparators (stripSign (trim s)).

Definition digitOrSeparator (base : Z) (c : ascii) : bool :=
  validDigit base c || Ascii.eqb c "_".

Definition signValue (sgn : string) : Z :=
  if String.eqb sgn "-" then -1 else 1.

(** ** Rational numbers and polynomials *)

(** An integer as a rational number. *)
Definition zq (z : Z) : Qc := Q2Qc (inject_Z z).

(** A polynomial over the rationals is the list of its coefficients, the
    constant term first; its degree is below the length of the list. *)
Fixpoint evalPoly (p : list Qc) (t : Qc) : Qc :=
  match p with
  | [] => 0%Qc
  | c :: p' => (c + t * evalPoly p' t)%Qc
  end.

(** The same over the integers. *)
Fixpoint evalZ (cs : list Z) (t : Z) : Z :=
  match cs with
  | [] => 0
  | c :: cs' => c + t * evalZ cs' t
  end.

(** [p] takes at the [x] of every point the [y] of the point. *)
Definition interpolates (p : list Qc) (pts : list point) : Prop :=
  forall pt, In pt pts -> evalPoly p (zq (x pt)) = zq (y pt).

(** [isPoly n f]: the function [f] is a polynomial of degree below [n]. *)
Definition isPoly (n : nat) (f : Qc -> Qc) : Prop :=
  exists p, (List.length p <= n)%nat /\ forall t, f t = evalPoly p t.

Fixpoint addPoly (p q : list Qc) : list Qc :=
  match p, q with
  | [], _ => q
  | _, [] => p
  | a :: p', b :: q' => (a + b)%Qc :: addPoly p' q'
  end.

(** The product of [t - xs i] over the indices [i] of [l] other than [j]. *)
Fixpoint basisAt (xs : nat -> Qc) (j : nat) (l : list nat) (t : Qc) : Qc :=
  match l with
  | [] => 1%Qc
  | i :: l' =>
      ((if (i =? j)%nat then 1 else t - xs i) * basisAt xs j l' t)%Qc
  end.

Fixpoint sumOver (f : nat -> Qc) (l : list nat) : Qc :=
  match l with
  | [] => 0%Qc
  | j :: l' => (f j + sumOver f l')%Qc
  end.

(** The j-th term of Lagrange's formula on the nodes [xs] and the values
    [ys], and the formula. *)
Definition lagrangeTerm (xs ys : nat -> Qc) (k j : nat) (t : Qc) : Qc :=
  (ys j * basisAt xs j (seq 0 k) t / basisAt xs j (seq 0 k) (xs j))%Qc.

Definition lagrangeAt (xs ys : nat -> Qc) (k : nat) (t : Qc) : Qc :=
  sumOver (fun j => lagrangeTerm xs ys k j t) (seq 0 k).

Definition others (j : nat) (l : list nat) : list nat :=
  filter (fun i => negb (i =? j)%nat) l.

(** The coordinates of the i-th point as rational numbers. *)
Definition xq (pts : list point) (i : nat) : Qc := zq (x (pointAt pts i)).
Definition yq (pts : list point) (i : nat) : Qc := zq (y (pointAt pts i)).

(** No other of the first [k] points has the [x] of the j-th. *)
Definition noPartner (pts : list point) (k j : nat) : Prop :=
  forall i, In i (seq 0 k) -> i <> j ->
            x (pointAt pts i) <> x (pointAt pts j).

(** ** Selections of points *)

(** Two places of the list hold points with the same [x]. *)
Definition hasDuplicateX (l : list point) : Prop :=
  exists i j, (i < j < List.length l)%nat /\
              x (pointAt l i) = x (pointAt l j).

Definition leX (p q : point) : Prop := x p <= x q.
Definition ltX (p q : point) : Prop := x p < x q.

Definition isPointKey (rawKey : string) : bool :=
  negb (String.eqb rawKey "keys").

(** No point left out of the selection has the [x] of a selected point. *)
Definition separated (k : Z) (pts : list point) : Prop :=
  forall p q,
    In p (firstn (Z.to_nat k) (sortByX pts)) ->
    In q (skipn (Z.to_nat k) (sortByX pts)) -> x p <> x q.

(** ** Example records

    Records over [IntegerRecords], their properties listed in the order of
    [Object.keys]: the keys that are array indices first, in ascending
    order, then the other keys in the order of the JSON text. *)
Definition exampleEntry (base val : string) : @value IntegerRecords :=
  VObject [("base", VString base); ("value", VString val)].

Definition exampleKeys (k : Z) : @value IntegerRecords :=
  VObject [("k", @VNumber IntegerRecords (IntegerValue k))].

(** [{"keys":{"k":2},"1":{..."5"},"02":{..."7"},"002":{..."9"}}] *)
Definition tieRecord : list (string * @value IntegerRecords) :=
  [("1", exampleEntry "10" "5"); ("keys", exampleKeys 2);
   ("02", exampleEntry "10" "7"); ("002", exampleEntry "10" "9")].

(** The same record with its last two entries exchanged in the text. *)
Definition tieRecordReordered : list (string * @value IntegerRecords) :=
  [("1", exampleEntry "10" "5"); ("keys", exampleKeys 2);
   ("002", exampleEntry "10" "9"); ("02", exampleEntry "10" "7")].

(** [{"keys":{"k":2},"1":{..."5"},"01":{..."7"}}] *)
Definition duplicateRecord : list (string * @value IntegerRecords) :=
  [("1", exampleEntry "10" "5"); ("keys", exampleKeys 2);
   ("01", exampleEntry "10" "7")].

(** [{"keys":{"k":2},"03":{..."9"},"1":{..."5"},"2":{..."7"}}] *)
Definition lineRecord : list (string * @value IntegerRecords) :=
  [("1", exampleEntry "10" "5"); ("2", exampleEntry "10" "7");
   ("keys", exampleKeys 2); ("03", exampleEntry "10" "9")].

(** [{"keys":{"k":2},"03":{..."9"},"02":{..."7"},"1":{..."5"}}], and the
    record of the same text with the entries of 03 and 02 exchanged: the
    points are collected in different orders. *)
Definition mixedRecord : list (string * @value IntegerRecords) :=
  [("1", exampleEntry "10" "5"); ("keys", exampleKeys 2);
   ("03", exampleEntry "10" "9"); ("02", exampleEntry "10" "7")].

Definition mixedRecordReordered : list (string * @value IntegerRecords) :=
  [("1", exampleEntry "10" "5"); ("keys", exampleKeys 2);
   ("02", exampleEntry "10" "7"); ("03", exampleEntry "10" "9")].

(** [{"keys":{"k":1},"1":{"base":10,"value":5}}], the value a number. *)
Definition numericRecord : list (string * @value IntegerRecords) :=
  [("1", VObject [("base", @VNumber IntegerRecords (IntegerValue 10));
                  ("value", @VNumber IntegerRecords (IntegerValue 5))]);
   ("keys", exampleKeys 1)].

(** The two shapes of the output: the decimal numeral of the numerator, or
    the numerals of the numerator and of the denominator around a slash. *)
Definition renderedAs (num den : Z) : string :=
  if den =? 1 then BigInt_toString num
  else (BigInt_toString num ++ "/" ++ BigInt_toString den)%string.

(** [{"keys":{"k":2},"1":{..."0"},"3":{..."1"}}] *)
Definition halfRecord : list (string * @value IntegerRecords) :=
  [("1", exampleEntry "10" "0"); ("3", exampleEntry "10" "1");
   ("keys", exampleKeys 2)].

(** ** The claims that do not hold as they are stated *)

(** The cases of failure as the specification lists them, without the
    trimming of white space: the characters looked at are those left after
    the optional sign and the separators are stripped. *)
Definition statedBody (s : string) : string :=
  removeSeparators (stripSign s).

Definition statedCases : Prop :=
  forall (s : string) (b : Z),
    validBase b ->
    (statedBody s = "" ->
     parseBigIntFromString s (IntegerValue b) = Error EmptyValue) /\
    (statedBody s <> "" -> allChars (validDigit b) (statedBody s) = false ->
     parseBigIntFromString s (IntegerValue b) = Error InvalidCharacter) /\
    (statedBody s <> "" -> allChars (validDigit b) (statedBody s) = true ->
     exists v, parseBigIntFromString s (IntegerValue b) = Ok v).

(** C4 as stated: reordering the entries of a record on which the
    computation succeeds leaves the result as it was. *)
Definition statedOrderIndependence : Prop :=
  forall (NM : NumberModel) (properties properties' : list (string * value))
         (r : fraction),
    Permutation properties properties' -> NoDup (map fst properties) ->
    findConstantTermFromString (VObject properties) = Ok r ->
    findConstantTermFromString (VObject properties') = Ok r.

(** C5 as stated, for the builder of robust_constant.js: a numeric value is
    coerced to its string and parsed. *)
Definition statedNumericValueInFile : Prop :=
  forall (NM : NumberModel) (data : value) (rawKey : string) (n : number),
    isIntegerKey rawKey = true ->
    truthy (get data rawKey) = true ->
    get (get data rawKey) "base" <> VUndefined ->
    get (get data rawKey) "value" = VNumber n ->
    pointOfKeyFromFile data rawKey =
      (y <- parseBigIntFromString (Number_toString n)
              (parseInt10 (ToString (get (get data rawKey) "base"))) ;;
       Ok (mkPoint (BigInt_ofKey rawKey) y)).

(** * Strings beyond Latin-1

    A JavaScript string is a sequence of 16-bit code units.  The strings
    above are those whose units are below 256.  The parsers are modelled
    here once more on all strings, as lists of code units, because their
    lower-casing reaches one character beyond Latin-1: the Kelvin sign
    U+212A, whose lower case is the letter k.  A character outside the basic
    plane is two units, neither of which is white space, a sign, a separator
    or a digit, so the loops over the characters are loops over the units. *)
Module Wide.

(** White space of [String.prototype.trim]: TAB, LF, VT, FF, CR, SP, NBSP,
    U+1680, U+2000 to U+200A, U+2028, U+2029, U+202F, U+205F, U+3000 and
    U+FEFF. *)
Definition isWhiteSpace (c : N) : bool :=
  ((9 <=? c) && (c <=? 13) || (c =? 32) || (c =? 160) || (c =? 0x1680) ||
   (0x2000 <=? c) && (c <=? 0x200a) || (c =? 0x2028) || (c =? 0x2029) ||
   (c =? 0x202f) || (c =? 0x205f) || (c =? 0x3000) || (c =? 0xfeff))%N.

Fixpoint trimStart (s : list N) : list N :=
  match s with
  | [] => []
  | c :: s' => if isWhiteSpace c then trimStart s' else s
  end.

Fixpoint trimEnd (s : list N) : list N :=
  match s with
  | [] => []
  | c :: s' =>
      match trimEnd s' with
      | [] => if isWhiteSpace c then [] else [c]
      | t => c :: t
      end
  end.

Definition trim (s : list N) : list N := trimEnd (trimStart s).

Definition kelvinSign : N := 0x212a%N.

(** [ch.toLowerCase()] where it can be a key of [DIGIT_MAP]: the lower case
    of a unit below 256 is that of Latin-1, the lower case of the Kelvin
    sign is k, and the lower case of no other unit is a character of
    [DIGITS]. *)
Definition lowerCaseKey (ch : N) : option ascii :=
  if (ch <? 256)%N then Some (toLowerCase (ascii_of_N ch))
  else if (ch =? kelvinSign)%N then Some "k"%char
  else None.

(** [DIGIT_MAP.has(cl) ? DIGIT_MAP.get(cl) : -1] *)
Definition digitOf (ch : N) : Z :=
  match lowerCaseKey ch with
  | Some cl => match mapGet DIGIT_MAP cl with Some d => d | None => -1 end
  | None => -1
  end.

(** [s.replace(/_/g, '')] *)
Fixpoint removeSeparators (s : list N) : list N :=
  match s with
  | [] => []
  | c :: s' =>
      if (c =? 95)%N then removeSeparators s' else c :: removeSeparators s'
  end.

(** The digit loop: [for (const ch of s) { ... result = result * baseBig + BigInt(digit) }]. *)
Fixpoint digitLoop (base : Z) (s : list N) (result : Z) : outcome Z :=
  match s with
  | [] => Ok result
  | ch :: s' =>
      let digit := digitOf ch in
      if (digit =? -1) || (digit >=? base) then Error InvalidCharacter
      else digitLoop base s' (result * base + digit)
  end.

Definition parseBigIntFromString (valueString : list N) (base : jsnumber)
  : outcome Z :=
  match base with
  | NotInteger => Error InvalidBase
  | IntegerValue base =>
      if (base <? 2) || (base >? 36) then Error InvalidBase else
      let s := trim valueString in
      match s with
      | [] => Error EmptyValue
      | c0 :: rest =>
          '(sign, s) <-
            (if (c0 =? 43)%N || (c0 =? 45)%N then
               let sign := if (c0 =? 45)%N then -1 else 1 in
               match rest with
               | [] => Error EmptyValue
               | _ => Ok (sign, rest)
               end
             else Ok (1, s)) ;;
          let s := removeSeparators s in
          match s with
          | [] => Error EmptyValue
          | _ =>
              result <- digitLoop base s 0 ;;
              Ok (sign * result)
          end
      end
  end.

(** *** The vocabulary of the properties *)

(** The code units of a string of Latin-1 characters. *)
Fixpoint unitsOf (s : string) : list N :=
  match s with
  | EmptyString => []
  | String c s' => N_of_ascii c :: unitsOf s'
  end.

(** The digit value of a character: its position in the alphabet 0-9 then
    a-z, whatever its case, and the position of k for the Kelvin sign. *)
Definition alphabetValue (c : N) : option Z :=
  let n := Z.of_N c in
  if (48 <=? n) && (n <=? 57) then Some (n - 48)
  else if (97 <=? n) && (n <=? 122) then Some (n - 87)
  else if (65 <=? n) && (n <=? 90) then Some (n - 55)
  else if n =? 0x212a then Some 20
  else None.

Definition validDigit (base : Z) (c : N) : bool :=
  match alphabetValue c with
  | Some d => d <? base
  | None => false
  end.

Definition valueOfDigit (c : N) : Z :=
  match alphabetValue c with Some d => d | None => 0 end.

(** Left-to-right accumulation [result = result * base + digit]. *)
Fixpoint accumulate (base : Z) (s : list N) (result : Z) : Z :=
  match s with
  | [] => result
  | c :: s' => accumulate base s' (result * base + valueOfDigit c)
  end.

(** The positional value of a numeral. *)
Fixpoint positionalValue (base : Z) (s : list N) : Z :=
  match s with
  | [] => 0
  | c :: s' =>
      valueOfDigit c * base ^ Z.of_nat (List.length s') + positionalValue base s'
  end.

Definition isSign (c : N) : bool := ((c =? 43) || (c =? 45))%N.

(** The string without its optional leading sign. *)
Definition stripSign (s : list N) : list N :=
  match s with
  | c :: rest => if isSign c then rest else s
  | [] => s
  end.

Definition signOf (s : list N) : Z :=
  match s with
  | c :: _ => if (c =? 45)%N then -1 else 1
  | [] => 1
  end.

(** The text the digit loop runs over. *)
Definition bodyOf (s : list N) : list N :=
  removeSeparators (stripSign (trim s)).

End Wide.

(** * The other parts of the code *)

(** ** The first JSON object of a text

    [extractFirstJsonObject] of the string-input solver: the text from the
    first opening brace to the brace that closes it, braces inside string
    literals not counting; a quote that follows a backslash does not open
    or close a literal. *)
Definition quoteChar : ascii := ascii_of_nat 34.
Definition backslashChar : ascii := ascii_of_nat 92.

Inductive extraction : Type :=
| Extracted (object : string)
| NoJsonObject        (* 'No JSON object found in input.' *)
| NoClosingBrace.     (* 'Could not find matching closing brace for JSON object.' *)

(** [str.indexOf('{')]: the text from the first opening brace on, with the
    character in front of it, [str[start - 1]]. *)
Fixpoint fromFirstBrace (prev : option ascii) (str : string)
  : option (option ascii * string) :=
  match str with
  | EmptyString => None
  | String c rest =>
      if Ascii.eqb c "{" then Some (prev, str)
      else fromFirstBrace (Some c) rest
  end.

(** The loop over [i], on the text from [str[i]] on: [prev] is [str[i - 1]],
    and the result is [str.slice(i, j + 1)] for the index [j] at which the
    loop returns. *)
Fixpoint scanObject (prev : option ascii) (str : string) (depth : Z)
  (inString : bool) : option string :=
  match str with
  | EmptyString => None
  | String ch rest =>
      let escaped := match prev with
                     | Some p => Ascii.eqb p backslashChar
                     | None => false
                     end in
      let inString :=
        if Ascii.eqb ch quoteChar && negb escaped then negb inString
        else inString in
      if inString
      then option_map (String ch) (scanObject (Some ch) rest depth inString)
      else
        let depth := if Ascii.eqb ch "{" then depth + 1
                     else if Ascii.eqb ch "}" then depth - 1
                     else depth in
        if depth =? 0 then Some (String ch EmptyString)
        else option_map (String ch) (scanObject (Some ch) rest depth inString)
  end.

Definition extractFirstJsonObject (str : string) : extraction :=
  match fromFirstBrace None str with
  | None => NoJsonObject
  | Some (prev, fromStart) =>
      match scanObject prev fromStart 0 false with
      | Some object => Extracted object
      | None => NoClosingBrace
      end
  end.

(** The text holds no opening brace. *)
Definition noBrace (s : string) : bool :=
  allChars (fun c => negb (Ascii.eqb c "{")) s.

(** A log line that holds an object, one of whose keys is a closing brace
    between quotation marks. *)
Definition noisyObject : string :=
  ("{" ++ String quoteChar ("}" ++ String quoteChar ":{}}"))%string.
Definition noisyText : string := ("log: " ++ noisyObject ++ " tail }")%string.

(** ** The first solver (solve.js)

    What the first solver throws. *)
Inductive thrown : Type :=
| BaseNotInteger     (* the RangeError of [BigInt(base)] *)
| InvalidDigit       (* 'Invalid character ... for base ...' *)
| NotEnoughPoints    (* 'Not enough points in file. ...' *)
| DivisionByZero.    (* the RangeError of a BigInt division by [0n] *)

(** A [for] loop whose body may throw, for this solver. *)
Fixpoint foldThrown {A S : Type} (body : S -> A -> thrown + S) (l : list A)
  (s : S) : thrown + S :=
  match l with
  | [] => inr s
  | a :: l' =>
      match body s a with
      | inr s' => foldThrown body l' s'
      | inl e => inl e
      end
  end.

(** [s.indexOf(c)] for a one-character [c], counting from [i]. *)
Fixpoint indexOfFrom (i : Z) (s : string) (c : ascii) : Z :=
  match s with
  | EmptyString => -1
  | String c' s' => if Ascii.eqb c c' then i else indexOfFrom (i + 1) s' c
  end.

(** [for (const char of stringValue) { ... result = result * baseBigInt + BigInt(digitValue) }],
    on the code units of the string; [DIGITS.indexOf] of a lower case that
    is no character of [DIGITS] is -1. *)
Fixpoint parseLoop (base : Z) (stringValue : list N) (result : Z)
  : thrown + Z :=
  match stringValue with
  | [] => inr result
  | char :: rest =>
      let digitValue := match Wide.lowerCaseKey char with
                        | Some cl => indexOfFrom 0 DIGITS cl
                        | None => -1
                        end in
      if (digitValue =? -1) || (digitValue >=? base) then inl InvalidDigit
      else parseLoop base rest (result * base + digitValue)
  end.

Definition parseBigInt (stringValue : list N) (base : jsnumber) : thrown + Z :=
  match base with
  | NotInteger => inl BaseNotInteger
  | IntegerValue base => parseLoop base stringValue 0
  end.

(** One iteration of the inner loop over [i], for a fixed [j]. *)
Definition productStep (selectedPoints : list point) (j : nat) (xj : Z)
  (acc : Z * Z) (i : nat) : Z * Z :=
  let '(numerator, denominator) := acc in
  if (i =? j)%nat then (numerator, denominator)
  else
    let xi := x (pointAt selectedPoints i) in
    (numerator * (0 - xi), denominator * (xj - xi)).

Definition productLoop (selectedPoints : list point) (k j : nat) (xj : Z)
  : Z * Z :=
  fold_left (productStep selectedPoints j xj) (seq 0 k) (1, 1).

(** One iteration of the outer loop over [j]: the term is the quotient of a
    BigInt division, which truncates and throws on a zero divisor. *)
Definition addTerm (selectedPoints : list point) (k : nat)
  (constantTerm : Z) (j : nat) : thrown + Z :=
  let xj := x (pointAt selectedPoints j) in
  let yj := y (pointAt selectedPoints j) in
  let '(numerator, denominator) := productLoop selectedPoints k j xj in
  if denominator =? 0 then inl DivisionByZero
  else
    let term := Z.quot (yj * numerator) denominator in
    inr (constantTerm + term).

(** [allPoints.slice(0, k)] for an integer [k]; a negative [k] counts from
    the end. *)
Definition slice0 (allPoints : list point) (k : Z) : list point :=
  if k <? 0
  then firstn (Z.to_nat (Z.of_nat (List.length allPoints) + k)) allPoints
  else firstn (Z.to_nat k) allPoints.

(** [findConstantTerm] from the sort on: [allPoints] is the array as the
    sort left it and [k] the integer that [keys.k] holds. *)
Definition findConstantTerm (allPoints : list point) (k : Z) : thrown + Z :=
  let selectedPoints := slice0 allPoints k in
  if Z.of_nat (List.length selectedPoints) <? k then inl NotEnoughPoints
  else foldThrown (addTerm selectedPoints (Z.to_nat k)) (seq 0 (Z.to_nat k)) 0.

(** The j-th term of Lagrange's formula at 0 is an integer. *)
Definition integralTerm (pts : list point) (k j : nat) : Prop :=
  let '(numerator, denominator) :=
    productLoop pts k j (x (pointAt pts j)) in
  (denominator | y (pointAt pts j) * numerator).

(** ** Input texts

    What the builders throw before they look at the record. *)
Inductive inputError : Type :=
| EmptyInput       (* 'Input is empty.', 'Input file is empty.' *)
| NotOneObject     (* 'Input file does not appear to contain a single JSON object.' *)
| NoObjectInText   (* 'No JSON object found in input.' *)
| UnclosedObject   (* 'Could not find matching closing brace for JSON object.' *)
| SyntaxError.     (* what [JSON.parse] throws; 'Failed to parse JSON: ...' *)

(** [s.endsWith(suffix)] *)
Fixpoint endsWith (s suffix : string) : bool :=
  String.eqb s suffix ||
  match s with
  | EmptyString => false
  | String _ s' => endsWith s' suffix
  end.

(** [s.startsWith(start)] *)
Definition startsWith (s start : string) : bool := String.prefix start s.

Section Texts.

Context {NM : NumberModel}.

(** [JSON.parse]: the value of a text, or nothing where it throws. *)
Variable JSON_parse : string -> option value.

(** The first lines of [findConstantTermFromString]: the value [parsed]
    that the rest of the function works on. *)
Definition parsedFromString (jsonString : string) : inputError + value :=
  let trimmed := trim jsonString in
  if (String.length trimmed =? 0)%nat then inl EmptyInput
  else
    match JSON_parse trimmed with
    | Some parsed => inr parsed
    | None =>
        match extractFirstJsonObject trimmed with
        | Extracted firstObj =>
            match JSON_parse firstObj with
            | Some parsed => inr parsed
            | None => inl SyntaxError
            end
        | NoJsonObject => inl NoObjectInText
        | NoClosingBrace => inl UnclosedObject
        end
    end.

(** The first lines of [findConstantTermFromFile], from the text [raw] of
    the file: the value [data]. *)
Definition parsedFromFile (raw : string) : inputError + value :=
  let trimmed := trim raw in
  if (String.length trimmed =? 0)%nat then inl EmptyInput
  else if negb (startsWith trimmed "{") || negb (endsWith trimmed "}")
  then inl NotOneObject
  else
    match JSON_parse trimmed with
    | Some data => inr data
    | None => inl SyntaxError
    end.

End Texts.

(** A parser for examples, which knows one text: the empty object. *)
Definition parseEmptyObject {NM : NumberModel} (text : string)
  : option value :=
  if String.eqb text "{}" then Some (VObject []) else None.

(** ** The batch drivers *)

(** [f.toLowerCase()] on a string of code units below 256. *)
Fixpoint lowerCaseString (f : string) : string :=
  match f with
  | EmptyString => EmptyString
  | String c f' => String (toLowerCase c) (lowerCaseString f')
  end.

(** The two filters on the names of the directory. *)
Definition isJsonName (f : string) : bool :=
  endsWith (lowerCaseString f) ".json".

Definition isInputName (f : string) : bool :=
  negb (String.eqb f "package.json") && negb (startsWith f ".").

(** [.sort()] without a comparator: the names in the order of their code
    units. *)
Fixpoint insertName (f : string) (sorted : list string) : list string :=
  match sorted with
  | [] => [f]
  | g :: rest =>
      if String.leb f g then f :: sorted else g :: insertName f rest
  end.

Fixpoint sortNames (files : list string) : list string :=
  match files with
  | [] => []
  | f :: rest => insertName f (sortNames rest)
  end.

Definition jsonFilesOf (files : list string) : list string :=
  sortNames (filter isInputName (filter isJsonName files)).

Section Batch.

(** What the body of the [try] computes for a file name, or what it
    throws. *)
Context {E R : Type}.
Variable attempt : string -> E + R.

(** A line on the console: the result of a file on the standard output, or
    an error on the standard error. *)
Inductive consoleLine : Type :=
| Printed (fname : string) (result : R)
| Reported (fname : string) (err : E)
| NoJsonFiles.

(** One iteration of [for (const fname of jsonFiles)], on the lines so far
    and the exit code. *)
Definition batchStep (state : list consoleLine * Z) (fname : string)
  : list consoleLine * Z :=
  let '(console, exitCode) := state in
  match attempt fname with
  | inr result => (console ++ [Printed fname result], exitCode)
  | inl err => (console ++ [Reported fname err], 1)
  end.

(** The driver on the names [files] that [readdirSync] returned. *)
Definition batch (files : list string) : list consoleLine * Z :=
  let jsonFiles := jsonFilesOf files in
  if (List.length jsonFiles =? 0)%nat then ([NoJsonFiles], 1)
  else fold_left batchStep jsonFiles ([], 0).

(** The line of one file. *)
Definition lineOf (fname : string) : consoleLine :=
  match attempt fname with
  | inr result => Printed fname result
  | inl err => Reported fname err
  end.

Definition succeeds (fname : string) : bool :=
  match attempt fname with inr _ => true | inl _ => false end.

End Batch.

(** The order of the names. *)
Definition nameLe (f g : string) : Prop := String.leb f g = true.

(** ** Further vocabulary *)

(** Two strings that differ in the case of their letters only. *)
Fixpoint sameUpToCase (s s' : string) : bool :=
  match s, s' with
  | EmptyString, EmptyString => true
  | String c r, String c' r' =>
      Ascii.eqb (toLowerCase c) (toLowerCase c') && sameUpToCase r r'
  | _, _ => false
  end.

(** The string is empty or starts with a character that is no decimal
    digit. *)
Definition noDigitAhead (s : string) : bool :=
  match s with
  | EmptyString => true
  | String c _ => negb (isDecimalDigit c)
  end.

(** * Properties *)

(** ** Fraction reduction *)

Lemma gcdLoop_gcd (a b : Z) : 0 <= a -> 0 <= b -> gcdLoop a b = Z.gcd a b.
Proof.
  funelim (gcdLoop a b); intros Ha Hb.
  - subst b. rewrite Z.gcd_0_r. lia.
  - match goal with IH : _ -> _ -> gcdLoop _ _ = Z.gcd _ _ |- _ => rewrite IH end.
    + rewrite Z.rem_mod_nonneg by lia.
      rewrite Z.gcd_comm, Z.gcd_mod by lia. apply Z.gcd_comm.
    + lia.
    + apply Z.rem_nonneg; lia.
Qed.

Lemma bigIntGcd_gcd (a b : Z) : bigIntGcd a b = Z.gcd a b.
Proof.
  unfold bigIntGcd.
  rewrite gcdLoop_gcd by (destruct (Z.ltb_spec a 0), (Z.ltb_spec b 0); lia).
  destruct (Z.ltb_spec a 0), (Z.ltb_spec b 0);
    rewrite ?Z.gcd_opp_l, ?Z.gcd_opp_r; reflexivity.
Qed.

(** What [reduceFraction] returns on a non-zero denominator. *)
Lemma reduceFraction_value (num den : Z) :
  den <> 0 ->
  reduceFraction num den =
    Ok (Z.quot (if den <? 0 then - num else num) (Z.gcd num den),
        Z.quot (Z.abs den) (Z.gcd num den)).
Proof.
  intros Hden. unfold reduceFraction.
  destruct (Z.eqb_spec den 0) as [|_]; [contradiction|].
  destruct (Z.ltb_spec den 0) as [Hneg|Hpos]; rewrite bigIntGcd_gcd.
  - destruct (Z.ltb_spec (- num) 0);
      rewrite ?Z.gcd_opp_l, ?Z.gcd_opp_r, !Z.abs_neq by lia; reflexivity.
  - destruct (Z.ltb_spec num 0);
      rewrite ?Z.gcd_opp_l, !Z.abs_eq by lia; reflexivity.
Qed.

Lemma reduceFraction_spec (num den : Z) :
  den <> 0 ->
  exists n d,
    reduceFraction num den = Ok (n, d) /\
    0 < d /\ Z.gcd n d = 1 /\ n * den = num * d.
Proof.
  intros Hden. rewrite reduceFraction_value by assumption.
  set (g := Z.gcd num den).
  assert (Hg : 0 < g).
  { pose proof (Z.gcd_nonneg num den).
    assert (g <> 0) by (unfold g; rewrite Z.gcd_eq_0; lia). unfold g in *; lia. }
  destruct (Z.gcd_divide_l num den) as [a Ha].
  destruct (Z.gcd_divide_r num den) as [b Hb].
  fold g in Ha, Hb.
  assert (Hco : Z.gcd a b = 1).
  { pose proof (Z.gcd_mul_mono_r_nonneg a b g ltac:(lia)) as E.
    rewrite <- Ha, <- Hb in E. fold g in E. nia. }
  destruct (Z.ltb_spec den 0) as [Hneg|Hpos].
  - exists (- a), (- b).
    replace (- num) with ((- a) * g) by lia.
    replace (Z.abs den) with ((- b) * g) by lia.
    rewrite !Z.quot_mul by lia.
    repeat split; [nia | now rewrite Z.gcd_opp_l, Z.gcd_opp_r | nia].
  - exists a, b.
    replace (Z.abs den) with (b * g) by lia.
    rewrite Ha at 1. rewrite !Z.quot_mul by lia.
    repeat split; [nia | assumption | nia].
Qed.

(** A fraction in lowest terms with a positive denominator is returned as
    it is. *)
Lemma reduceFraction_reduced (n d : Z) :
  0 < d -> Z.gcd n d = 1 -> reduceFraction n d = Ok (n, d).
Proof.
  intros Hd Hg. rewrite reduceFraction_value by lia. rewrite Hg.
  destruct (Z.ltb_spec d 0); [lia|].
  now rewrite !Z.quot_1_r, Z.abs_eq by lia.
Qed.

Lemma reduceFraction_zero (num : Z) :
  reduceFraction num 0 = Error ZeroDenominator.
Proof. reflexivity. Qed.

(** C7.  [reduceFraction] fails, with [ZeroDenominator], exactly when the
    denominator is zero.  Otherwise it returns the pair obtained by negating
    both numbers when the denominator is negative and dividing both by their
    greatest common divisor, which [bigIntGcd] computes by Euclid's loop; the
    pair has a positive denominator, is in lowest terms, denotes the same
    rational number, and is a fixed point of the reduction. *)
Theorem reduceFraction_correct (num den : Z) :
  bigIntGcd (Z.abs num) (Z.abs den) = Z.gcd num den /\
  match reduceFraction num den with
  | Error e => e = ZeroDenominator /\ den = 0
  | Ok (n, d) =>
      den <> 0 /\
      n = Z.quot (if den <? 0 then - num else num) (Z.gcd num den) /\
      d = Z.quot (if den <? 0 then - den else den) (Z.gcd num den) /\
      0 < d /\ Z.gcd (Z.abs n) d = 1 /\
      n * den = num * d /\
      reduceFraction n d = Ok (n, d)
  end.
Proof.
  split.
  { now rewrite bigIntGcd_gcd, Z.gcd_abs_l, Z.gcd_abs_r. }
  destruct (Z.eq_dec den 0) as [->|Hden].
  - rewrite reduceFraction_zero. split; reflexivity.
  - destruct (reduceFraction_spec num den Hden) as (n & d & E & Hd & Hg & Hv).
    rewrite E. rewrite reduceFraction_value in E by assumption.
    injection E as En Ed.
    repeat split; try assumption.
    + now symmetry.
    + rewrite <- Ed. destruct (Z.ltb_spec den 0); f_equal; lia.
    + now rewrite Z.gcd_abs_l.
    + now apply reduceFraction_reduced.
Qed.

(** ** The base-N parser *)

Ltac each_ascii c := destruct c as [[] [] [] [] [] [] [] []].

Lemma digitOf_alphabet (c : ascii) :
  digitOf c = match alphabetValue c with Some d => d | None => -1 end.
Proof. each_ascii c; reflexivity. Qed.

Lemma alphabetValue_range (c : ascii) (d : Z) :
  alphabetValue c = Some d -> 0 <= d < 36.
Proof.
  each_ascii c; intros E; vm_compute in E; try discriminate E;
    injection E as <-; lia.
Qed.

Lemma validDigit_facts (base : Z) (c : ascii) :
  validDigit base c = true ->
  isWhiteSpace c = false /\ isSign c = false /\ Ascii.eqb c "_" = false /\
  digitOf c = valueOfDigit c /\ 0 <= valueOfDigit c < base.
Proof.
  unfold validDigit, valueOfDigit. rewrite digitOf_alphabet.
  destruct (alphabetValue c) as [d|] eqn:E; [|discriminate].
  intros Hd. apply Z.ltb_lt in Hd. pose proof (alphabetValue_range c d E).
  repeat split; try lia; revert E; clear; each_ascii c; vm_compute; congruence.
Qed.

Lemma allChars_app (p : ascii -> bool) (s t : string) :
  allChars p (s ++ t)%string = allChars p s && allChars p t.
Proof.
  induction s as [|c s IH]; simpl; [reflexivity|].
  now rewrite IH, andb_assoc.
Qed.

Lemma allChars_impl (p q : ascii -> bool) (s : string) :
  (forall c, p c = true -> q c = true) ->
  allChars p s = true -> allChars q s = true.
Proof.
  intros Hpq. induction s as [|c s IH]; simpl; [reflexivity|].
  intros H. apply andb_true_iff in H as [Hc Hs].
  now rewrite (Hpq c Hc), IH.
Qed.

Lemma string_app_assoc (s t u : string) :
  ((s ++ t) ++ u = s ++ (t ++ u))%string.
Proof. induction s as [|c s IH]; simpl; [reflexivity|now rewrite IH]. Qed.

Lemma string_app_empty_r (s : string) : (s ++ "")%string = s.
Proof. induction s as [|c s IH]; simpl; [reflexivity|now rewrite IH]. Qed.

Lemma trimStart_white (ws t : string) :
  allWhite ws = true -> trimStart (ws ++ t)%string = trimStart t.
Proof.
  unfold allWhite. induction ws as [|c ws IH]; simpl; [reflexivity|].
  intros H. apply andb_true_iff in H as [Hc Hws]. now rewrite Hc, IH.
Qed.

Lemma trimEnd_all_white (ws : string) :
  allWhite ws = true -> trimEnd ws = "".
Proof.
  unfold allWhite. induction ws as [|c ws IH]; simpl; [reflexivity|].
  intros H. apply andb_true_iff in H as [Hc Hws]. now rewrite IH, Hc.
Qed.

Lemma trimEnd_white (t ws : string) :
  allWhite ws = true -> trimEnd (t ++ ws)%string = trimEnd t.
Proof.
  intros Hws. induction t as [|c t IH]; simpl.
  - now apply trimEnd_all_white.
  - now rewrite IH.
Qed.

Lemma trim_white (ws1 s ws2 : string) :
  allWhite ws1 = true -> allWhite ws2 = true ->
  trim (ws1 ++ s ++ ws2)%string = trim s.
Proof.
  intros H1 H2. unfold trim. rewrite trimStart_white by assumption.
  induction s as [|c s IH]; simpl.
  - assert (E : trimStart ws2 = "").
    { clear -H2. unfold allWhite in H2.
      induction ws2 as [|c ws IH]; simpl in *; [reflexivity|].
      apply andb_true_iff in H2 as [Hc Hws]. now rewrite Hc, IH. }
    now rewrite E.
  - destruct (isWhiteSpace c); [exact IH|].
    change (String c (s ++ ws2)%string) with (String c s ++ ws2)%string.
    now apply trimEnd_white.
Qed.

Lemma trimEnd_noWhite (s : string) : noWhite s = true -> trimEnd s = s.
Proof.
  unfold noWhite. induction s as [|c s IH]; simpl; [reflexivity|].
  intros H. apply andb_true_iff in H as [Hc Hs]. rewrite IH by assumption.
  destruct s; [|reflexivity].
  now destruct (isWhiteSpace c).
Qed.

Lemma trim_noWhite (s : string) : noWhite s = true -> trim s = s.
Proof.
  intros H. unfold trim.
  assert (E : trimStart s = s).
  { destruct s as [|c s]; simpl in *; [reflexivity|].
    unfold noWhite in H. simpl in H. apply andb_true_iff in H as [Hc _].
    now destruct (isWhiteSpace c). }
  rewrite E. now apply trimEnd_noWhite.
Qed.

(** Every string is its trimmed part between two runs of white space. *)
Lemma trim_decompose (s : string) :
  exists ws1 ws2,
    allWhite ws1 = true /\ allWhite ws2 = true /\
    s = (ws1 ++ trim s ++ ws2)%string.
Proof.
  assert (Hstart : forall s, exists ws,
             allWhite ws = true /\ s = (ws ++ trimStart s)%string).
  { clear. induction s as [|c s (ws & Hws & E)]; simpl.
    - exists "". split; reflexivity.
    - destruct (isWhiteSpace c) eqn:Hc.
      + exists (String c ws). split.
        * unfold allWhite in *. simpl. now rewrite Hc.
        * simpl. now rewrite <- E.
      + exists "". split; reflexivity. }
  assert (Hend : forall t, exists ws,
             allWhite ws = true /\ t = (trimEnd t ++ ws)%string).
  { clear. induction t as [|c t (ws & Hws & E)]; simpl.
    - exists "". split; reflexivity.
    - destruct (trimEnd t) as [|c' t'] eqn:Et.
      + destruct (isWhiteSpace c) eqn:Hc.
        * exists (String c ws). simpl in *. split.
          -- unfold allWhite in *. simpl. now rewrite Hc.
          -- now rewrite <- E.
        * exists ws. simpl in *. split; [assumption|now rewrite <- E].
      + exists ws. split; [assumption|]. simpl in *. now rewrite <- E. }
  destruct (Hstart s) as (ws1 & H1 & E1).
  destruct (Hend (trimStart s)) as (ws2 & H2 & E2).
  exists ws1, ws2. repeat split; try assumption.
  unfold trim. now rewrite <- E2.
Qed.

Lemma digit_check (base : Z) (c : ascii) :
  (digitOf c =? -1) || (digitOf c >=? base) = negb (validDigit base c).
Proof.
  unfold validDigit. rewrite digitOf_alphabet.
  destruct (alphabetValue c) as [d|] eqn:E; [|reflexivity].
  apply alphabetValue_range in E.
  destruct (Z.eqb_spec d (-1)); [lia|]. simpl.
  rewrite Z.geb_leb. destruct (Z.leb_spec base d), (Z.ltb_spec d base);
    try reflexivity; lia.
Qed.

Lemma digitLoop_spec (base : Z) (s : string) (acc : Z) :
  digitLoop base s acc =
    if allChars (validDigit base) s then Ok (accumulate base s acc)
    else Error InvalidCharacter.
Proof.
  revert acc. induction s as [|c s IH]; intros acc; simpl; [reflexivity|].
  rewrite digit_check.
  destruct (validDigit base c) eqn:Hc; simpl; [|reflexivity].
  rewrite IH. destruct (validDigit_facts base c Hc) as (_ & _ & _ & E & _).
  now rewrite E.
Qed.

Lemma accumulate_positional (base : Z) (s : string) (acc : Z) :
  accumulate base s acc =
    acc * base ^ Z.of_nat (String.length s) + positionalValue base s.
Proof.
  revert acc. induction s as [|c s IH]; intros acc; simpl accumulate.
  - simpl. lia.
  - rewrite IH. cbn [String.length positionalValue].
    rewrite Nat2Z.inj_succ, Z.pow_succ_r by lia. ring.
Qed.

(** The parser on a valid base, as a function of the sign and the body. *)
Lemma parse_unfold (s : string) (b : Z) :
  validBase b ->
  parseBigIntFromString s (IntegerValue b) =
    match bodyOf s with
    | EmptyString => Error EmptyValue
    | body => result <- digitLoop b body 0 ;; Ok (signOf (trim s) * result)
    end.
Proof.
  intros Hb. unfold parseBigIntFromString, bodyOf, validBase in *.
  destruct (Z.ltb_spec b 2); [lia|]. destruct (Z.gtb_spec b 36); [lia|].
  simpl orb. cbv iota.
  destruct (trim s) as [|c rest]; [reflexivity|].
  unfold stripSign, signOf, isSign.
  destruct (Ascii.eqb c "+"), (Ascii.eqb c "-"); cbn [orb];
    try (destruct rest; [reflexivity|]); cbn [bind];
    match goal with
    | |- context [removeSeparators ?t] => destruct (removeSeparators t)
    end; reflexivity.
Qed.

Lemma parse_invalid_base (s : string) (base : jsnumber) :
  match base with IntegerValue b => ~ validBase b | NotInteger => True end ->
  parseBigIntFromString s base = Error InvalidBase.
Proof.
  destruct base as [b|]; [|reflexivity]. unfold validBase. intros Hb. simpl.
  destruct (Z.ltb_spec b 2); [reflexivity|].
  destruct (Z.gtb_spec b 36); [reflexivity|]. lia.
Qed.

Lemma removeSeparators_valid (base : Z) (s : string) :
  allChars (validDigit base) s = true -> removeSeparators s = s.
Proof.
  induction s as [|c s IH]; simpl; [reflexivity|].
  intros H. apply andb_true_iff in H as [Hc Hs].
  destruct (validDigit_facts base c Hc) as (_ & _ & E & _).
  now rewrite E, IH.
Qed.

Lemma inserted_removeSeparators (s s' : string) :
  inserted s s' -> removeSeparators s' = removeSeparators s.
Proof.
  induction 1 as [|c s s' _ IH|s s' _ IH]; simpl; [reflexivity| |exact IH].
  now rewrite IH.
Qed.

Lemma digitOrSeparator_facts (base : Z) (c : ascii) :
  digitOrSeparator base c = true ->
  isWhiteSpace c = false /\ isSign c = false.
Proof.
  unfold digitOrSeparator. intros H. apply orb_true_iff in H as [H|H].
  - destruct (validDigit_facts base c H) as (? & ? & _). now split.
  - apply Ascii.eqb_eq in H. subst c. split; reflexivity.
Qed.

Lemma valid_digitOrSeparator (base : Z) (s : string) :
  allChars (validDigit base) s = true ->
  allChars (digitOrSeparator base) s = true.
Proof.
  apply allChars_impl. intros c H. unfold digitOrSeparator. now rewrite H.
Qed.

Lemma removeSeparators_digitOrSeparator (base : Z) (s : string) :
  allChars (validDigit base) (removeSeparators s) = true ->
  allChars (digitOrSeparator base) s = true.
Proof.
  induction s as [|c s IH]; simpl; [reflexivity|].
  unfold digitOrSeparator at 1.
  destruct (Ascii.eqb c "_"); simpl; intros H.
  - rewrite orb_true_r. now apply IH.
  - apply andb_true_iff in H as [Hc Hs]. rewrite Hc. now apply IH.
Qed.

Lemma inserted_digitOrSeparator (base : Z) (s s' : string) :
  inserted s s' ->
  allChars (digitOrSeparator base) s = true ->
  allChars (digitOrSeparator base) s' = true.
Proof.
  induction 1 as [|c s s' _ IH|s s' _ IH]; simpl; [reflexivity| |].
  - intros H. apply andb_true_iff in H as [Hc Hs]. now rewrite Hc, IH.
  - intros H. rewrite IH by assumption.
    replace (digitOrSeparator base "_") with true; [reflexivity|].
    unfold digitOrSeparator. now rewrite Ascii.eqb_refl, orb_true_r.
Qed.

(** The parser on an optional sign followed by digits and separators. *)
Lemma parse_shape (b : Z) (sgn body : string) :
  validBase b -> sgn = "" \/ sgn = "+" \/ sgn = "-" ->
  allChars (digitOrSeparator b) body = true ->
  parseBigIntFromString (sgn ++ body)%string (IntegerValue b) =
    match removeSeparators body with
    | EmptyString => Error EmptyValue
    | digits => result <- digitLoop b digits 0 ;; Ok (signValue sgn * result)
    end.
Proof.
  intros Hb Hsgn Hbody. rewrite parse_unfold by assumption.
  assert (Hnw : noWhite (sgn ++ body)%string = true).
  { unfold noWhite. rewrite allChars_app.
    assert (E : allChars (fun c => negb (isWhiteSpace c)) body = true).
    { revert Hbody. apply allChars_impl. intros c Hc.
      apply digitOrSeparator_facts in Hc as [-> _]. reflexivity. }
    rewrite E. destruct Hsgn as [->|[->| ->]]; reflexivity. }
  unfold bodyOf. rewrite trim_noWhite by assumption.
  destruct Hsgn as [->|[->| ->]]; try reflexivity.
  change ("" ++ body)%string with body.
  destruct body as [|c rest]; [reflexivity|].
  simpl in Hbody. apply andb_true_iff in Hbody as [Hc _].
  apply digitOrSeparator_facts in Hc as [_ Hc].
  unfold stripSign, signOf. rewrite Hc.
  unfold isSign in Hc. apply orb_false_iff in Hc as [_ Hc]. now rewrite Hc.
Qed.

(** C2.  On a base from 2 to 36, a non-empty run of digits that are valid
    for the base, after an optional sign, parses to the number accumulated
    from left to right by [result = result * base + digit], which is the
    positional value of the numeral, negated under a minus sign; and "-ff"
    in base 16 is the negation of "ff". *)
Theorem parseBigIntFromString_positional :
  (forall (b : Z) (sgn ds : string),
      validBase b -> sgn = "" \/ sgn = "+" \/ sgn = "-" ->
      ds <> "" -> allChars (validDigit b) ds = true ->
      parseBigIntFromString (sgn ++ ds)%string (IntegerValue b)
        = Ok (signValue sgn * accumulate b ds 0) /\
      accumulate b ds 0 = positionalValue b ds) /\
  (exists v, parseBigIntFromString "ff" (IntegerValue 16) = Ok v /\
             parseBigIntFromString "-ff" (IntegerValue 16) = Ok (- v)).
Proof.
  split.
  - intros b sgn ds Hb Hsgn Hne Hds. split.
    + rewrite parse_shape
        by (try assumption; now apply valid_digitOrSeparator).
      rewrite (removeSeparators_valid b) by assumption.
      destruct ds as [|c ds]; [contradiction|].
      rewrite digitLoop_spec, Hds. reflexivity.
    + rewrite accumulate_positional. lia.
  - exists 255. split; reflexivity.
Qed.

Lemma parseBigIntFromString_positional_witness :
  parseBigIntFromString "-7f" (IntegerValue 16) = Ok (-127) /\
  accumulate 16 "7f" 0 = positionalValue 16 "7f".
Proof.
  apply (proj1 parseBigIntFromString_positional 16 "-" "7f").
  - unfold validBase; lia.
  - right; right; reflexivity.
  - discriminate.
  - reflexivity.
Defined.

Lemma parse_white (base : jsnumber) (ws1 s ws2 : string) :
  allWhite ws1 = true -> allWhite ws2 = true ->
  parseBigIntFromString (ws1 ++ s ++ ws2)%string base
    = parseBigIntFromString s base.
Proof.
  intros H1 H2. unfold parseBigIntFromString. now rewrite trim_white.
Qed.

(** C10.  White space around the value is dropped before the string is
    examined: a string between two runs of white space parses as the string
    itself does; a string of white space only parses as the empty string
    does, which on a valid base is the failure [EmptyValue]. *)
Theorem parseBigIntFromString_trims :
  (forall (base : jsnumber) (ws1 s ws2 : string),
      allWhite ws1 = true -> allWhite ws2 = true ->
      parseBigIntFromString (ws1 ++ s ++ ws2)%string base
        = parseBigIntFromString s base) /\
  (forall (base : jsnumber) (ws : string),
      allWhite ws = true ->
      parseBigIntFromString ws base = parseBigIntFromString "" base) /\
  (forall (b : Z) (ws : string),
      validBase b -> allWhite ws = true ->
      parseBigIntFromString ws (IntegerValue b) = Error EmptyValue).
Proof.
  assert (Hempty : forall base ws,
             allWhite ws = true ->
             parseBigIntFromString ws base = parseBigIntFromString "" base).
  { intros base ws Hws. rewrite <- (string_app_empty_r ws).
    change (ws ++ "")%string with (ws ++ "" ++ "")%string.
    now apply parse_white. }
  split; [exact parse_white|]. split; [exact Hempty|].
  intros b ws Hb Hws. rewrite Hempty by assumption. now rewrite parse_unfold.
Qed.

Lemma parseBigIntFromString_trims_witness :
  parseBigIntFromString "  -1f   " (IntegerValue 16)
    = parseBigIntFromString "-1f" (IntegerValue 16) /\
  parseBigIntFromString "   " NotInteger
    = parseBigIntFromString "" NotInteger /\
  parseBigIntFromString "   " (IntegerValue 10) = Error EmptyValue.
Proof.
  destruct parseBigIntFromString_trims as (H1 & H2 & H3).
  split; [|split].
  - apply (H1 (IntegerValue 16) "  " "-1f" "   "); reflexivity.
  - apply (H2 NotInteger "   "); reflexivity.
  - apply (H3 10 "   "); [unfold validBase; lia | reflexivity].
Defined.

(** An accepted string is an optional sign and a run of digits and
    separators between two runs of white space. *)
Lemma accepted_shape (s : string) (b v : Z) :
  parseBigIntFromString s (IntegerValue b) = Ok v ->
  validBase b /\
  exists ws1 sgn body ws2,
    s = (ws1 ++ (sgn ++ body) ++ ws2)%string /\
    allWhite ws1 = true /\ allWhite ws2 = true /\
    (sgn = "" \/ sgn = "+" \/ sgn = "-") /\
    allChars (digitOrSeparator b) body = true.
Proof.
  intros Hacc.
  assert (Hb : validBase b).
  { unfold validBase. destruct (Z.ltb_spec b 2) as [H2|H2].
    - rewrite parse_invalid_base in Hacc by (unfold validBase; lia).
      discriminate.
    - destruct (Z.leb_spec b 36) as [H36|H36]; [lia|].
      rewrite parse_invalid_base in Hacc by (unfold validBase; lia).
      discriminate. }
  split; [assumption|].
  rewrite parse_unfold in Hacc by assumption.
  destruct (trim_decompose s) as (ws1 & ws2 & H1 & H2 & Es).
  unfold bodyOf in Hacc.
  assert (Hvalid : allChars (digitOrSeparator b) (stripSign (trim s)) = true).
  { apply removeSeparators_digitOrSeparator.
    destruct (removeSeparators (stripSign (trim s))) as [|c r] eqn:E;
      [reflexivity|].
    rewrite digitLoop_spec in Hacc.
    destruct (allChars (validDigit b) (String c r)); [reflexivity|discriminate]. }
  destruct (trim s) as [|c rest] eqn:Et.
  - exists ws1, "", "", ws2. repeat split; try assumption; now left.
  - unfold stripSign in Hvalid. destruct (isSign c) eqn:Hc.
    + exists ws1, (String c ""), rest, ws2. repeat split; try assumption.
      unfold isSign in Hc. apply orb_true_iff in Hc as [Hc|Hc];
        apply Ascii.eqb_eq in Hc; subst c; [right; left|right; right];
        reflexivity.
    + exists ws1, "", (String c rest), ws2.
      repeat split; try assumption; now left.
Qed.

(** Putting separators into the run of digits and separators of a string of
    that shape does not change what the parser returns. *)
Lemma parse_inserted (b : Z) (ws1 sgn body ws2 body' : string) :
  allWhite ws1 = true -> allWhite ws2 = true ->
  sgn = "" \/ sgn = "+" \/ sgn = "-" ->
  allChars (digitOrSeparator b) body = true ->
  inserted body body' ->
  parseBigIntFromString (ws1 ++ (sgn ++ body') ++ ws2)%string (IntegerValue b)
  = parseBigIntFromString (ws1 ++ (sgn ++ body) ++ ws2)%string (IntegerValue b).
Proof.
  intros H1 H2 Hsgn Hbody Hins.
  assert (Hdec : validBase b \/ ~ validBase b) by (unfold validBase; lia).
  destruct Hdec as [Hb|Hb].
  - rewrite !parse_white by assumption.
    rewrite !parse_shape
      by (try assumption; now apply (inserted_digitOrSeparator b body)).
    now rewrite (inserted_removeSeparators body body').
  - now rewrite !parse_invalid_base.
Qed.

(** C8.  A string the parser accepts is an optional sign and a run of digits
    and separators, between white space.  Putting separators in anywhere in
    the run of a string of that shape leaves what the parser returns as it
    was, so the value of an accepted string does not change; in particular
    "1_234" and "1234" parse to the same integer in base 10. *)
Theorem separators_do_not_change_value :
  (forall (s : string) (b v : Z),
      parseBigIntFromString s (IntegerValue b) = Ok v ->
      exists ws1 sgn body ws2,
        s = (ws1 ++ (sgn ++ body) ++ ws2)%string /\
        allWhite ws1 = true /\ allWhite ws2 = true /\
        (sgn = "" \/ sgn = "+" \/ sgn = "-") /\
        allChars (digitOrSeparator b) body = true) /\
  (forall (b : Z) (ws1 sgn body ws2 body' : string),
      allWhite ws1 = true -> allWhite ws2 = true ->
      sgn = "" \/ sgn = "+" \/ sgn = "-" ->
      allChars (digitOrSeparator b) body = true ->
      inserted body body' ->
      parseBigIntFromString (ws1 ++ (sgn ++ body') ++ ws2)%string
        (IntegerValue b)
      = parseBigIntFromString (ws1 ++ (sgn ++ body) ++ ws2)%string
          (IntegerValue b)) /\
  parseBigIntFromString "1_234" (IntegerValue 10) = Ok 1234 /\
  parseBigIntFromString "1234" (IntegerValue 10) = Ok 1234.
Proof.
  split; [|split; [exact parse_inserted|split; reflexivity]].
  intros s b v Hacc. now destruct (accepted_shape s b v Hacc).
Qed.

Lemma separators_do_not_change_value_witness :
  (exists ws1 sgn body ws2,
      " -1f " = (ws1 ++ (sgn ++ body) ++ ws2)%string /\
      allWhite ws1 = true /\ allWhite ws2 = true /\
      (sgn = "" \/ sgn = "+" \/ sgn = "-") /\
      allChars (digitOrSeparator 16) body = true) /\
  parseBigIntFromString " -_1__f_ " (IntegerValue 16)
  = parseBigIntFromString " -1f " (IntegerValue 16).
Proof.
  destruct separators_do_not_change_value as (Hshape & Hins & _).
  split.
  - apply (Hshape " -1f " 16 (-31)). reflexivity.
  - apply (Hins 16 " " "-" "1f" " " "_1__f_"); try reflexivity.
    + right; right; reflexivity.
    + repeat constructor.
Defined.

(** C6, as stated, fails on a value with white space around it: the space of
    " 12" is not in the alphabet, and the value is parsed all the same. *)
Lemma stated_cases_fail_on_padding : ~ statedCases.
Proof.
  intros H. destruct (H " 12" 10) as (_ & Hbad & _).
  - unfold validBase; lia.
  - specialize (Hbad ltac:(discriminate) eq_refl). discriminate Hbad.
Qed.

(** *** The parser on all strings *)

Lemma wide_isWhiteSpace_spec (c : N) :
  Wide.isWhiteSpace c = true <->
  (9 <= c <= 13 \/ c = 32 \/ c = 160 \/ c = 0x1680 \/ 0x2000 <= c <= 0x200a \/
   c = 0x2028 \/ c = 0x2029 \/ c = 0x202f \/ c = 0x205f \/ c = 0x3000 \/
   c = 0xfeff)%N.
Proof.
  unfold Wide.isWhiteSpace.
  rewrite !orb_true_iff, !andb_true_iff, !N.leb_le, !N.eqb_eq. tauto.
Qed.

Lemma wide_alphabetValue_range (c : N) (d : Z) :
  Wide.alphabetValue c = Some d ->
  0 <= d < 36 /\
  (48 <= c <= 57 \/ 65 <= c <= 90 \/ 97 <= c <= 122 \/ c = Wide.kelvinSign)%N.
Proof.
  unfold Wide.alphabetValue, Wide.kelvinSign. cbv zeta.
  destruct (Z.leb_spec 48 (Z.of_N c)), (Z.leb_spec (Z.of_N c) 57);
    cbn [andb]; try (intros E; injection E as <-; lia);
    destruct (Z.leb_spec 97 (Z.of_N c)), (Z.leb_spec (Z.of_N c) 122);
    cbn [andb]; try (intros E; injection E as <-; lia);
    destruct (Z.leb_spec 65 (Z.of_N c)), (Z.leb_spec (Z.of_N c) 90);
    cbn [andb]; try (intros E; injection E as <-; lia);
    destruct (Z.eqb_spec (Z.of_N c) 0x212a);
    try (intros E; injection E as <-; lia); discriminate.
Qed.

(** The digit of a unit, as the map gives it, is its place in the
    alphabet. *)
Lemma wide_digitOf_alphabet (c : N) :
  Wide.digitOf c
  = match Wide.alphabetValue c with Some d => d | None => -1 end.
Proof.
  unfold Wide.digitOf, Wide.lowerCaseKey.
  destruct (N.ltb_spec c 256) as [Hc|Hc].
  - fold (digitOf (ascii_of_N c)). rewrite digitOf_alphabet.
    unfold alphabetValue, Wide.alphabetValue, nat_of_ascii. cbv zeta.
    rewrite N_ascii_embedding, N_nat_Z by assumption.
    destruct ((48 <=? Z.of_N c) && (Z.of_N c <=? 57)); [reflexivity|].
    destruct ((97 <=? Z.of_N c) && (Z.of_N c <=? 122)); [reflexivity|].
    destruct ((65 <=? Z.of_N c) && (Z.of_N c <=? 90)); [reflexivity|].
    destruct (Z.eqb_spec (Z.of_N c) 0x212a); [lia|reflexivity].
  - unfold Wide.alphabetValue. cbv zeta.
    destruct (Z.leb_spec (Z.of_N c) 57); [lia|]. rewrite andb_false_r.
    destruct (Z.leb_spec (Z.of_N c) 122); [lia|]. rewrite andb_false_r.
    destruct (Z.leb_spec (Z.of_N c) 90); [lia|]. rewrite andb_false_r.
    unfold Wide.kelvinSign.
    destruct (N.eqb_spec c 0x212a) as [->|Hk]; [reflexivity|].
    destruct (Z.eqb_spec (Z.of_N c) 0x212a); [lia|reflexivity].
Qed.

Lemma wide_validDigit_facts (base : Z) (c : N) :
  Wide.validDigit base c = true ->
  Wide.isWhiteSpace c = false /\ Wide.isSign c = false /\
  (c =? 95)%N = false /\
  Wide.digitOf c = Wide.valueOfDigit c /\ 0 <= Wide.valueOfDigit c < base.
Proof.
  unfold Wide.validDigit, Wide.valueOfDigit. rewrite wide_digitOf_alphabet.
  destruct (Wide.alphabetValue c) as [d|] eqn:E; [|discriminate].
  intros Hd. apply Z.ltb_lt in Hd.
  destruct (wide_alphabetValue_range c d E) as (Hr & Hc).
  unfold Wide.kelvinSign in Hc.
  split; [|split; [|split; [|split]]]; try lia; try reflexivity.
  - destruct (Wide.isWhiteSpace c) eqn:W; [|reflexivity].
    apply wide_isWhiteSpace_spec in W. lia.
  - unfold Wide.isSign.
    destruct (N.eqb_spec c 43), (N.eqb_spec c 45); try lia; reflexivity.
  - destruct (N.eqb_spec c 95); [lia|reflexivity].
Qed.

Lemma wide_digit_check (base : Z) (c : N) :
  (Wide.digitOf c =? -1) || (Wide.digitOf c >=? base)
  = negb (Wide.validDigit base c).
Proof.
  unfold Wide.validDigit. rewrite wide_digitOf_alphabet.
  destruct (Wide.alphabetValue c) as [d|] eqn:E; [|reflexivity].
  apply wide_alphabetValue_range in E as (E & _).
  destruct (Z.eqb_spec d (-1)); [lia|]. simpl.
  rewrite Z.geb_leb. destruct (Z.leb_spec base d), (Z.ltb_spec d base);
    try reflexivity; lia.
Qed.

Lemma wide_digitLoop_spec (base : Z) (s : list N) (acc : Z) :
  Wide.digitLoop base s acc =
    if forallb (Wide.validDigit base) s then Ok (Wide.accumulate base s acc)
    else Error InvalidCharacter.
Proof.
  revert acc. induction s as [|c s IH]; intros acc; [reflexivity|].
  cbn [Wide.digitLoop forallb Wide.accumulate]. cbv zeta.
  rewrite wide_digit_check.
  destruct (Wide.validDigit base c) eqn:Hc; cbn [negb andb]; [|reflexivity].
  rewrite IH. destruct (wide_validDigit_facts base c Hc) as (_ & _ & _ & E & _).
  now rewrite E.
Qed.

Lemma wide_accumulate_positional (base : Z) (s : list N) (acc : Z) :
  Wide.accumulate base s acc =
    acc * base ^ Z.of_nat (List.length s) + Wide.positionalValue base s.
Proof.
  revert acc. induction s as [|c s IH]; intros acc;
    cbn [Wide.accumulate Wide.positionalValue List.length].
  - cbn. lia.
  - rewrite IH, Nat2Z.inj_succ, Z.pow_succ_r by lia. ring.
Qed.

(** The parser on a valid base, as a function of the sign and the body. *)
Lemma wide_parse_unfold (s : list N) (b : Z) :
  validBase b ->
  Wide.parseBigIntFromString s (IntegerValue b) =
    match Wide.bodyOf s with
    | [] => Error EmptyValue
    | body =>
        result <- Wide.digitLoop b body 0 ;;
        Ok (Wide.signOf (Wide.trim s) * result)
    end.
Proof.
  intros Hb. unfold Wide.parseBigIntFromString, Wide.bodyOf, validBase in *.
  destruct (Z.ltb_spec b 2); [lia|]. destruct (Z.gtb_spec b 36); [lia|].
  cbn [orb]. cbv zeta.
  destruct (Wide.trim s) as [|c rest]; [reflexivity|].
  unfold Wide.stripSign, Wide.signOf, Wide.isSign.
  destruct (N.eqb c 43), (N.eqb c 45); cbn [orb];
    try (destruct rest; [reflexivity|]); cbn [bind];
    match goal with
    | |- context [Wide.removeSeparators ?t] =>
        destruct (Wide.removeSeparators t)
    end; reflexivity.
Qed.

Lemma wide_parse_invalid_base (s : list N) (base : jsnumber) :
  match base with IntegerValue b => ~ validBase b | NotInteger => True end ->
  Wide.parseBigIntFromString s base = Error InvalidBase.
Proof.
  destruct base as [b|]; [|reflexivity]. unfold validBase. intros Hb.
  cbn [Wide.parseBigIntFromString].
  destruct (Z.ltb_spec b 2); [reflexivity|].
  destruct (Z.gtb_spec b 36); [reflexivity|]. lia.
Qed.

(** *** Strings of Latin-1 characters among all strings *)

Lemma unit_isWhiteSpace (c : ascii) :
  Wide.isWhiteSpace (N_of_ascii c) = isWhiteSpace c.
Proof. each_ascii c; reflexivity. Qed.

Lemma unit_digitOf (c : ascii) : Wide.digitOf (N_of_ascii c) = digitOf c.
Proof.
  unfold Wide.digitOf, Wide.lowerCaseKey.
  destruct (N.ltb_spec (N_of_ascii c) 256) as [_|H].
  - now rewrite ascii_N_embedding.
  - pose proof (N_ascii_bounded c). lia.
Qed.

Lemma unit_eqb (c d : ascii) :
  (N_of_ascii c =? N_of_ascii d)%N = Ascii.eqb c d.
Proof.
  destruct (Ascii.eqb_spec c d) as [->|Hne]; [apply N.eqb_refl|].
  apply N.eqb_neq. intros E. apply Hne.
  now rewrite <- (ascii_N_embedding c), <- (ascii_N_embedding d), E.
Qed.

Lemma unitsOf_trimStart (s : string) :
  Wide.trimStart (Wide.unitsOf s) = Wide.unitsOf (trimStart s).
Proof.
  induction s as [|c s IH]; [reflexivity|].
  cbn [Wide.unitsOf Wide.trimStart trimStart]. rewrite unit_isWhiteSpace.
  now destruct (isWhiteSpace c).
Qed.

Lemma unitsOf_trimEnd (s : string) :
  Wide.trimEnd (Wide.unitsOf s) = Wide.unitsOf (trimEnd s).
Proof.
  induction s as [|c s IH]; [reflexivity|].
  cbn [Wide.unitsOf Wide.trimEnd trimEnd]. rewrite IH, unit_isWhiteSpace.
  destruct (trimEnd s); cbn [Wide.unitsOf];
    [now destruct (isWhiteSpace c)|reflexivity].
Qed.

Lemma unitsOf_removeSeparators (s : string) :
  Wide.removeSeparators (Wide.unitsOf s) = Wide.unitsOf (removeSeparators s).
Proof.
  induction s as [|c s IH]; [reflexivity|].
  cbn [Wide.unitsOf Wide.removeSeparators removeSeparators].
  change 95%N with (N_of_ascii "_"). rewrite unit_eqb, IH.
  now destruct (Ascii.eqb c "_").
Qed.

Lemma unitsOf_digitLoop (base : Z) (s : string) (result : Z) :
  Wide.digitLoop base (Wide.unitsOf s) result = digitLoop base s result.
Proof.
  revert result. induction s as [|c s IH]; intros result; [reflexivity|].
  cbn [Wide.unitsOf Wide.digitLoop digitLoop]. cbv zeta.
  rewrite unit_digitOf.
  destruct ((digitOf c =? -1) || (digitOf c >=? base)); [reflexivity|apply IH].
Qed.

Lemma unitsOf_body (b sign : Z) (t : string) :
  match Wide.removeSeparators (Wide.unitsOf t) with
  | [] => Error EmptyValue
  | _ :: _ =>
      result <- Wide.digitLoop b (Wide.removeSeparators (Wide.unitsOf t)) 0 ;;
      Ok (sign * result)
  end
  = match removeSeparators t with
    | EmptyString => Error EmptyValue
    | String _ _ =>
        result <- digitLoop b (removeSeparators t) 0 ;; Ok (sign * result)
    end.
Proof.
  rewrite unitsOf_removeSeparators, unitsOf_digitLoop.
  now destruct (removeSeparators t).
Qed.

(** On a string of Latin-1 characters the parser on all strings is the
    parser of the first part. *)
Lemma unitsOf_parse (s : string) (base : jsnumber) :
  Wide.parseBigIntFromString (Wide.unitsOf s) base
  = parseBigIntFromString s base.
Proof.
  destruct base as [b|]; [|reflexivity].
  unfold Wide.parseBigIntFromString, parseBigIntFromString.
  destruct ((b <? 2) || (b >? 36)); [reflexivity|]. cbv zeta.
  unfold Wide.trim, trim. rewrite unitsOf_trimStart, unitsOf_trimEnd.
  destruct (trimEnd (trimStart s)) as [|c0 rest]; [reflexivity|].
  cbn [Wide.unitsOf].
  change 43%N with (N_of_ascii "+"). change 45%N with (N_of_ascii "-").
  rewrite !unit_eqb.
  destruct (Ascii.eqb c0 "+" || Ascii.eqb c0 "-").
  - destruct rest as [|c1 rest]; [reflexivity|].
    cbn [Wide.unitsOf bind].
    exact (unitsOf_body b (if Ascii.eqb c0 "-" then -1 else 1)
             (String c1 rest)).
  - cbn [bind]. exact (unitsOf_body b 1 (String c0 rest)).
Qed.

(** C6, amended.  The parser fails with [InvalidBase] when the base is not an
    integer from 2 to 36.  On such a base, with the value first trimmed of
    the white space around it, then stripped of its optional sign and of its
    separators: it fails with [EmptyValue] when nothing is left, with
    [InvalidCharacter] when a character that is left is not a digit below the
    base, and in every other case it succeeds, with the signed accumulated
    value.  The digits are the characters whose lower case is in the
    alphabet: 0-9, a-z, A-Z and the Kelvin sign U+212A, which counts as k.
    This holds of every string; on a string of Latin-1 characters the parser
    is the one of the first part. *)
Theorem parseBigIntFromString_cases (s : list N) :
  Wide.parseBigIntFromString s NotInteger = Error InvalidBase /\
  (forall b : Z,
    (~ validBase b ->
     Wide.parseBigIntFromString s (IntegerValue b) = Error InvalidBase) /\
    (validBase b -> Wide.bodyOf s = [] ->
     Wide.parseBigIntFromString s (IntegerValue b) = Error EmptyValue) /\
    (validBase b -> Wide.bodyOf s <> [] ->
     forallb (Wide.validDigit b) (Wide.bodyOf s) = false ->
     Wide.parseBigIntFromString s (IntegerValue b) = Error InvalidCharacter) /\
    (validBase b -> Wide.bodyOf s <> [] ->
     forallb (Wide.validDigit b) (Wide.bodyOf s) = true ->
     Wide.parseBigIntFromString s (IntegerValue b)
       = Ok (Wide.signOf (Wide.trim s)
             * Wide.accumulate b (Wide.bodyOf s) 0))) /\
  (forall (t : string) (base : jsnumber),
      s = Wide.unitsOf t ->
      Wide.parseBigIntFromString s base = parseBigIntFromString t base).
Proof.
  split; [reflexivity|]. split.
  - intros b. split; [|split; [|split]].
    + intros Hb. now apply wide_parse_invalid_base.
    + intros Hb He. rewrite wide_parse_unfold by assumption. now rewrite He.
    + intros Hb Hne Hbad. rewrite wide_parse_unfold by assumption.
      destruct (Wide.bodyOf s) as [|c r]; [contradiction|].
      now rewrite wide_digitLoop_spec, Hbad.
    + intros Hb Hne Hok. rewrite wide_parse_unfold by assumption.
      destruct (Wide.bodyOf s) as [|c r]; [contradiction|].
      now rewrite wide_digitLoop_spec, Hok.
  - intros t base ->. apply unitsOf_parse.
Qed.

Lemma parseBigIntFromString_cases_witness :
  Wide.parseBigIntFromString (Wide.unitsOf "+_") (IntegerValue 99)
  = Error InvalidBase /\
  Wide.parseBigIntFromString (Wide.unitsOf " +_ ") (IntegerValue 10)
  = Error EmptyValue /\
  Wide.parseBigIntFromString (Wide.unitsOf " 1_2a ") (IntegerValue 10)
  = Error InvalidCharacter /\
  Wide.parseBigIntFromString (Wide.unitsOf " -1_2a ") (IntegerValue 11)
  = Ok (-153) /\
  Wide.parseBigIntFromString [0x3000; 45; Wide.kelvinSign; 0x2028]%N
    (IntegerValue 36) = Ok (-20) /\
  Wide.parseBigIntFromString [Wide.kelvinSign] (IntegerValue 20)
  = Error InvalidCharacter /\
  Wide.parseBigIntFromString [0x212b]%N (IntegerValue 36)
  = Error InvalidCharacter /\
  Wide.parseBigIntFromString (Wide.unitsOf " -1_2a ") (IntegerValue 11)
  = parseBigIntFromString " -1_2a " (IntegerValue 11).
Proof.
  destruct (parseBigIntFromString_cases (Wide.unitsOf "+_")) as (_ & H & _).
  destruct (H 99) as (H1 & _). clear H.
  destruct (parseBigIntFromString_cases (Wide.unitsOf " +_ ")) as (_ & H & _).
  destruct (H 10) as (_ & H2 & _). clear H.
  destruct (parseBigIntFromString_cases (Wide.unitsOf " 1_2a "))
    as (_ & H & _).
  destruct (H 10) as (_ & _ & H3 & _). clear H.
  destruct (parseBigIntFromString_cases (Wide.unitsOf " -1_2a "))
    as (_ & H & H8).
  destruct (H 11) as (_ & _ & _ & H4). clear H.
  destruct (parseBigIntFromString_cases
              [0x3000; 45; Wide.kelvinSign; 0x2028]%N) as (_ & H & _).
  destruct (H 36) as (_ & _ & _ & H5). clear H.
  destruct (parseBigIntFromString_cases [Wide.kelvinSign]) as (_ & H & _).
  destruct (H 20) as (_ & _ & H6 & _). clear H.
  destruct (parseBigIntFromString_cases [0x212b]%N) as (_ & H & _).
  destruct (H 36) as (_ & _ & H7 & _). clear H.
  split; [|split; [|split; [|split; [|split; [|split; [|split]]]]]].
  - apply H1. unfold validBase; lia.
  - apply H2; [unfold validBase; lia | reflexivity].
  - apply H3; [unfold validBase; lia | discriminate | reflexivity].
  - apply H4; [unfold validBase; lia | discriminate | reflexivity].
  - apply H5; [unfold validBase; lia | discriminate | reflexivity].
  - apply H6; [unfold validBase; lia | discriminate | reflexivity].
  - apply H7; [unfold validBase; lia | discriminate | reflexivity].
  - apply (H8 " -1_2a " (IntegerValue 11)). reflexivity.
Defined.

(** ** The exact Lagrange evaluator *)

Lemma zq_add (a b : Z) : zq (a + b) = (zq a + zq b)%Qc.
Proof.
  unfold zq, Qcplus. apply Q2Qc_eq_iff. unfold Q2Qc. cbn [this].
  rewrite !Qred_correct, inject_Z_plus. reflexivity.
Qed.

Lemma zq_mul (a b : Z) : zq (a * b) = (zq a * zq b)%Qc.
Proof.
  unfold zq, Qcmult. apply Q2Qc_eq_iff. unfold Q2Qc. cbn [this].
  rewrite !Qred_correct, inject_Z_mult. reflexivity.
Qed.

Lemma zq_opp (a : Z) : zq (- a) = (- zq a)%Qc.
Proof.
  unfold zq, Qcopp. apply Q2Qc_eq_iff. unfold Q2Qc. cbn [this].
  rewrite !Qred_correct, inject_Z_opp. reflexivity.
Qed.

Lemma zq_sub (a b : Z) : zq (a - b) = (zq a - zq b)%Qc.
Proof.
  unfold Z.sub, Qcminus. now rewrite zq_add, zq_opp.
Qed.

Lemma zq_inj (a b : Z) : zq a = zq b -> a = b.
Proof.
  unfold zq. intros H. apply Q2Qc_eq_iff in H.
  unfold Qeq, inject_Z in H. simpl in H. lia.
Qed.

Lemma zq_0 : zq 0 = 0%Qc.
Proof. reflexivity. Qed.

Lemma zq_1 : zq 1 = 1%Qc.
Proof. reflexivity. Qed.

Lemma zq_nonzero (a : Z) : a <> 0 -> zq a <> 0%Qc.
Proof. intros Ha H. apply Ha. apply zq_inj. now rewrite zq_0. Qed.

(** Two integer fractions with equal cross products are the same rational. *)
Lemma zq_fraction_eq (a b c d : Z) :
  b <> 0 -> d <> 0 -> a * d = c * b -> (zq a / zq b = zq c / zq d)%Qc.
Proof.
  intros Hb Hd E.
  assert (E' : (zq a * zq d = zq c * zq b)%Qc) by now rewrite <- !zq_mul, E.
  apply zq_nonzero in Hb, Hd.
  assert (H : (zq a / zq b = (zq a * zq d) / (zq b * zq d))%Qc)
    by (field; split; assumption).
  rewrite H, E'. field. split; assumption.
Qed.

(** *** Polynomials and their roots *)

(** Division by a linear factor. *)
Lemma evalPoly_division (p : list Qc) (r : Qc) :
  exists q,
    (List.length q <= pred (List.length p))%nat /\
    forall t, evalPoly p t = ((t - r) * evalPoly q t + evalPoly p r)%Qc.
Proof.
  induction p as [|c p (q & Hlen & Hq)].
  - exists []. split; [simpl; lia|]. intros t. cbn [evalPoly]. ring.
  - destruct p as [|c' p'].
    + exists []. split; [simpl; lia|]. intros t. cbn [evalPoly]. ring.
    + exists (evalPoly (c' :: p') r :: q). split; [simpl in *; lia|].
      intros t. cbn [evalPoly] in *. rewrite (Hq t). ring.
Qed.

(** A polynomial of degree below [n] with [n] distinct roots vanishes. *)
Lemma evalPoly_roots (n : nat) :
  forall (p rs : list Qc),
    (List.length p <= n)%nat -> NoDup rs -> List.length rs = n ->
    (forall r, In r rs -> evalPoly p r = 0%Qc) ->
    forall t, evalPoly p t = 0%Qc.
Proof.
  induction n as [|n IH]; intros p rs Hp Hnd Hlen Hroots t.
  - destruct p; [reflexivity|simpl in Hp; lia].
  - destruct rs as [|r rs]; [discriminate|].
    destruct (evalPoly_division p r) as (q & Hq & E).
    assert (Hr : evalPoly p r = 0%Qc) by (apply Hroots; now left).
    inversion Hnd as [|? ? Hnotin Hnd']; subst.
    assert (Hq0 : forall t, evalPoly q t = 0%Qc).
    { apply (IH q rs); [lia|assumption|simpl in Hlen; lia|].
      intros r' Hr'. pose proof (E r') as E'.
      rewrite Hr, (Hroots r') in E' by now right.
      apply (Qcmult_integral_l (r' - r)%Qc).
      - intros Hz. apply Hnotin.
        assert (r' = r) as <- by (rewrite <- (Qcplus_0_r r), <- Hz; ring).
        assumption.
      - replace ((r' - r) * evalPoly q r')%Qc
          with ((r' - r) * evalPoly q r' + 0)%Qc by ring.
        now symmetry. }
    rewrite E, Hq0, Hr. ring.
Qed.

Lemma addPoly_length (p q : list Qc) :
  List.length (addPoly p q) = Nat.max (List.length p) (List.length q).
Proof.
  revert q. induction p as [|a p IH]; intros [|b q]; simpl; try reflexivity.
  now rewrite IH.
Qed.

Lemma addPoly_eval (p q : list Qc) (t : Qc) :
  evalPoly (addPoly p q) t = (evalPoly p t + evalPoly q t)%Qc.
Proof.
  revert q. induction p as [|a p IH]; intros [|b q]; cbn [addPoly evalPoly];
    try ring.
  rewrite IH. ring.
Qed.

Lemma scalePoly_eval (c : Qc) (p : list Qc) (t : Qc) :
  evalPoly (map (Qcmult c) p) t = (c * evalPoly p t)%Qc.
Proof.
  induction p as [|a p IH]; cbn [map evalPoly]; [ring|]. rewrite IH. ring.
Qed.

Lemma isPoly_weaken (n m : nat) (f : Qc -> Qc) :
  (n <= m)%nat -> isPoly n f -> isPoly m f.
Proof. intros Hnm (p & Hp & E). exists p. split; [lia|assumption]. Qed.

Lemma isPoly_ext (n : nat) (f g : Qc -> Qc) :
  (forall t, f t = g t) -> isPoly n f -> isPoly n g.
Proof.
  intros Hfg (p & Hp & E). exists p. split; [assumption|].
  intros t. now rewrite <- Hfg.
Qed.

Lemma isPoly_zero (n : nat) : isPoly n (fun _ => 0%Qc).
Proof. exists []. split; [simpl; lia|reflexivity]. Qed.

Lemma isPoly_const (c : Qc) : isPoly 1 (fun _ => c).
Proof. exists [c]. split; [simpl; lia|]. intros t. cbn [evalPoly]. ring. Qed.

Lemma isPoly_add (n : nat) (f g : Qc -> Qc) :
  isPoly n f -> isPoly n g -> isPoly n (fun t => (f t + g t)%Qc).
Proof.
  intros (p & Hp & Ep) (q & Hq & Eq). exists (addPoly p q). split.
  - rewrite addPoly_length. lia.
  - intros t. now rewrite addPoly_eval, Ep, Eq.
Qed.

Lemma isPoly_scale (n : nat) (c : Qc) (f : Qc -> Qc) :
  isPoly n f -> isPoly n (fun t => (c * f t)%Qc).
Proof.
  intros (p & Hp & Ep). exists (map (Qcmult c) p). split.
  - now rewrite length_map.
  - intros t. now rewrite scalePoly_eval, Ep.
Qed.

Lemma isPoly_linear_factor (n : nat) (a : Qc) (f : Qc -> Qc) :
  isPoly n f -> isPoly (S n) (fun t => (f t * (t - a))%Qc).
Proof.
  intros (p & Hp & Ep).
  exists (addPoly (0%Qc :: p) (map (Qcmult (- a)%Qc) p)). split.
  - rewrite addPoly_length, length_map. cbn [List.length]. lia.
  - intros t. rewrite addPoly_eval, scalePoly_eval. cbn [evalPoly].
    rewrite Ep. ring.
Qed.

(** *** Lagrange's formula *)

Lemma Qc_cancel (a : Qc) : (a + (0 - 1) * a)%Qc = 0%Qc.
Proof. ring. Qed.

Lemma Qc_difference_zero (a b : Qc) :
  (a + (0 - 1) * b)%Qc = 0%Qc -> b = a.
Proof.
  intros H. rewrite <- (Qcplus_0_r b), <- H. ring.
Qed.

Section Lagrange.

Variable xs ys : nat -> Qc.

Lemma others_seq (j s n : nat) :
  (s <= j < s + n)%nat -> List.length (others j (seq s n)) = pred n.
Proof.
  assert (Hout : forall n s, (j < s)%nat -> others j (seq s n) = seq s n).
  { clear. induction n as [|n IH]; intros s Hs; simpl; [reflexivity|].
    destruct (Nat.eqb_spec s j); [lia|]. simpl. now rewrite IH by lia. }
  revert s. induction n as [|n IH]; intros s Hs; [lia|].
  simpl. destruct (Nat.eqb_spec s j) as [->|Hne]; simpl.
  - rewrite Hout by lia. apply length_seq.
  - rewrite IH by lia. destruct n; [lia|reflexivity].
Qed.

Lemma basisAt_isPoly (j : nat) (l : list nat) :
  isPoly (S (List.length (others j l))) (basisAt xs j l).
Proof.
  induction l as [|i l IH]; cbn [basisAt].
  - apply isPoly_const.
  - unfold others in *. cbn [filter].
    destruct (i =? j)%nat; cbn [negb List.length].
    + eapply isPoly_ext; [|exact IH]. intros t. ring.
    + eapply isPoly_ext; [|exact (isPoly_linear_factor _ (xs i) _ IH)].
      intros t. cbv beta. ring.
Qed.

Lemma basisAt_zero (j m : nat) (l : list nat) :
  In m l -> m <> j -> basisAt xs j l (xs m) = 0%Qc.
Proof.
  intros Hin Hne. induction l as [|i l IH]; [contradiction|].
  cbn [basisAt]. destruct Hin as [->|Hin].
  - destruct (Nat.eqb_spec m j); [contradiction|]. ring.
  - rewrite IH by assumption. ring.
Qed.

Lemma basisAt_nonzero (j : nat) (l : list nat) :
  (forall i, In i l -> i <> j -> xs i <> xs j) ->
  basisAt xs j l (xs j) <> 0%Qc.
Proof.
  induction l as [|i l IH]; intros Hd; cbn [basisAt].
  - discriminate.
  - intros Hz. apply Qcmult_integral in Hz as [Hz|Hz].
    + destruct (Nat.eqb_spec i j); [discriminate Hz|].
      apply (Hd i); [now left|assumption|].
      rewrite <- (Qcplus_0_r (xs i)), <- Hz. ring.
    + revert Hz. apply IH. intros i' Hi'. apply Hd. now right.
Qed.

Lemma sumOver_isPoly (n : nat) (f : nat -> Qc -> Qc) (l : list nat) :
  (forall j, In j l -> isPoly n (f j)) ->
  isPoly n (fun t => sumOver (fun j => f j t) l).
Proof.
  induction l as [|j l IH]; intros Hf; cbn [sumOver].
  - apply isPoly_zero.
  - apply isPoly_add; [apply Hf; now left|].
    apply IH. intros j' Hj'. apply Hf. now right.
Qed.

Lemma sumOver_single (f : nat -> Qc) (m : nat) (l : list nat) :
  NoDup l -> In m l -> (forall j, In j l -> j <> m -> f j = 0%Qc) ->
  sumOver f l = f m.
Proof.
  assert (Hzero : forall l, (forall j, In j l -> f j = 0%Qc) ->
                            sumOver f l = 0%Qc).
  { clear. induction l as [|j l IH]; intros H; cbn [sumOver]; [reflexivity|].
    rewrite (H j) by now left. rewrite IH; [ring|].
    intros j' Hj'. apply H. now right. }
  induction l as [|j l IH]; intros Hnd Hin Hf; [contradiction|].
  inversion Hnd as [|? ? Hnotin Hnd']; subst. cbn [sumOver].
  destruct Hin as [->|Hin].
  - rewrite Hzero; [ring|]. intros j' Hj'. apply Hf; [now right|].
    intros ->. contradiction.
  - rewrite (Hf j); [|now left|intros ->; contradiction].
    rewrite IH; [ring|assumption|assumption|].
    intros j' Hj'. apply Hf. now right.
Qed.

Variable k : nat.
Hypothesis distinct :
  forall i j, (i < k)%nat -> (j < k)%nat -> i <> j -> xs i <> xs j.

Lemma basisAt_seq_nonzero (j : nat) :
  (j < k)%nat -> basisAt xs j (seq 0 k) (xs j) <> 0%Qc.
Proof.
  intros Hj. apply basisAt_nonzero. intros i Hi Hne.
  apply in_seq in Hi. apply distinct; lia.
Qed.

Lemma lagrangeAt_isPoly : isPoly k (lagrangeAt xs ys k).
Proof.
  unfold lagrangeAt. apply (sumOver_isPoly k (lagrangeTerm xs ys k)).
  intros j Hj. apply in_seq in Hj. unfold lagrangeTerm.
  pose proof (basisAt_isPoly j (seq 0 k)) as H.
  rewrite others_seq in H by lia.
  replace (S (pred k)) with k in H by lia.
  eapply isPoly_ext;
    [|exact (isPoly_scale k (ys j / basisAt xs j (seq 0 k) (xs j))%Qc _ H)].
  intros t. cbv beta. field. apply basisAt_seq_nonzero. lia.
Qed.

Lemma lagrangeAt_node (m : nat) :
  (m < k)%nat -> lagrangeAt xs ys k (xs m) = ys m.
Proof.
  intros Hm. unfold lagrangeAt.
  rewrite (sumOver_single _ m).
  - unfold lagrangeTerm. field. apply basisAt_seq_nonzero. lia.
  - apply seq_NoDup.
  - apply in_seq. lia.
  - intros j Hj Hne. unfold lagrangeTerm.
    rewrite basisAt_zero; [|apply in_seq; lia|congruence].
    apply in_seq in Hj. field. apply basisAt_seq_nonzero. lia.
Qed.

Lemma nodes_NoDup : NoDup (map xs (seq 0 k)).
Proof.
  apply NoDup_map_NoDup_ForallPairs; [|apply seq_NoDup].
  intros i j Hi Hj E. apply in_seq in Hi, Hj.
  destruct (Nat.eq_dec i j) as [|Hne]; [assumption|].
  exfalso. apply (distinct i j); lia || assumption.
Qed.

(** Lagrange's formula gives the value of any polynomial of degree below [k]
    that takes the values [ys] at the nodes [xs]. *)
Lemma lagrangeAt_unique (p : list Qc) (t : Qc) :
  (List.length p <= k)%nat ->
  (forall m, (m < k)%nat -> evalPoly p (xs m) = ys m) ->
  evalPoly p t = lagrangeAt xs ys k t.
Proof.
  intros Hp Hinterp.
  assert (Hg : isPoly k (fun t => (lagrangeAt xs ys k t + (0 - 1) * evalPoly p t)%Qc)).
  { apply isPoly_add; [apply lagrangeAt_isPoly|].
    apply isPoly_scale. exists p. split; [assumption|reflexivity]. }
  destruct Hg as (g & Hglen & Eg).
  assert (Hz : evalPoly g t = 0%Qc).
  { apply (evalPoly_roots k g (map xs (seq 0 k)));
      [assumption|apply nodes_NoDup|now rewrite length_map, length_seq|].
    intros r Hr. apply in_map_iff in Hr as (m & <- & Hm).
    apply in_seq in Hm. rewrite <- Eg. cbv beta.
    rewrite lagrangeAt_node, Hinterp by lia. apply Qc_cancel. }
  rewrite <- Eg in Hz. cbv beta in Hz.
  now apply Qc_difference_zero.
Qed.

End Lagrange.

(** *** The loops of the evaluator *)

Section Evaluator.

Variable pts : list point.

Local Abbreviation xs := (xq pts).
Local Abbreviation ys := (yq pts).

(** The inner loop either meets a point that shares the [x] of the j-th
    point, or returns the two products of Lagrange's basis. *)
Lemma basisLoop_cases (j : nat) (l : list nat) (n0 d0 : Z) :
  (foldM (basisStep pts j (x (pointAt pts j))) l (n0, d0) = Error DuplicateX /\
   exists i, In i l /\ i <> j /\ x (pointAt pts i) = x (pointAt pts j)) \/
  (exists n d,
      foldM (basisStep pts j (x (pointAt pts j))) l (n0, d0) = Ok (n, d) /\
      (forall i, In i l -> i <> j -> x (pointAt pts i) <> x (pointAt pts j)) /\
      zq n = (zq n0 * basisAt xs j l 0)%Qc /\
      zq d = (zq d0 * basisAt xs j l (xs j))%Qc).
Proof.
  revert n0 d0. induction l as [|i l IH]; intros n0 d0.
  - right. exists n0, d0. cbn [foldM basisAt].
    repeat split; [intros i []|ring|ring].
  - cbn [foldM basisAt]. unfold basisStep at 1 3.
    destruct (Nat.eqb_spec i j) as [->|Hij]; cbn [bind].
    + destruct (IH n0 d0) as [(E & i' & Hi' & Hne & Hx)|(n & d & E & Hd & Hn & Hdd)].
      * left. split; [assumption|]. exists i'. repeat split; auto. now right.
      * right. exists n, d. repeat split; auto.
        -- intros i' [->|Hi'] Hne; [contradiction|]. now apply Hd.
        -- rewrite Hn. ring.
        -- rewrite Hdd. ring.
    + destruct (Z.eqb_spec (x (pointAt pts i)) (x (pointAt pts j))) as [Hx|Hx];
        cbn [bind].
      * left. split; [reflexivity|]. exists i. repeat split; auto. now left.
      * destruct (IH (n0 * (0 - x (pointAt pts i)))
                     (d0 * (x (pointAt pts j) - x (pointAt pts i))))
          as [(E & i' & Hi' & Hne & Hx')|(n & d & E & Hd & Hn & Hdd)].
        -- left. split; [assumption|]. exists i'. repeat split; auto. now right.
        -- right. exists n, d. repeat split; auto.
           ++ intros i' [->|Hi'] Hne; [assumption|]. now apply Hd.
           ++ rewrite Hn, zq_mul, zq_sub, zq_0. unfold xq. ring.
           ++ rewrite Hdd, zq_mul, zq_sub. unfold xq. ring.
Qed.

Variable k : nat.

(** One iteration of the outer loop on an index whose [x] no other of the
    first [k] points shares: the running total, in lowest terms, grows by
    the j-th term of Lagrange's formula at 0. *)
Lemma accumulateTerm_ok (j : nat) (tn td : Z) :
  0 < td -> noPartner pts k j ->
  exists a b,
    accumulateTerm pts k (tn, td) j = Ok (a, b) /\
    0 < b /\ Z.gcd a b = 1 /\
    (zq a / zq b = zq tn / zq td + lagrangeTerm xs ys k j 0)%Qc.
Proof.
  intros Htd Hj. unfold accumulateTerm, basisLoop.
  destruct (basisLoop_cases j (seq 0 k) 1 1)
    as [(_ & i & Hi & Hne & Hx)|(n & d & E & _ & Hn & Hd)].
  { exfalso. exact (Hj i Hi Hne Hx). }
  rewrite E. cbn [bind].
  rewrite zq_1, Qcmult_1_l in Hn, Hd.
  assert (Hdq : zq d <> 0%Qc).
  { rewrite Hd. apply basisAt_nonzero. intros i Hi Hne E'.
    apply (Hj i Hi Hne). now apply zq_inj. }
  assert (Hd0 : d <> 0) by (intros ->; now apply Hdq).
  destruct (reduceFraction_spec (y (pointAt pts j) * n) d Hd0)
    as (tn1 & td1 & E1 & Htd1 & _ & Hv1).
  rewrite E1. cbn [bind].
  assert (Hnew : td * td1 <> 0) by nia.
  destruct (reduceFraction_spec (tn * td1 + tn1 * td) (td * td1) Hnew)
    as (a & b & E2 & Hb & Hg & Hv2).
  rewrite E2. exists a, b. repeat split; try assumption.
  rewrite (zq_fraction_eq a b (tn * td1 + tn1 * td) (td * td1))
    by (lia || assumption).
  assert (Hterm : (zq tn1 / zq td1 = lagrangeTerm xs ys k j 0)%Qc).
  { rewrite (zq_fraction_eq tn1 td1 (y (pointAt pts j) * n) d)
      by (lia || assumption).
    unfold lagrangeTerm. rewrite zq_mul, Hn, Hd. reflexivity. }
  rewrite <- Hterm, zq_add, !zq_mul.
  field. split; apply zq_nonzero; lia.
Qed.

(** The outer loop over indices none of which has a partner. *)
Lemma outerLoop_ok (l : list nat) (tn td : Z) :
  0 < td -> (forall j, In j l -> noPartner pts k j) ->
  exists a b,
    foldM (accumulateTerm pts k) l (tn, td) = Ok (a, b) /\
    0 < b /\
    (zq a / zq b
     = zq tn / zq td + sumOver (fun j => lagrangeTerm xs ys k j 0) l)%Qc.
Proof.
  revert tn td. induction l as [|j l IH]; intros tn td Htd Hl.
  - exists tn, td. cbn [foldM sumOver]. repeat split; [assumption|ring].
  - destruct (accumulateTerm_ok j tn td Htd (Hl j (or_introl eq_refl)))
      as (a & b & E & Hb & _ & Hv).
    destruct (IH a b Hb (fun j' Hj' => Hl j' (or_intror Hj')))
      as (a' & b' & E' & Hb' & Hv').
    exists a', b'. cbn [foldM sumOver]. rewrite E. cbn [bind].
    repeat split; try assumption. rewrite Hv', Hv. ring.
Qed.

(** The outer loop stops with [DuplicateX] as soon as it reaches an index
    that has a partner. *)
Lemma outerLoop_duplicate (l : list nat) (tn td : Z) :
  0 < td ->
  (exists j i, In j l /\ In i (seq 0 k) /\ i <> j /\
               x (pointAt pts i) = x (pointAt pts j)) ->
  foldM (accumulateTerm pts k) l (tn, td) = Error DuplicateX.
Proof.
  revert tn td. induction l as [|j l IH]; intros tn td Htd Hdup.
  - destruct Hdup as (j & i & [] & _).
  - cbn [foldM].
    destruct (basisLoop_cases j (seq 0 k) 1 1)
      as [(E & _)|(n & d & _ & Hnp & _)].
    + unfold accumulateTerm, basisLoop. now rewrite E.
    + destruct (accumulateTerm_ok j tn td Htd Hnp) as (a & b & E & Hb & _).
      rewrite E. cbn [bind]. apply IH; [assumption|].
      destruct Hdup as (j' & i & [<-|Hj'] & Hi & Hne & Hx).
      * exfalso. exact (Hnp i Hi Hne Hx).
      * exists j', i. auto.
Qed.

End Evaluator.

Lemma distinct_of_NoDup (pts : list point) (i j : nat) :
  NoDup (map x pts) ->
  (i < List.length pts)%nat -> (j < List.length pts)%nat -> i <> j ->
  x (pointAt pts i) <> x (pointAt pts j).
Proof.
  intros Hnd Hi Hj Hne E. apply Hne.
  apply (proj1 (NoDup_nth (map x pts) 0) Hnd); rewrite ?length_map; try assumption.
  unfold pointAt in E.
  now rewrite <- !(map_nth x pts (mkPoint 0 0)) in E.
Qed.

Lemma interpolates_nodes (p : list Qc) (pts : list point) :
  interpolates p pts <->
  forall m, (m < List.length pts)%nat -> evalPoly p (xq pts m) = yq pts m.
Proof.
  unfold interpolates, xq, yq, pointAt. split.
  - intros H m Hm. apply H. now apply nth_In.
  - intros H pt Hpt.
    destruct (In_nth pts pt (mkPoint 0 0) Hpt) as (m & Hm & <-). now apply H.
Qed.

Lemma evalPoly_integer (cs : list Z) (t : Z) :
  evalPoly (map zq cs) (zq t) = zq (evalZ cs t).
Proof.
  induction cs as [|c cs IH]; cbn [map evalPoly evalZ]; [reflexivity|].
  now rewrite IH, zq_add, zq_mul.
Qed.

Lemma evalPoly_at_zero (cs : list Z) :
  evalPoly (map zq cs) 0%Qc = zq (nth 0 cs 0).
Proof. destruct cs as [|c cs]; cbn [map evalPoly nth]; [reflexivity|ring]. Qed.

(** What the evaluator returns on points with pairwise distinct [x]. *)
Lemma evaluator_value (pts : list point) :
  pts <> [] -> NoDup (map x pts) ->
  exists n d,
    computeConstantTermFromSelected pts
      (IntegerValue (Z.of_nat (List.length pts))) = Ok (n, d) /\
    0 < d /\ Z.gcd n d = 1 /\
    (zq n / zq d = lagrangeAt (xq pts) (yq pts) (List.length pts) 0)%Qc.
Proof.
  intros Hne Hnd. unfold computeConstantTermFromSelected.
  assert (Hk : (0 < List.length pts)%nat)
    by (destruct pts; [contradiction|simpl; lia]).
  set (k := List.length pts) in *.
  destruct (Z.leb_spec (Z.of_nat k) 0); [lia|].
  rewrite Z.ltb_irrefl, Nat2Z.id.
  destruct (outerLoop_ok pts k (seq 0 k) 0 1 Z.lt_0_1) as (a & b & E & Hb & Hv).
  { intros j Hj i Hi Hij. apply in_seq in Hi, Hj.
    apply distinct_of_NoDup; fold k; (assumption || lia). }
  rewrite E. cbn [bind].
  destruct (Z.eqb_spec b 0) as [|_]; [lia|].
  destruct (reduceFraction_spec a b ltac:(lia)) as (n & d & E' & Hd & Hg & Hv').
  exists n, d. repeat split; try assumption.
  rewrite (zq_fraction_eq n d a b) by (lia || assumption).
  rewrite Hv. unfold lagrangeAt. rewrite zq_0, zq_1. field. discriminate.
Qed.

(** C1.  On [k >= 1] points with pairwise distinct [x], the evaluator
    returns a fraction in lowest terms with a positive denominator; a
    polynomial of degree below [k] through the points exists, and the
    fraction is the value at 0 of every such polynomial.  When the points lie
    on a polynomial with integer coefficients of degree below [k], the
    result is its constant term over 1. *)
Theorem computeConstantTermFromSelected_interpolates (pts : list point) :
  pts <> [] -> NoDup (map x pts) ->
  exists n d,
    computeConstantTermFromSelected pts
      (IntegerValue (Z.of_nat (List.length pts))) = Ok (n, d) /\
    0 < d /\ Z.gcd n d = 1 /\
    (exists p, (List.length p <= List.length pts)%nat /\ interpolates p pts) /\
    (forall p : list Qc,
        (List.length p <= List.length pts)%nat -> interpolates p pts ->
        evalPoly p 0%Qc = (zq n / zq d)%Qc) /\
    (forall cs : list Z,
        (List.length cs <= List.length pts)%nat ->
        (forall pt, In pt pts -> evalZ cs (x pt) = y pt) ->
        n = nth 0 cs 0 /\ d = 1).
Proof.
  intros Hne Hnd.
  destruct (evaluator_value pts Hne Hnd) as (n & d & E & Hd & Hg & Hv).
  set (k := List.length pts) in *.
  assert (Hdist : forall i j, (i < k)%nat -> (j < k)%nat -> i <> j ->
                              xq pts i <> xq pts j).
  { intros i j Hi Hj Hij Hx. apply zq_inj in Hx. revert Hx.
    now apply distinct_of_NoDup. }
  assert (Huniq : forall p : list Qc,
             (List.length p <= k)%nat -> interpolates p pts ->
             evalPoly p 0%Qc = (zq n / zq d)%Qc).
  { intros p Hp Hi. rewrite Hv.
    apply lagrangeAt_unique; [assumption|assumption|].
    now apply interpolates_nodes. }
  exists n, d. split; [assumption|]. split; [assumption|].
  split; [assumption|]. split; [|split; [assumption|]].
  - destruct (lagrangeAt_isPoly (xq pts) (yq pts) k Hdist) as (p & Hp & Ep).
    exists p. split; [assumption|]. apply interpolates_nodes.
    intros m Hm. rewrite <- Ep. now apply lagrangeAt_node.
  - intros cs Hlen Hcs.
    assert (Hc0 : evalPoly (map zq cs) 0%Qc = (zq n / zq d)%Qc).
    { apply Huniq; [now rewrite length_map|].
      intros pt Hpt. rewrite evalPoly_integer. f_equal. now apply Hcs. }
    rewrite evalPoly_at_zero in Hc0.
    assert (Hdq : zq d <> 0%Qc) by (apply zq_nonzero; lia).
    assert (Hn : n = d * nth 0 cs 0).
    { apply zq_inj. rewrite zq_mul, Hc0. field. assumption. }
    rewrite Hn in Hg. rewrite Z.gcd_comm, Z.gcd_mul_diag_l in Hg by lia.
    subst d. split; lia.
Qed.

Lemma computeConstantTermFromSelected_interpolates_witness :
  let pts := [mkPoint 1 3; mkPoint 2 7; mkPoint 3 13] in
  exists n d,
    computeConstantTermFromSelected pts
      (IntegerValue (Z.of_nat (List.length pts))) = Ok (n, d) /\
    0 < d /\ Z.gcd n d = 1 /\
    (exists p, (List.length p <= List.length pts)%nat /\ interpolates p pts) /\
    (forall p : list Qc,
        (List.length p <= List.length pts)%nat -> interpolates p pts ->
        evalPoly p 0%Qc = (zq n / zq d)%Qc) /\
    (forall cs : list Z,
        (List.length cs <= List.length pts)%nat ->
        (forall pt, In pt pts -> evalZ cs (x pt) = y pt) ->
        n = nth 0 cs 0 /\ d = 1).
Proof.
  apply (computeConstantTermFromSelected_interpolates
           [mkPoint 1 3; mkPoint 2 7; mkPoint 3 13]).
  - discriminate.
  - simpl. repeat constructor; simpl; intuition discriminate.
Defined.

(** ** Duplicate x coordinates *)

Lemma insertByX_perm (p : point) (l : list point) :
  Permutation (p :: l) (insertByX p l).
Proof.
  induction l as [|q l IH]; simpl; [reflexivity|].
  destruct (Z.leb_spec (x p) (x q)); [reflexivity|].
  rewrite perm_swap. now apply perm_skip.
Qed.

Lemma sortByX_perm (l : list point) : Permutation l (sortByX l).
Proof.
  induction l as [|p l IH]; simpl; [reflexivity|].
  rewrite <- insertByX_perm. now apply perm_skip.
Qed.

Lemma insertByX_sorted (p : point) (l : list point) :
  StronglySorted leX l -> StronglySorted leX (insertByX p l).
Proof.
  induction 1 as [|q l Hs IH Hq]; simpl.
  - repeat constructor.
  - destruct (Z.leb_spec (x p) (x q)) as [Hle|Hgt].
    + constructor; [now constructor|]. constructor; [assumption|].
      eapply Forall_impl; [|exact Hq]. unfold leX. intros; lia.
    + constructor; [assumption|].
      apply (Permutation_Forall (insertByX_perm p l)).
      constructor; [unfold leX; lia|assumption].
Qed.

Lemma sortByX_sorted (l : list point) : StronglySorted leX (sortByX l).
Proof.
  induction l as [|p l IH]; simpl; [constructor|]. now apply insertByX_sorted.
Qed.

Lemma In_firstn {A : Type} (n : nat) (l : list A) (a : A) :
  In a (firstn n l) -> In a l.
Proof.
  intros H. rewrite <- (firstn_skipn n l). apply in_or_app. now left.
Qed.

Lemma firstn_sorted (R : point -> point -> Prop) (n : nat) (l : list point) :
  StronglySorted R l -> StronglySorted R (firstn n l).
Proof.
  intros H. revert n. induction H as [|p l Hs IH Hp]; intros [|n]; simpl;
    try constructor; [apply IH|].
  apply Forall_forall. intros q Hq.
  apply (proj1 (Forall_forall _ _) Hp). eapply In_firstn, Hq.
Qed.

(** The scan of adjacent pairs fails with [DuplicateX] only, and on a list
    sorted by [x] it passes exactly when the [x] strictly increase. *)
Lemma adjacentScan_cases (l : list point) :
  adjacentScan l = Ok tt \/ adjacentScan l = Error DuplicateX.
Proof.
  induction l as [|p [|q l] IH]; simpl; auto.
  destruct (x q =? x p); auto.
Qed.

Lemma adjacentScan_strict (l : list point) :
  StronglySorted leX l -> adjacentScan l = Ok tt -> StronglySorted ltX l.
Proof.
  induction 1 as [|p l Hs IH Hp]; intros Hscan; [constructor|].
  destruct l as [|q l]; [repeat constructor|].
  simpl in Hscan. destruct (Z.eqb_spec (x q) (x p)) as [|Hne]; [discriminate|].
  specialize (IH Hscan). constructor; [assumption|].
  inversion Hp as [|? ? Hpq _]; subst. unfold leX in Hpq.
  assert (Hlt : ltX p q) by (unfold ltX; lia).
  constructor; [assumption|].
  inversion IH as [|? ? _ Hq]; subst.
  eapply Forall_impl; [|exact Hq]. unfold ltX in *. intros; lia.
Qed.

Lemma strict_no_duplicate (l : list point) :
  StronglySorted ltX l -> ~ hasDuplicateX l.
Proof.
  intros Hs (i & j & Hij & E). unfold pointAt in E.
  revert i j Hij E. induction Hs as [|p l Hs IH Hp]; intros i j Hij E.
  - simpl in Hij. lia.
  - destruct j as [|j]; [lia|]. destruct i as [|i]; simpl in *.
    + assert (Hin : In (nth j l (mkPoint 0 0)) l) by (apply nth_In; lia).
      pose proof (proj1 (Forall_forall _ _) Hp _ Hin) as Hlt.
      unfold ltX in Hlt. lia.
    + apply (IH i j); [lia|assumption].
Qed.

Lemma adjacentScan_duplicate (l : list point) :
  StronglySorted leX l -> hasDuplicateX l ->
  adjacentScan l = Error DuplicateX.
Proof.
  intros Hs Hdup. destruct (adjacentScan_cases l) as [Hok|]; [|assumption].
  exfalso. apply (strict_no_duplicate l); [|assumption].
  now apply adjacentScan_strict.
Qed.

Lemma selectAndEvaluate_duplicate (pts : list point) (k : Z) :
  k <= Z.of_nat (List.length pts) ->
  hasDuplicateX (firstn (Z.to_nat k) (sortByX pts)) ->
  adjacentScan (firstn (Z.to_nat k) (sortByX pts)) = Error DuplicateX /\
  selectAndEvaluate pts k = Error DuplicateX.
Proof.
  intros Hk Hdup.
  assert (E : adjacentScan (firstn (Z.to_nat k) (sortByX pts))
              = Error DuplicateX).
  { apply adjacentScan_duplicate; [|assumption].
    apply firstn_sorted, sortByX_sorted. }
  split; [assumption|]. unfold selectAndEvaluate.
  destruct (Z.ltb_spec (Z.of_nat (List.length pts)) k); [lia|].
  now rewrite E.
Qed.

Lemma evaluator_duplicate (pts : list point) (k : nat) :
  (0 < k <= List.length pts)%nat ->
  hasDuplicateX (firstn k pts) ->
  computeConstantTermFromSelected pts (IntegerValue (Z.of_nat k))
    = Error DuplicateX.
Proof.
  intros Hk (i & j & Hij & E). rewrite length_firstn in Hij.
  unfold pointAt in E. rewrite !nth_firstn in E.
  destruct (Nat.ltb_spec i k); [|lia]. destruct (Nat.ltb_spec j k); [|lia].
  unfold computeConstantTermFromSelected.
  destruct (Z.leb_spec (Z.of_nat k) 0); [lia|].
  destruct (Z.ltb_spec (Z.of_nat (List.length pts)) (Z.of_nat k)); [lia|].
  rewrite Nat2Z.id.
  rewrite (outerLoop_duplicate pts k (seq 0 k) 0 1 Z.lt_0_1); [reflexivity|].
  exists j, i. repeat split; try (apply in_seq; lia); [lia|exact E].
Qed.

(** ** The builders *)

Lemma mapM_ext {A B : Type} (f g : A -> outcome B) (l : list A) :
  (forall a, In a l -> f a = g a) -> mapM f l = mapM g l.
Proof.
  induction l as [|a l IH]; intros H; simpl; [reflexivity|].
  rewrite (H a) by now left. destruct (g a); [|reflexivity]. simpl.
  rewrite IH; [reflexivity|]. intros a' Ha'. apply H. now right.
Qed.

(** Permuting the list permutes the elements a successful loop pushes. *)
Lemma mapM_perm {A B : Type} (f : A -> outcome B) (l l' : list A) :
  Permutation l l' ->
  forall bs, mapM f l = Ok bs ->
             exists bs', mapM f l' = Ok bs' /\ Permutation bs bs'.
Proof.
  induction 1 as [|a l l' _ IH|a b l|l l' l'' _ IH1 _ IH2]; intros bs E.
  - exists bs. split; [assumption|]. simpl in E. injection E as <-. reflexivity.
  - simpl in *. destruct (f a) as [b|]; [|discriminate]. simpl in *.
    destruct (mapM f l) as [bs0|]; [|discriminate]. simpl in E.
    injection E as <-. destruct (IH bs0 eq_refl) as (bs' & -> & Hp).
    exists (b :: bs'). split; [reflexivity|now apply perm_skip].
  - simpl in *. destruct (f b) as [b'|]; [|discriminate]. simpl in *.
    destruct (f a) as [a'|]; [|discriminate]. simpl in *.
    destruct (mapM f l) as [bs0|]; [|discriminate]. simpl in E.
    injection E as <-. exists (a' :: b' :: bs0).
    split; [reflexivity|apply perm_swap].
  - destruct (IH1 bs E) as (bs' & E' & Hp).
    destruct (IH2 bs' E') as (bs'' & E'' & Hp').
    exists bs''. split; [assumption|]. now transitivity bs'.
Qed.

Section BuilderFacts.
Context {NM : NumberModel}.

(** The loop over the keys is the loop body mapped over the keys other than
    [keys], in their order. *)
Lemma collectPoints_mapM (pointOfKey : string -> outcome point)
  (properties : list (string * value)) :
  collectPoints pointOfKey properties
  = mapM pointOfKey (filter isPointKey (map fst properties)).
Proof.
  unfold collectPoints.
  assert (H : forall l acc,
             foldM (fun pts rawKey =>
                      if String.eqb rawKey "keys" then Ok pts
                      else p <- pointOfKey rawKey ;; Ok (pts ++ [p]))
                   l acc
             = (bs <- mapM pointOfKey (filter isPointKey l) ;; Ok (acc ++ bs))).
  { induction l as [|key l IH]; intros acc; cbn [foldM filter mapM bind].
    - now rewrite app_nil_r.
    - unfold isPointKey at 1. destruct (String.eqb key "keys"); cbn [negb bind].
      + apply IH.
      + cbn [mapM]. destruct (pointOfKey key) as [p|e]; cbn [bind];
          [|reflexivity].
        rewrite IH. destruct (mapM pointOfKey (filter isPointKey l));
          cbn [bind]; [|reflexivity].
        now rewrite <- app_assoc. }
  rewrite H. now destruct (mapM pointOfKey _).
Qed.

Lemma findConstantTermFromString_unfold
  (properties : list (string * value)) (k : Z) (pts : list point) :
  readK (VObject properties) = Ok k ->
  collectPoints (pointOfKeyFromString (VObject properties)) properties
    = Ok pts ->
  findConstantTermFromString (VObject properties) = selectAndEvaluate pts k.
Proof.
  intros Hk Hpts. unfold findConstantTermFromString. now rewrite Hk, Hpts.
Qed.

Lemma findConstantTermFromFile_unfold
  (properties : list (string * value)) (k : Z) (pts : list point) :
  readK (VObject properties) = Ok k ->
  collectPoints (pointOfKeyFromFile (VObject properties)) properties
    = Ok pts ->
  findConstantTermFromFile properties = selectAndEvaluate pts k.
Proof.
  intros Hk Hpts. unfold findConstantTermFromFile. now rewrite Hk, Hpts.
Qed.

End BuilderFacts.

(** C3.  When two of the selected points, the first [k] after the sort by
    [x], have the same [x], both builders fail with [DuplicateX], at the scan
    of adjacent pairs; and the evaluator, called on its own on points two of
    whose first [k] have the same [x], fails with [DuplicateX] too. *)
Theorem duplicate_x_is_rejected :
  (forall (NM : NumberModel) (properties : list (string * value))
          (k : Z) (pts : list point),
      readK (VObject properties) = Ok k ->
      collectPoints (pointOfKeyFromString (VObject properties)) properties
        = Ok pts ->
      k <= Z.of_nat (List.length pts) ->
      hasDuplicateX (firstn (Z.to_nat k) (sortByX pts)) ->
      adjacentScan (firstn (Z.to_nat k) (sortByX pts)) = Error DuplicateX /\
      findConstantTermFromString (VObject properties) = Error DuplicateX) /\
  (forall (NM : NumberModel) (properties : list (string * value))
          (k : Z) (pts : list point),
      readK (VObject properties) = Ok k ->
      collectPoints (pointOfKeyFromFile (VObject properties)) properties
        = Ok pts ->
      k <= Z.of_nat (List.length pts) ->
      hasDuplicateX (firstn (Z.to_nat k) (sortByX pts)) ->
      adjacentScan (firstn (Z.to_nat k) (sortByX pts)) = Error DuplicateX /\
      findConstantTermFromFile properties = Error DuplicateX) /\
  (forall (pts : list point) (k : nat),
      (0 < k <= List.length pts)%nat ->
      hasDuplicateX (firstn k pts) ->
      computeConstantTermFromSelected pts (IntegerValue (Z.of_nat k))
        = Error DuplicateX).
Proof.
  split; [|split].
  - intros NM properties k pts Hk Hpts Hlen Hdup.
    rewrite (findConstantTermFromString_unfold properties k pts Hk Hpts).
    now apply selectAndEvaluate_duplicate.
  - intros NM properties k pts Hk Hpts Hlen Hdup.
    rewrite (findConstantTermFromFile_unfold properties k pts Hk Hpts).
    now apply selectAndEvaluate_duplicate.
  - exact evaluator_duplicate.
Qed.

(** ** The order of the entries *)

Lemma filter_perm {A : Type} (f : A -> bool) (l l' : list A) :
  Permutation l l' -> Permutation (filter f l) (filter f l').
Proof.
  induction 1 as [|a l l' _ IH|a b l|l l' l'' _ IH1 _ IH2]; simpl.
  - reflexivity.
  - destruct (f a); [now apply perm_skip|assumption].
  - destruct (f a), (f b); try reflexivity. apply perm_swap.
  - now transitivity (filter f l').
Qed.

Lemma sorted_app_le (l1 l2 : list point) :
  StronglySorted leX (l1 ++ l2) ->
  forall p q, In p l1 -> In q l2 -> x p <= x q.
Proof.
  induction l1 as [|a l1 IH]; intros Hs p q Hp Hq; [contradiction|].
  simpl in Hs. inversion Hs as [|? ? Hs' Ha]; subst.
  destruct Hp as [->|Hp].
  - apply (proj1 (Forall_forall _ _) Ha). apply in_or_app. now right.
  - now apply (IH Hs').
Qed.

(** A list sorted by [x] that is a permutation of [l1 ++ l2], where the [x]
    of [l1] strictly increase and stay below those of [l2], starts with
    [l1]. *)
Lemma sorted_prefix_unique (l1 l2 : list point) :
  StronglySorted ltX l1 ->
  (forall p q, In p l1 -> In q l2 -> x p < x q) ->
  forall s, StronglySorted leX s -> Permutation s (l1 ++ l2) ->
            firstn (List.length l1) s = l1.
Proof.
  induction 1 as [|a l1 Hs IH Ha]; intros Hsep s Hsorted Hperm;
    [reflexivity|].
  destruct s as [|h t].
  { apply Permutation_nil in Hperm. discriminate. }
  assert (Hh : h = a).
  { assert (Hin : In a (h :: t))
      by (apply (Permutation_in _ (Permutation_sym Hperm)); now left).
    destruct Hin as [|Hin]; [assumption|].
    assert (Hle : x h <= x a).
    { inversion Hsorted as [|? ? _ Hall]; subst.
      exact (proj1 (Forall_forall _ _) Hall a Hin). }
    assert (Hh : In h ((a :: l1) ++ l2))
      by (apply (Permutation_in _ Hperm); now left).
    destruct Hh as [|Hh]; [now symmetry|].
    apply in_app_or in Hh as [Hh|Hh].
    - pose proof (proj1 (Forall_forall _ _) Ha h Hh) as Hlt.
      unfold ltX in Hlt. lia.
    - pose proof (Hsep a h (or_introl eq_refl) Hh). lia. }
  subst h. simpl. f_equal. apply IH.
  - intros p q Hp Hq. apply Hsep; [now right|assumption].
  - now inversion Hsorted.
  - simpl in Hperm. now apply Permutation_cons_inv in Hperm.
Qed.

Lemma selectAndEvaluate_perm (pts pts' : list point) (k : Z) (r : fraction) :
  Permutation pts pts' -> separated k pts ->
  selectAndEvaluate pts k = Ok r ->
  firstn (Z.to_nat k) (sortByX pts') = firstn (Z.to_nat k) (sortByX pts) /\
  selectAndEvaluate pts' k = Ok r.
Proof.
  intros Hperm Hsep Hok. unfold selectAndEvaluate in *.
  rewrite <- (Permutation_length Hperm).
  destruct (Z.ltb_spec (Z.of_nat (List.length pts)) k) as [|Hk];
    [discriminate|].
  set (n := Z.to_nat k) in *.
  assert (Hscan : adjacentScan (firstn n (sortByX pts)) = Ok tt).
  { destruct (adjacentScan_cases (firstn n (sortByX pts))) as [E|E];
      [assumption|]. rewrite E in Hok. discriminate. }
  assert (E : firstn n (sortByX pts') = firstn n (sortByX pts)).
  { assert (Hlen : List.length (firstn n (sortByX pts)) = n).
    { rewrite length_firstn, <- (Permutation_length (sortByX_perm pts)).
      unfold n. lia. }
    rewrite <- Hlen at 1.
    apply (sorted_prefix_unique _ (skipn n (sortByX pts))).
    - apply adjacentScan_strict; [|assumption].
      apply firstn_sorted, sortByX_sorted.
    - intros p q Hp Hq.
      assert (x p <= x q).
      { apply (sorted_app_le (firstn n (sortByX pts)) (skipn n (sortByX pts)));
          try assumption.
        rewrite firstn_skipn. apply sortByX_sorted. }
      pose proof (Hsep p q Hp Hq). lia.
    - apply sortByX_sorted.
    - rewrite firstn_skipn, <- (sortByX_perm pts), <- (sortByX_perm pts').
      now symmetry. }
  split; [assumption|]. now rewrite E.
Qed.

Section Reordering.
Context {NM : NumberModel}.

Lemma lookup_perm (name : string) (l l' : list (string * value)) :
  Permutation l l' -> NoDup (map fst l) -> lookup name l = lookup name l'.
Proof.
  induction 1 as [|[key v] l l' _ IH|[key1 v1] [key2 v2] l|l l' l'' H1 IH1 _ IH2];
    intros Hnd; simpl.
  - reflexivity.
  - simpl in Hnd. inversion Hnd; subst. now rewrite IH.
  - simpl in Hnd. inversion Hnd as [|? ? Hnotin _]; subst.
    destruct (String.eqb_spec name key2) as [->|]; [|reflexivity].
    destruct (String.eqb_spec key2 key1) as [->|]; [|reflexivity].
    exfalso. apply Hnotin. now left.
  - rewrite IH1 by assumption. apply IH2.
    apply (Permutation_NoDup (Permutation_map fst H1)). assumption.
Qed.

Lemma collectPoints_perm (f f' : string -> outcome point)
  (l l' : list (string * value)) (pts : list point) :
  Permutation l l' -> (forall key, f key = f' key) ->
  collectPoints f l = Ok pts ->
  exists pts', collectPoints f' l' = Ok pts' /\ Permutation pts pts'.
Proof.
  intros Hperm Hext. rewrite !collectPoints_mapM.
  rewrite (mapM_ext f f') by (intros; apply Hext).
  apply mapM_perm. apply filter_perm. now apply Permutation_map.
Qed.

End Reordering.

Example tieRecord_result :
  findConstantTermFromString (VObject tieRecord) = Ok (3, 1).
Proof. vm_compute. reflexivity. Qed.

Example tieRecordReordered_result :
  findConstantTermFromString (VObject tieRecordReordered) = Ok (1, 1).
Proof. vm_compute. reflexivity. Qed.

Example numericRecord_string :
  findConstantTermFromString (VObject numericRecord) = Ok (5, 1).
Proof. vm_compute. reflexivity. Qed.

Example numericRecord_file :
  findConstantTermFromFile numericRecord = Error InvalidPointEntry.
Proof. vm_compute. reflexivity. Qed.

Example lineRecord_result :
  findConstantTermFromString (VObject lineRecord) = Ok (3, 1).
Proof. vm_compute. reflexivity. Qed.

(** C4, as stated, fails when a point left out of the selection has the [x]
    of a selected one: the keys "02" and "002" both denote 2, the sort keeps
    them in the order of the record, and the selection takes the one that
    comes first.  [tieRecord] gives 3 and [tieRecordReordered] gives 1. *)
Lemma order_matters_on_ties : ~ statedOrderIndependence.
Proof.
  intros H.
  specialize (H IntegerRecords tieRecord tieRecordReordered (3, 1)).
  rewrite tieRecordReordered_result in H.
  assert (E : @Ok fraction (1, 1) = Ok (3, 1)); [|discriminate E].
  apply H.
  - unfold tieRecord, tieRecordReordered. do 2 apply perm_skip. apply perm_swap.
  - simpl. repeat constructor; simpl; intuition discriminate.
  - exact tieRecord_result.
Qed.

Section OrderIndependence.
Context {NM : NumberModel}.

Lemma readK_perm (l l' : list (string * value)) :
  Permutation l l' -> NoDup (map fst l) ->
  readK (VObject l) = readK (VObject l').
Proof.
  intros Hp Hnd. unfold readK, get. now rewrite (lookup_perm "keys" l l').
Qed.

Lemma pointOfKeyFromString_perm (l l' : list (string * value)) (key : string) :
  Permutation l l' -> NoDup (map fst l) ->
  pointOfKeyFromString (VObject l) key = pointOfKeyFromString (VObject l') key.
Proof.
  intros Hp Hnd. unfold pointOfKeyFromString, get.
  now rewrite (lookup_perm key l l').
Qed.

Lemma pointOfKeyFromFile_perm (l l' : list (string * value)) (key : string) :
  Permutation l l' -> NoDup (map fst l) ->
  pointOfKeyFromFile (VObject l) key = pointOfKeyFromFile (VObject l') key.
Proof.
  intros Hp Hnd. unfold pointOfKeyFromFile, get.
  now rewrite (lookup_perm key l l').
Qed.

End OrderIndependence.

(** C4, amended.  Take a record on which the computation succeeds and in
    which no point left out of the selection has the [x] of a selected
    point.  However its entries are reordered, both builders collect the same
    points up to their order, select the same [k] points in the same order,
    and return the same result. *)
Theorem selection_is_order_independent :
  (forall (NM : NumberModel) (properties properties' : list (string * value))
          (k : Z) (pts : list point) (r : fraction),
      Permutation properties properties' -> NoDup (map fst properties) ->
      readK (VObject properties) = Ok k ->
      collectPoints (pointOfKeyFromString (VObject properties)) properties
        = Ok pts ->
      separated k pts ->
      findConstantTermFromString (VObject properties) = Ok r ->
      exists pts',
        collectPoints (pointOfKeyFromString (VObject properties')) properties'
          = Ok pts' /\
        Permutation pts pts' /\
        firstn (Z.to_nat k) (sortByX pts') = firstn (Z.to_nat k) (sortByX pts) /\
        findConstantTermFromString (VObject properties') = Ok r) /\
  (forall (NM : NumberModel) (properties properties' : list (string * value))
          (k : Z) (pts : list point) (r : fraction),
      Permutation properties properties' -> NoDup (map fst properties) ->
      readK (VObject properties) = Ok k ->
      collectPoints (pointOfKeyFromFile (VObject properties)) properties
        = Ok pts ->
      separated k pts ->
      findConstantTermFromFile properties = Ok r ->
      exists pts',
        collectPoints (pointOfKeyFromFile (VObject properties')) properties'
          = Ok pts' /\
        Permutation pts pts' /\
        firstn (Z.to_nat k) (sortByX pts') = firstn (Z.to_nat k) (sortByX pts) /\
        findConstantTermFromFile properties' = Ok r).
Proof.
  split; intros NM properties properties' k pts r Hperm Hnd Hk Hpts Hsep Hok.
  - destruct (collectPoints_perm
                (pointOfKeyFromString (VObject properties))
                (pointOfKeyFromString (VObject properties'))
                properties properties' pts Hperm) as (pts' & Hpts' & Hpp);
      [intros key; now apply pointOfKeyFromString_perm|assumption|].
    rewrite (findConstantTermFromString_unfold properties k pts Hk Hpts) in Hok.
    destruct (selectAndEvaluate_perm pts pts' k r Hpp Hsep Hok) as (Hsel & Hr).
    exists pts'. repeat split; try assumption.
    rewrite (readK_perm properties properties') in Hk by assumption.
    now rewrite (findConstantTermFromString_unfold properties' k pts' Hk Hpts').
  - destruct (collectPoints_perm
                (pointOfKeyFromFile (VObject properties))
                (pointOfKeyFromFile (VObject properties'))
                properties properties' pts Hperm) as (pts' & Hpts' & Hpp);
      [intros key; now apply pointOfKeyFromFile_perm|assumption|].
    rewrite (findConstantTermFromFile_unfold properties k pts Hk Hpts) in Hok.
    destruct (selectAndEvaluate_perm pts pts' k r Hpp Hsep Hok) as (Hsel & Hr).
    exists pts'. repeat split; try assumption.
    rewrite (readK_perm properties properties') in Hk by assumption.
    now rewrite (findConstantTermFromFile_unfold properties' k pts' Hk Hpts').
Qed.

Lemma selection_is_order_independent_witness :
  (exists pts',
      collectPoints (pointOfKeyFromString (VObject mixedRecordReordered))
        mixedRecordReordered = Ok pts' /\
      Permutation [mkPoint 1 5; mkPoint 3 9; mkPoint 2 7] pts' /\
      firstn 2 (sortByX pts') = [mkPoint 1 5; mkPoint 2 7] /\
      findConstantTermFromString (VObject mixedRecordReordered) = Ok (3, 1)) /\
  (exists pts',
      collectPoints (pointOfKeyFromFile (VObject mixedRecordReordered))
        mixedRecordReordered = Ok pts' /\
      Permutation [mkPoint 1 5; mkPoint 3 9; mkPoint 2 7] pts' /\
      firstn 2 (sortByX pts') = [mkPoint 1 5; mkPoint 2 7] /\
      findConstantTermFromFile mixedRecordReordered = Ok (3, 1)).
Proof.
  assert (Hperm : Permutation mixedRecord mixedRecordReordered)
    by (unfold mixedRecord, mixedRecordReordered; do 2 apply perm_skip;
        apply perm_swap).
  assert (Hnd : NoDup (map fst mixedRecord))
    by (simpl; repeat constructor; simpl; intuition discriminate).
  assert (Hsep : separated 2 [mkPoint 1 5; mkPoint 3 9; mkPoint 2 7]).
  { intros p q Hp Hq. simpl in Hp, Hq.
    destruct Hq as [<-|[]]. destruct Hp as [<-|[<-|[]]]; discriminate. }
  split.
  - apply (proj1 selection_is_order_independent IntegerRecords
             mixedRecord mixedRecordReordered 2
             [mkPoint 1 5; mkPoint 3 9; mkPoint 2 7] (3, 1));
      try assumption; vm_compute; reflexivity.
  - apply (proj2 selection_is_order_independent IntegerRecords
             mixedRecord mixedRecordReordered 2
             [mkPoint 1 5; mkPoint 3 9; mkPoint 2 7] (3, 1));
      try assumption; vm_compute; reflexivity.
Defined.

Lemma duplicate_x_is_rejected_witness :
  findConstantTermFromString (VObject duplicateRecord) = Error DuplicateX /\
  findConstantTermFromFile duplicateRecord = Error DuplicateX /\
  computeConstantTermFromSelected
    [mkPoint 1 5; mkPoint 2 6; mkPoint 1 7] (IntegerValue (Z.of_nat 3))
    = Error DuplicateX.
Proof.
  assert (Hdup : hasDuplicateX
                   (firstn (Z.to_nat 2) (sortByX [mkPoint 1 5; mkPoint 1 7]))).
  { exists 0%nat, 1%nat. split; [simpl; lia|reflexivity]. }
  destruct duplicate_x_is_rejected as (HS & HF & HE).
  split; [|split].
  - apply (HS IntegerRecords duplicateRecord 2 [mkPoint 1 5; mkPoint 1 7]);
      [reflexivity|reflexivity|simpl; lia|exact Hdup].
  - apply (HF IntegerRecords duplicateRecord 2 [mkPoint 1 5; mkPoint 1 7]);
      [reflexivity|reflexivity|simpl; lia|exact Hdup].
  - apply (HE [mkPoint 1 5; mkPoint 2 6; mkPoint 1 7] 3%nat); [simpl; lia|].
    exists 0%nat, 2%nat. split; [simpl; lia|reflexivity].
Defined.

(** ** The representation of a value *)

(** The loop over the keys fails with the error of the first key whose body
    fails. *)
Lemma collectPoints_first_error {NM : NumberModel}
  (f : string -> outcome point) (properties : list (string * value))
  (before after : list string) (key : string) (e : error) :
  map fst properties = before ++ key :: after ->
  (forall key', In key' before ->
                key' = "keys" \/ exists p, f key' = Ok p) ->
  key <> "keys" -> f key = Error e ->
  collectPoints f properties = Error e.
Proof.
  intros Hkeys Hbefore Hkey He. rewrite collectPoints_mapM, Hkeys.
  clear Hkeys. induction before as [|key' before IH]; simpl.
  - unfold isPointKey. destruct (String.eqb_spec key "keys"); [contradiction|].
    simpl. now rewrite He.
  - unfold isPointKey at 1.
    destruct (Hbefore key' (or_introl eq_refl)) as [->|(p & Hp)].
    + simpl. apply IH. intros k' Hk'. apply Hbefore. now right.
    + destruct (String.eqb key' "keys"); simpl.
      * apply IH. intros k' Hk'. apply Hbefore. now right.
      * rewrite Hp. simpl. rewrite IH; [reflexivity|].
        intros k' Hk'. apply Hbefore. now right.
Qed.

(** C5, as stated, fails for the builder of robust_constant.js, which takes
    a value only as a string: the entry [{"base":10,"value":5}] is an invalid
    point entry for it. *)
Lemma file_builder_rejects_numbers : ~ statedNumericValueInFile.
Proof.
  intros H.
  specialize (H IntegerRecords (VObject numericRecord) "1" (IntegerValue 5)).
  assert (E : pointOfKeyFromFile (VObject numericRecord) "1"
              = Ok (mkPoint 1 5)); [|discriminate E].
  rewrite H; try reflexivity. discriminate.
Qed.

(** C5, amended.  An entry must be an object with a [base] field, or the
    builders fail with [InvalidPointEntry].  The builder of a JSON string
    then takes the value as a string, or as a number or a boolean turned
    into its string, and parses that string in the base; a value of another
    kind, or none, makes it fail with [InvalidValueType].  The builder of a
    file takes the value as a string only, and fails with
    [InvalidPointEntry] on anything else.  A failing entry that no failing
    entry precedes makes the whole computation fail with its error. *)
Theorem value_representations (NM : NumberModel) (data : value)
  (rawKey : string) :
  isIntegerKey rawKey = true ->
  let entry := get data rawKey in
  let base := parseInt10 (ToString (get entry "base")) in
  let pointOf (valueStr : string) : outcome point :=
    y <- parseBigIntFromString valueStr base ;;
    Ok (mkPoint (BigInt_ofKey rawKey) y) in
  (truthy entry = false \/ get entry "base" = VUndefined ->
   pointOfKeyFromString data rawKey = Error InvalidPointEntry /\
   pointOfKeyFromFile data rawKey = Error InvalidPointEntry) /\
  (truthy entry = true -> get entry "base" <> VUndefined ->
   match get entry "value" with
   | VString s =>
       pointOfKeyFromString data rawKey = pointOf s /\
       pointOfKeyFromFile data rawKey = pointOf s
   | VNumber n =>
       pointOfKeyFromString data rawKey = pointOf (Number_toString n) /\
       pointOfKeyFromFile data rawKey = Error InvalidPointEntry
   | VBool b =>
       pointOfKeyFromString data rawKey
         = pointOf (if b then "true" else "false") /\
       pointOfKeyFromFile data rawKey = Error InvalidPointEntry
   | VUndefined | VNull | VArray _ | VObject _ =>
       pointOfKeyFromString data rawKey = Error InvalidValueType /\
       pointOfKeyFromFile data rawKey = Error InvalidPointEntry
   end) /\
  (forall (properties : list (string * value)) (k : Z)
          (before after : list string) (e : error),
      data = VObject properties -> readK data = Ok k ->
      map fst properties = before ++ rawKey :: after -> rawKey <> "keys" ->
      ((forall key', In key' before ->
          key' = "keys" \/ exists p, pointOfKeyFromString data key' = Ok p) ->
       pointOfKeyFromString data rawKey = Error e ->
       findConstantTermFromString data = Error e) /\
      ((forall key', In key' before ->
          key' = "keys" \/ exists p, pointOfKeyFromFile data key' = Ok p) ->
       pointOfKeyFromFile data rawKey = Error e ->
       findConstantTermFromFile properties = Error e)).
Proof.
  intros Hkey entry base pointOf. split; [|split].
  - unfold pointOfKeyFromString, pointOfKeyFromFile.
    rewrite Hkey. cbn [negb]. fold entry. intros [Ht|Hb].
    + rewrite Ht. split; reflexivity.
    + rewrite Hb. cbn [isUndefined]. rewrite !orb_true_r. split; reflexivity.
  - unfold pointOfKeyFromString, pointOfKeyFromFile.
    rewrite Hkey. cbn [negb]. fold entry. intros Ht Hb.
    rewrite Ht. cbn [negb orb].
    assert (Hu : isUndefined (get entry "base") = false)
      by (destruct (get entry "base"); try reflexivity; contradiction).
    rewrite Hu.
    destruct (get entry "value"); cbn [isString negb orb bind stringOf ToString];
      split; reflexivity.
  - intros properties k before after e -> Hk Hkeys Hne. split.
    + intros Hbefore He. unfold findConstantTermFromString.
      rewrite Hk. cbn [bind].
      rewrite (collectPoints_first_error _ properties before after rawKey e);
        try assumption; reflexivity.
    + intros Hbefore He. unfold findConstantTermFromFile.
      rewrite Hk. cbn [bind].
      rewrite (collectPoints_first_error _ properties before after rawKey e);
        try assumption; reflexivity.
Qed.

Lemma value_representations_witness :
  pointOfKeyFromString (VObject numericRecord) "1" = Ok (mkPoint 1 5) /\
  pointOfKeyFromFile (VObject numericRecord) "1" = Error InvalidPointEntry.
Proof.
  destruct (value_representations IntegerRecords (VObject numericRecord) "1"
              eq_refl) as (_ & H & _).
  specialize (H eq_refl ltac:(discriminate)). exact H.
Defined.

(** ** Output formatting *)

Lemma parse_signed_digits (b : Z) (sgn ds : string) :
  validBase b -> sgn = "" \/ sgn = "+" \/ sgn = "-" ->
  ds <> "" -> allChars (validDigit b) ds = true ->
  parseBigIntFromString (sgn ++ ds)%string (IntegerValue b)
    = Ok (signValue sgn * accumulate b ds 0).
Proof.
  intros Hb Hsgn Hne Hds.
  rewrite parse_shape by (try assumption; now apply valid_digitOrSeparator).
  rewrite (removeSeparators_valid b) by assumption.
  destruct ds as [|c ds]; [contradiction|].
  now rewrite digitLoop_spec, Hds.
Qed.

Lemma string_of_uint_valid (d : Decimal.uint) :
  allChars (validDigit 10) (DecimalString.NilEmpty.string_of_uint d) = true.
Proof. induction d; simpl; try reflexivity; assumption. Qed.

Lemma accumulate_uint_acc (d : Decimal.uint) (acc : positive) :
  accumulate 10 (DecimalString.NilEmpty.string_of_uint d) (Z.pos acc)
  = Z.pos (Pos.of_uint_acc d acc).
Proof.
  revert acc. induction d; intros acc; cbn [DecimalString.NilEmpty.string_of_uint
    accumulate Pos.of_uint_acc]; [reflexivity|..];
    rewrite <- IHd; f_equal;
    match goal with
    | |- context [valueOfDigit ?c] =>
        let v := eval vm_compute in (valueOfDigit c) in
        change (valueOfDigit c) with v
    end; lia.
Qed.

Lemma accumulate_uint (d : Decimal.uint) :
  accumulate 10 (DecimalString.NilEmpty.string_of_uint d) 0
  = Z.of_N (Pos.of_uint d).
Proof.
  induction d; cbn [DecimalString.NilEmpty.string_of_uint accumulate Pos.of_uint];
    [reflexivity|exact IHd|..];
    match goal with
    | |- accumulate 10 _ ?a = _ =>
        let v := eval vm_compute in a in change a with v
    end; rewrite accumulate_uint_acc; reflexivity.
Qed.

(** The decimal numeral of a BigInt is read back by the parser in base 10. *)
Lemma BigInt_toString_parse (n : Z) :
  parseBigIntFromString (BigInt_toString n) (IntegerValue 10) = Ok n.
Proof.
  assert (Hb : validBase 10) by (unfold validBase; lia).
  assert (Hstr : forall p,
             DecimalString.NilZero.string_of_uint (Pos.to_uint p)
             = DecimalString.NilEmpty.string_of_uint (Pos.to_uint p)).
  { intros p. pose proof (DecimalPos.Unsigned.to_uint_nonnil p).
    destruct (Pos.to_uint p); [contradiction|reflexivity..]. }
  assert (Hne : forall p,
             DecimalString.NilEmpty.string_of_uint (Pos.to_uint p) <> "").
  { intros p. pose proof (DecimalPos.Unsigned.to_uint_nonnil p).
    destruct (Pos.to_uint p); [contradiction|discriminate..]. }
  unfold BigInt_toString. destruct n as [|p|p]; [reflexivity| |].
  - cbn [Z.to_int DecimalString.NilZero.string_of_int]. rewrite Hstr.
    change (DecimalString.NilEmpty.string_of_uint (Pos.to_uint p))
      with ("" ++ DecimalString.NilEmpty.string_of_uint (Pos.to_uint p))%string.
    rewrite parse_signed_digits;
      [|assumption|now left|apply Hne|apply string_of_uint_valid].
    rewrite accumulate_uint, DecimalPos.Unsigned.of_to. reflexivity.
  - cbn [Z.to_int DecimalString.NilZero.string_of_int]. rewrite Hstr.
    change (String "-" (DecimalString.NilEmpty.string_of_uint (Pos.to_uint p)))
      with ("-" ++ DecimalString.NilEmpty.string_of_uint (Pos.to_uint p))%string.
    rewrite parse_signed_digits;
      [|assumption|now right; right|apply Hne|apply string_of_uint_valid].
    rewrite accumulate_uint, DecimalPos.Unsigned.of_to. reflexivity.
Qed.

(** A fraction the evaluator returns is in lowest terms, its denominator
    positive. *)
Lemma evaluator_result_reduced (pts : list point) (k : jsnumber) (n d : Z) :
  computeConstantTermFromSelected pts k = Ok (n, d) ->
  0 < d /\ Z.gcd n d = 1.
Proof.
  unfold computeConstantTermFromSelected. destruct k as [k|]; [|discriminate].
  destruct (k <=? 0); [discriminate|].
  destruct (Z.of_nat (List.length pts) <? k); [discriminate|].
  destruct (foldM _ _ _) as [[tn td]|]; [|discriminate]. cbn [bind].
  destruct (Z.eqb_spec td 0) as [|Htd]; [discriminate|].
  destruct (reduceFraction_spec tn td Htd) as (n' & d' & E & Hd & Hg & _).
  rewrite E. intros H. injection H as <- <-. now split.
Qed.

Lemma selectAndEvaluate_result_reduced (pts : list point) (k n d : Z) :
  selectAndEvaluate pts k = Ok (n, d) -> 0 < d /\ Z.gcd n d = 1.
Proof.
  unfold selectAndEvaluate.
  destruct (Z.of_nat (List.length pts) <? k); [discriminate|].
  destruct (adjacentScan _); [|discriminate]. cbn [bind].
  apply evaluator_result_reduced.
Qed.

Lemma findConstantTermFromString_result_reduced {NM : NumberModel}
  (parsed : value) (n d : Z) :
  findConstantTermFromString parsed = Ok (n, d) -> 0 < d /\ Z.gcd n d = 1.
Proof.
  unfold findConstantTermFromString. destruct parsed; try discriminate.
  destruct (readK _); [|discriminate]. cbn [bind].
  destruct (collectPoints _ _); [|discriminate]. cbn [bind].
  apply selectAndEvaluate_result_reduced.
Qed.

Lemma findConstantTermFromFile_result_reduced {NM : NumberModel}
  (properties : list (string * value)) (n d : Z) :
  findConstantTermFromFile properties = Ok (n, d) -> 0 < d /\ Z.gcd n d = 1.
Proof.
  unfold findConstantTermFromFile.
  destruct (readK _); [|discriminate]. cbn [bind].
  destruct (collectPoints _ _); [|discriminate]. cbn [bind].
  apply selectAndEvaluate_result_reduced.
Qed.

(** C9.  For a record on which the computation succeeds, with the reduced
    fraction [num/den], the output is the decimal numeral of [num] when
    [den] is 1 and the numerals of [num] and [den] around a slash otherwise,
    [den] then being at least 2; the batch driver of robust_constant.js logs
    the same text after the file name.  The numerals are read back by the
    parser in base 10 as [num] and [den]. *)
Theorem output_format :
  (forall (NM : NumberModel) (parsed : value) (num den : Z),
      findConstantTermFromString parsed = Ok (num, den) ->
      processJsonStringOrFileContent parsed = Ok (renderedAs num den) /\
      (den = 1 \/ 2 <= den)) /\
  (forall (NM : NumberModel) (fname : string)
          (properties : list (string * value)) (num den : Z),
      findConstantTermFromFile properties = Ok (num, den) ->
      mainLine fname properties
        = Ok (fname ++ " => constant term (c) = " ++ renderedAs num den)%string /\
      (den = 1 \/ 2 <= den)) /\
  (forall n : Z,
      parseBigIntFromString (BigInt_toString n) (IntegerValue 10) = Ok n).
Proof.
  split; [|split].
  - intros NM parsed num den E. split.
    + unfold processJsonStringOrFileContent. rewrite E. reflexivity.
    + apply findConstantTermFromString_result_reduced in E. lia.
  - intros NM fname properties num den E. split.
    + unfold mainLine. rewrite E. cbn [bind]. unfold renderedAs.
      destruct (den =? 1); reflexivity.
    + apply findConstantTermFromFile_result_reduced in E. lia.
  - exact BigInt_toString_parse.
Qed.

Lemma output_format_witness :
  processJsonStringOrFileContent (VObject lineRecord) = Ok "3" /\
  processJsonStringOrFileContent (VObject halfRecord) = Ok "-1/2" /\
  mainLine "half.json" halfRecord
    = Ok "half.json => constant term (c) = -1/2".
Proof.
  destruct output_format as (HS & HF & _).
  split; [|split].
  - apply (HS IntegerRecords (VObject lineRecord) 3 1). vm_compute. reflexivity.
  - apply (HS IntegerRecords (VObject halfRecord) (-1) 2). vm_compute. reflexivity.
  - apply (HF IntegerRecords "half.json" halfRecord (-1) 2). vm_compute. reflexivity.
Defined.

(** * Further properties of the code *)

(** ** Fraction reduction as a normal form *)

(** X1. [bigIntGcd] returns the greatest common divisor of its arguments
    whatever their signs: it is not negative, divides both, and every common
    divisor divides it; with a zero argument it is the magnitude of the
    other one. *)
Theorem bigIntGcd_greatest (a b : Z) :
  0 <= bigIntGcd a b /\
  (bigIntGcd a b | a) /\ (bigIntGcd a b | b) /\
  (forall d, (d | a) -> (d | b) -> (d | bigIntGcd a b)) /\
  bigIntGcd a b = bigIntGcd b a /\
  bigIntGcd a 0 = Z.abs a.
Proof.
  rewrite !bigIntGcd_gcd. repeat split.
  - apply Z.gcd_nonneg.
  - apply Z.gcd_divide_l.
  - apply Z.gcd_divide_r.
  - intros d Ha Hb. now apply Z.gcd_greatest.
  - apply Z.gcd_comm.
  - apply Z.gcd_0_r.
Qed.

Lemma bigIntGcd_greatest_witness : (3 | bigIntGcd 12 18).
Proof.
  apply (proj1 (proj2 (proj2 (proj2 (bigIntGcd_greatest 12 18))))).
  - exists 4. reflexivity.
  - exists 6. reflexivity.
Defined.

(** Two reduced fractions with positive denominators that denote the same
    rational number are the same pair. *)
Lemma reduced_unique (n d n' d' : Z) :
  0 < d -> 0 < d' -> Z.gcd n d = 1 -> Z.gcd n' d' = 1 ->
  n * d' = n' * d -> n = n' /\ d = d'.
Proof.
  intros Hd Hd' Hg Hg' E.
  assert (Hdd : (d | d')).
  { apply (Z.gauss d n d'); [|now rewrite Z.gcd_comm].
    exists n'. lia. }
  assert (Hdd' : (d' | d)).
  { apply (Z.gauss d' n' d); [|now rewrite Z.gcd_comm].
    exists n. lia. }
  assert (d = d') by (apply Z.divide_antisym_nonneg; try assumption; lia).
  subst d'. split; [nia|reflexivity].
Qed.

(** X2. Reduction is a normal form for fractions: two fractions with non-zero
    denominators reduce to the same pair exactly when they denote the same
    rational number, that is, when their cross products agree. *)
Theorem reduceFraction_normal_form (a b c d : Z) :
  b <> 0 -> d <> 0 ->
  (reduceFraction a b = reduceFraction c d <-> a * d = c * b).
Proof.
  intros Hb Hd.
  destruct (reduceFraction_spec a b Hb) as (n & m & E & Hm & Hg & Hv).
  destruct (reduceFraction_spec c d Hd) as (n' & m' & E' & Hm' & Hg' & Hv').
  rewrite E, E'. split.
  - intros H. injection H as <- <-.
    assert (m * (a * d) = m * (c * b)) by nia.
    nia.
  - intros H.
    destruct (reduced_unique n m n' m') as [-> ->]; try assumption; [|reflexivity].
    assert (Hx : (n * m') * (b * d) = (n' * m) * (b * d)).
    { replace (n * m' * (b * d)) with ((n * b) * (m' * d)) by ring.
      replace (n' * m * (b * d)) with ((n' * d) * (m * b)) by ring.
      rewrite Hv, Hv'.
      replace (a * m * (m' * d)) with ((a * d) * (m * m')) by ring.
      rewrite H. ring. }
    apply Z.mul_cancel_r in Hx; [assumption|nia].
Qed.

Lemma reduceFraction_normal_form_witness :
  reduceFraction 6 (-4) = reduceFraction (-9) 6 <-> 6 * 6 = (-9) * (-4).
Proof.
  apply (reduceFraction_normal_form 6 (-4) (-9) 6); discriminate.
Defined.

(** X3. A fraction whose value is an integer reduces to that integer over 1;
    in particular zero reduces to 0/1. *)
Theorem reduceFraction_integer (n d : Z) :
  d <> 0 -> reduceFraction (n * d) d = Ok (n, 1).
Proof.
  intros Hd.
  destruct (reduceFraction_spec (n * d) d Hd) as (n' & d' & E & Hd' & Hg & Hv).
  rewrite E.
  assert (Hx : n' * 1 = n * d').
  { apply (Z.mul_cancel_r _ _ d Hd). rewrite <- Z.mul_assoc, Z.mul_1_l, Hv. ring. }
  destruct (reduced_unique n' d' n 1 Hd' Z.lt_0_1 Hg (Z.gcd_1_r n) Hx)
    as [-> ->].
  reflexivity.
Qed.

Lemma reduceFraction_integer_witness :
  reduceFraction (0 * (-7)) (-7) = Ok (0, 1).
Proof. apply (reduceFraction_integer 0 (-7)). discriminate. Defined.

(** ** More on the base-N parser *)

Lemma toLowerCase_classes (c : ascii) :
  isWhiteSpace (toLowerCase c) = isWhiteSpace c /\
  Ascii.eqb (toLowerCase c) "+" = Ascii.eqb c "+" /\
  Ascii.eqb (toLowerCase c) "-" = Ascii.eqb c "-" /\
  Ascii.eqb (toLowerCase c) "_" = Ascii.eqb c "_" /\
  toLowerCase (toLowerCase c) = toLowerCase c.
Proof. each_ascii c; repeat split; reflexivity. Qed.

Lemma sameCase_classes (c c' : ascii) :
  toLowerCase c = toLowerCase c' ->
  isWhiteSpace c = isWhiteSpace c' /\
  Ascii.eqb c "+" = Ascii.eqb c' "+" /\
  Ascii.eqb c "-" = Ascii.eqb c' "-" /\
  Ascii.eqb c "_" = Ascii.eqb c' "_" /\
  digitOf c = digitOf c'.
Proof.
  intros E.
  destruct (toLowerCase_classes c) as (W & P & M & U & _).
  destruct (toLowerCase_classes c') as (W' & P' & M' & U' & _).
  rewrite <- W, <- P, <- M, <- U, <- W', <- P', <- M', <- U', E.
  repeat split; try reflexivity. unfold digitOf. now rewrite E.
Qed.

Lemma sameUpToCase_cons (c c' : ascii) (r r' : string) :
  sameUpToCase (String c r) (String c' r') = true ->
  toLowerCase c = toLowerCase c' /\ sameUpToCase r r' = true.
Proof.
  simpl. intros H. apply andb_true_iff in H as [Hc Hr].
  apply Ascii.eqb_eq in Hc. now split.
Qed.

Lemma sameUpToCase_trimStart (s s' : string) :
  sameUpToCase s s' = true ->
  sameUpToCase (trimStart s) (trimStart s') = true.
Proof.
  revert s'. induction s as [|c r IH]; intros [|c' r'] H;
    try discriminate; [reflexivity|].
  pose proof H as H0. apply sameUpToCase_cons in H as [Hc Hr].
  destruct (sameCase_classes c c' Hc) as (W & _). simpl. rewrite <- W.
  destruct (isWhiteSpace c); [now apply IH|exact H0].
Qed.

Lemma sameUpToCase_trimEnd (s s' : string) :
  sameUpToCase s s' = true ->
  sameUpToCase (trimEnd s) (trimEnd s') = true.
Proof.
  revert s'. induction s as [|c r IH]; intros [|c' r'] H;
    try discriminate; [reflexivity|].
  apply sameUpToCase_cons in H as [Hc Hr].
  destruct (sameCase_classes c c' Hc) as (W & _). simpl. rewrite <- W.
  specialize (IH r' Hr).
  destruct (trimEnd r) as [|a t], (trimEnd r') as [|a' t']; try discriminate.
  - destruct (isWhiteSpace c); [reflexivity|]. simpl.
    now rewrite Hc, Ascii.eqb_refl.
  - simpl. rewrite Hc, Ascii.eqb_refl. exact IH.
Qed.

Lemma sameUpToCase_removeSeparators (s s' : string) :
  sameUpToCase s s' = true ->
  sameUpToCase (removeSeparators s) (removeSeparators s') = true.
Proof.
  revert s'. induction s as [|c r IH]; intros [|c' r'] H;
    try discriminate; [reflexivity|].
  apply sameUpToCase_cons in H as [Hc Hr].
  destruct (sameCase_classes c c' Hc) as (_ & _ & _ & U & _). simpl.
  rewrite <- U. destruct (Ascii.eqb c "_"); [now apply IH|].
  simpl. rewrite Hc, Ascii.eqb_refl. now apply IH.
Qed.

Lemma sameUpToCase_digitLoop (b : Z) (s s' : string) (acc : Z) :
  sameUpToCase s s' = true -> digitLoop b s acc = digitLoop b s' acc.
Proof.
  revert s' acc. induction s as [|c r IH]; intros [|c' r'] acc H;
    try discriminate; [reflexivity|].
  apply sameUpToCase_cons in H as [Hc Hr].
  destruct (sameCase_classes c c' Hc) as (_ & _ & _ & _ & D). simpl.
  rewrite <- D. destruct ((digitOf c =? -1) || (digitOf c >=? b));
    [reflexivity|now apply IH].
Qed.

(** X4. The case of the letters of a value does not matter: two strings
    that differ only in the case of their letters are parsed alike, to the
    same number or to the same failure, in every base. *)
Theorem parseBigIntFromString_ignores_case (s s' : string) (base : jsnumber) :
  sameUpToCase s s' = true ->
  parseBigIntFromString s base = parseBigIntFromString s' base.
Proof.
  intros H. unfold parseBigIntFromString.
  destruct base as [b|]; [|reflexivity].
  destruct ((b <? 2) || (b >? 36)); [reflexivity|].
  assert (Ht : sameUpToCase (trim s) (trim s') = true)
    by (unfold trim; now apply sameUpToCase_trimEnd, sameUpToCase_trimStart).
  destruct (trim s) as [|c r], (trim s') as [|c' r']; try discriminate;
    [reflexivity|].
  pose proof Ht as Ht0. apply sameUpToCase_cons in Ht as [Hc Hr].
  destruct (sameCase_classes c c' Hc) as (_ & P & M & _). rewrite <- P, <- M.
  destruct (Ascii.eqb c "+" || Ascii.eqb c "-").
  - destruct r as [|a t], r' as [|a' t']; try discriminate; [reflexivity|].
    cbn [bind].
    pose proof (sameUpToCase_removeSeparators _ _ Hr) as Hs.
    destruct (removeSeparators (String a t)) as [|x1 t1],
             (removeSeparators (String a' t')) as [|x2 t2];
      try discriminate; [reflexivity|].
    now rewrite (sameUpToCase_digitLoop b _ _ 0 Hs).
  - cbn [bind].
    pose proof (sameUpToCase_removeSeparators _ _ Ht0) as Hs.
    destruct (removeSeparators (String c r)) as [|x1 t1],
             (removeSeparators (String c' r')) as [|x2 t2];
      try discriminate; [reflexivity|].
    now rewrite (sameUpToCase_digitLoop b _ _ 0 Hs).
Qed.

Lemma parseBigIntFromString_ignores_case_witness :
  parseBigIntFromString " -Ff_0Z " (IntegerValue 36)
  = parseBigIntFromString " -fF_0z " (IntegerValue 36).
Proof.
  apply (parseBigIntFromString_ignores_case " -Ff_0Z " " -fF_0z "). reflexivity.
Defined.

(** X5. Zeros in front of the digits do not change the value: when a sign
    and a run of digits and separators is accepted, so is the same string
    with a zero put in after the sign, with the same value. *)
Theorem parseBigIntFromString_leading_zero (b v : Z) (sgn body : string) :
  sgn = "" \/ sgn = "+" \/ sgn = "-" ->
  allChars (digitOrSeparator b) body = true ->
  parseBigIntFromString (sgn ++ body)%string (IntegerValue b) = Ok v ->
  parseBigIntFromString (sgn ++ String "0" body)%string (IntegerValue b) = Ok v.
Proof.
  intros Hsgn Hbody Hacc.
  destruct (accepted_shape _ _ _ Hacc) as (Hb & _).
  assert (Hz : validDigit b "0" = true).
  { change (validDigit b "0") with (0 <? b). apply Z.ltb_lt.
    unfold validBase in Hb. lia. }
  rewrite parse_shape in Hacc by assumption.
  rewrite parse_shape; try assumption.
  - cbn [removeSeparators]. change (Ascii.eqb "0" "_") with false. cbv iota.
    destruct (removeSeparators body) as [|c r] eqn:E; [discriminate|].
    rewrite <- Hacc. cbn [digitLoop]. rewrite digit_check, Hz.
    cbn [negb]. destruct (validDigit_facts b "0" Hz) as (_ & _ & _ & E0 & _).
    rewrite E0. reflexivity.
  - cbn [allChars]. unfold digitOrSeparator at 1. now rewrite Hz.
Qed.

Lemma parseBigIntFromString_leading_zero_witness :
  parseBigIntFromString "-007" (IntegerValue 8) = Ok (-7).
Proof.
  apply (parseBigIntFromString_leading_zero 8 (-7) "-" "07").
  - right; right; reflexivity.
  - reflexivity.
  - reflexivity.
Defined.

(** ** Decimal numerals as keys and as bases *)

Lemma decimalDigit_value (c : ascii) :
  isDecimalDigit c = true ->
  Z.of_nat (nat_of_ascii c) - 48 = valueOfDigit c /\
  isWhiteSpace c = false /\ Ascii.eqb c "-" = false /\ Ascii.eqb c "+" = false.
Proof. each_ascii c; intros H; try discriminate H; repeat split. Qed.

Lemma decimalValue_accumulate (s : string) (acc : Z) :
  allDecimalDigits s = true -> decimalValue s acc = accumulate 10 s acc.
Proof.
  revert acc. induction s as [|c s IH]; intros acc H; simpl; [reflexivity|].
  simpl in H. apply andb_true_iff in H as [Hc Hs].
  destruct (decimalDigit_value c Hc) as (-> & _). now apply IH.
Qed.

Lemma leadingDigits_prefix (s rest : string) (acc : Z) (seen : bool) :
  allDecimalDigits s = true -> noDigitAhead rest = true ->
  s <> "" \/ seen = true ->
  leadingDigits (s ++ rest) acc seen = Some (decimalValue s acc).
Proof.
  revert acc seen. induction s as [|c s IH]; intros acc seen Hs Hrest Hne.
  - destruct Hne as [Hne| ->]; [contradiction|]. simpl.
    destruct rest as [|c r]; [reflexivity|]. simpl in *.
    now destruct (isDecimalDigit c).
  - simpl in *. apply andb_true_iff in Hs as [Hc Hs]. rewrite Hc.
    apply IH; auto.
Qed.

Lemma string_of_uint_decimal (d : Decimal.uint) :
  allDecimalDigits (DecimalString.NilEmpty.string_of_uint d) = true.
Proof. induction d; simpl; try reflexivity; assumption. Qed.

(** The decimal numeral of a BigInt: an optional minus sign and a non-empty
    run of decimal digits whose value is the magnitude. *)
Lemma BigInt_toString_shape (n : Z) :
  exists digits,
    BigInt_toString n = ((if Z.ltb n 0 then "-" else "") ++ digits)%string /\
    digits <> "" /\ allDecimalDigits digits = true /\
    decimalValue digits 0 = Z.abs n.
Proof.
  assert (Hstr : forall p,
             DecimalString.NilZero.string_of_uint (Pos.to_uint p)
             = DecimalString.NilEmpty.string_of_uint (Pos.to_uint p)).
  { intros p. pose proof (DecimalPos.Unsigned.to_uint_nonnil p).
    destruct (Pos.to_uint p); [contradiction|reflexivity..]. }
  assert (Hne : forall p,
             DecimalString.NilEmpty.string_of_uint (Pos.to_uint p) <> "").
  { intros p. pose proof (DecimalPos.Unsigned.to_uint_nonnil p).
    destruct (Pos.to_uint p); [contradiction|discriminate..]. }
  assert (Hval : forall p,
             decimalValue
               (DecimalString.NilEmpty.string_of_uint (Pos.to_uint p)) 0
             = Z.pos p).
  { intros p. rewrite decimalValue_accumulate by apply string_of_uint_decimal.
    now rewrite accumulate_uint, DecimalPos.Unsigned.of_to. }
  unfold BigInt_toString. destruct n as [|p|p].
  - exists "0". repeat split. discriminate.
  - exists (DecimalString.NilEmpty.string_of_uint (Pos.to_uint p)).
    cbn [Z.to_int DecimalString.NilZero.string_of_int]. rewrite Hstr.
    repeat split; [apply Hne|apply string_of_uint_decimal|apply Hval].
  - exists (DecimalString.NilEmpty.string_of_uint (Pos.to_uint p)).
    cbn [Z.to_int DecimalString.NilZero.string_of_int]. rewrite Hstr.
    repeat split; [apply Hne|apply string_of_uint_decimal|apply Hval].
Qed.

(** X6. Every integer can be the [x] of a point: its decimal numeral passes
    the test of the keys and is converted back to the integer. *)
Theorem integer_keys_round_trip (n : Z) :
  isIntegerKey (BigInt_toString n) = true /\
  BigInt_ofKey (BigInt_toString n) = n.
Proof.
  destruct (BigInt_toString_shape n) as (digits & -> & Hne & Hd & Hv).
  destruct digits as [|c r]; [contradiction|].
  pose proof Hd as Hd0. simpl in Hd. apply andb_true_iff in Hd as [Hc _].
  destruct (decimalDigit_value c Hc) as (_ & _ & Hm & _).
  destruct (Z.ltb_spec n 0).
  - cbn [append]. unfold isIntegerKey, BigInt_ofKey.
    rewrite Ascii.eqb_refl. cbv zeta. rewrite Hv. split; [exact Hd0|lia].
  - cbn [append]. unfold isIntegerKey, BigInt_ofKey.
    rewrite Hm. cbv zeta. rewrite Hv. split; [exact Hd0|lia].
Qed.

(** The digits of a numeral as the model of [parseInt] reads them. *)
Lemma parseInt10_digits (n : Z) (rest : string) :
  noDigitAhead rest = true ->
  parseInt10 (BigInt_toString n ++ rest)%string = IntegerValue n.
Proof.
  intros Hrest.
  destruct (BigInt_toString_shape n) as (digits & -> & Hne & Hd & Hv).
  destruct digits as [|c r]; [contradiction|].
  pose proof Hd as Hd0. simpl in Hd. apply andb_true_iff in Hd as [Hc _].
  destruct (decimalDigit_value c Hc) as (_ & Hw & Hm & Hp).
  unfold parseInt10. destruct (Z.ltb_spec n 0).
  - cbn [append trimStart]. change (isWhiteSpace "-") with false. cbv iota.
    rewrite Ascii.eqb_refl.
    change (String c (r ++ rest)%string) with (String c r ++ rest)%string.
    rewrite leadingDigits_prefix by (auto; left; discriminate).
    rewrite Hv. f_equal. lia.
  - cbn [append trimStart]. rewrite Hw, Hm, Hp.
    change (String c (r ++ rest)%string) with (String c r ++ rest)%string.
    rewrite leadingDigits_prefix by (auto; left; discriminate).
    rewrite Hv. f_equal. lia.
Qed.

(** X7. [parseInt(base, 10)] reads the decimal numeral of an integer of
    magnitude at most 2^53, which a double holds exactly, back as that
    integer, and stops at the first character that is no digit: what follows
    the numeral is ignored.  Whatever the size of the numeral, when its
    value is not from 2 to 36 the parser refuses the base. *)
Theorem parseInt10_numeral (n : Z) (rest : string) :
  noDigitAhead rest = true ->
  (Z.abs n <= 2 ^ 53 ->
   parseInt10 (BigInt_toString n ++ rest)%string = IntegerValue n) /\
  (~ validBase n ->
   forall valueString,
     parseBigIntFromString valueString
       (parseInt10 (BigInt_toString n ++ rest)%string)
     = Error InvalidBase).
Proof.
  intros Hrest. rewrite (parseInt10_digits n rest Hrest). split.
  - reflexivity.
  - intros Hb valueString. now apply parse_invalid_base.
Qed.

Lemma parseInt10_numeral_witness :
  parseInt10 (BigInt_toString 16 ++ "px")%string = IntegerValue 16 /\
  parseBigIntFromString "10"
    (parseInt10 (BigInt_toString 9007199254740993 ++ " ")%string)
  = Error InvalidBase.
Proof.
  split.
  - apply (parseInt10_numeral 16 "px"); [reflexivity|].
    apply Z.leb_le. reflexivity.
  - apply (parseInt10_numeral 9007199254740993 " "); [reflexivity|].
    unfold validBase. lia.
Defined.

(** ** The outcomes of the evaluator *)

Lemma foldM_ext {A S : Type} (f g : S -> A -> outcome S) (l : list A) (s : S) :
  (forall s' a, In a l -> f s' a = g s' a) -> foldM f l s = foldM g l s.
Proof.
  revert s. induction l as [|a l IH]; intros s H; simpl; [reflexivity|].
  rewrite (H s a) by now left. destruct (g s a); [|reflexivity]. simpl.
  apply IH. intros s' a' Ha'. apply H. now right.
Qed.

(** The outer loop either stops with [DuplicateX], two of the first [k]
    points sharing their [x], or runs through, no index having a partner. *)
Lemma outerLoop_cases (pts : list point) (k : nat) (l : list nat) (tn td : Z) :
  0 < td ->
  (foldM (accumulateTerm pts k) l (tn, td) = Error DuplicateX /\
   exists j i, In j l /\ In i (seq 0 k) /\ i <> j /\
               x (pointAt pts i) = x (pointAt pts j)) \/
  (exists a b, foldM (accumulateTerm pts k) l (tn, td) = Ok (a, b) /\ 0 < b /\
               forall j, In j l -> noPartner pts k j).
Proof.
  revert tn td. induction l as [|j l IH]; intros tn td Htd.
  - right. exists tn, td. repeat split; [assumption|intros j []].
  - destruct (basisLoop_cases pts j (seq 0 k) 1 1)
      as [(_ & i & Hi & Hne & Hx)|(n & d & _ & Hnp & _)].
    + left. split.
      * apply outerLoop_duplicate; [assumption|].
        exists j, i. repeat split; auto. now left.
      * exists j, i. repeat split; auto. now left.
    + destruct (accumulateTerm_ok pts k j tn td Htd Hnp) as (a & b & E & Hb & _).
      cbn [foldM]. rewrite E. cbn [bind].
      destruct (IH a b Hb) as [(E' & j' & i & Hj' & Hi & Hne & Hx)
                              |(a' & b' & E' & Hb' & Hall)].
      * left. split; [assumption|]. exists j', i. repeat split; auto. now right.
      * right. exists a', b'. repeat split; try assumption.
        intros j' [<-|Hj']; [assumption|now apply Hall].
Qed.

Lemma hasDuplicateX_not_NoDup (l : list point) :
  hasDuplicateX l -> ~ NoDup (map x l).
Proof.
  intros (i & j & Hij & E) Hnd.
  assert (i = j); [|lia].
  apply (proj1 (NoDup_nth (map x l) 0) Hnd); rewrite ?length_map; try lia.
  unfold pointAt in E. now rewrite <- !(map_nth x l (mkPoint 0 0)) in E.
Qed.

Lemma noPartner_NoDup (pts : list point) (k : nat) :
  (k <= List.length pts)%nat ->
  (forall j, In j (seq 0 k) -> noPartner pts k j) ->
  NoDup (map x (firstn k pts)).
Proof.
  intros Hk Hall. apply (proj2 (NoDup_nth (map x (firstn k pts)) 0)).
  rewrite length_map, length_firstn. intros i j Hi Hj E.
  change 0 with (x (mkPoint 0 0)) in E. rewrite !map_nth in E.
  rewrite !nth_firstn in E.
  destruct (Nat.ltb_spec i k); [|lia]. destruct (Nat.ltb_spec j k); [|lia].
  destruct (Nat.eq_dec i j) as [|Hne]; [assumption|exfalso].
  assert (Hj' : In j (seq 0 k)) by (apply in_seq; lia).
  assert (Hi' : In i (seq 0 k)) by (apply in_seq; lia).
  exact (Hall j Hj' i Hi' Hne E).
Qed.

(** The outcomes of the evaluator, case by case. *)
Lemma evaluator_cases (pts : list point) (k : jsnumber) :
  match computeConstantTermFromSelected pts k with
  | Ok (n, d) =>
      (exists kn, k = IntegerValue (Z.of_nat kn) /\
                  (0 < kn <= List.length pts)%nat /\
                  NoDup (map x (firstn kn pts))) /\
      0 < d /\ Z.gcd n d = 1
  | Error e =>
      (e = InvalidK /\
       match k with IntegerValue z => z <= 0 | NotInteger => True end) \/
      (e = InsufficientPoints /\
       exists z, k = IntegerValue z /\ 0 < z /\
                 Z.of_nat (List.length pts) < z) \/
      (e = DuplicateX /\
       exists kn, k = IntegerValue (Z.of_nat kn) /\
                  (0 < kn <= List.length pts)%nat /\
                  hasDuplicateX (firstn kn pts))
  end.
Proof.
  destruct k as [z|]; [|left; split; [reflexivity|exact I]].
  unfold computeConstantTermFromSelected.
  destruct (Z.leb_spec z 0) as [Hz|Hz]; [left; now split|].
  destruct (Z.ltb_spec (Z.of_nat (List.length pts)) z) as [Hlen|Hlen].
  { right; left. split; [reflexivity|]. exists z. now repeat split. }
  assert (Ez : z = Z.of_nat (Z.to_nat z)) by lia.
  set (kn := Z.to_nat z) in *.
  destruct (outerLoop_cases pts kn (seq 0 kn) 0 1 Z.lt_0_1)
    as [(E & j & i & Hj & Hi & Hne & Hx)|(a & b & E & Hb & Hall)].
  - rewrite E. cbn [bind]. right; right. split; [reflexivity|].
    exists kn. split; [now f_equal|]. split; [lia|].
    apply in_seq in Hi, Hj.
    assert (Hget : forall m, (m < kn)%nat ->
                             pointAt (firstn kn pts) m = pointAt pts m).
    { intros m Hm. unfold pointAt. rewrite nth_firstn.
      destruct (Nat.ltb_spec m kn); [reflexivity|lia]. }
    destruct (Nat.lt_ge_cases i j).
    + exists i, j. rewrite length_firstn, !Hget by lia. split; [lia|exact Hx].
    + exists j, i. rewrite length_firstn, !Hget by lia. split; [lia|now symmetry].
  - rewrite E. cbn [bind]. destruct (Z.eqb_spec b 0) as [|_]; [lia|].
    destruct (reduceFraction_spec a b ltac:(lia)) as (n & d & E' & Hd & Hg & _).
    rewrite E'. split; [|now split].
    exists kn. split; [now f_equal|]. split; [lia|].
    apply noPartner_NoDup; [lia|assumption].
Qed.

(** X8. The evaluator has four outcomes and no other: [InvalidK] when [k]
    is no positive integer, [InsufficientPoints] when there are fewer than
    [k] points, [DuplicateX] when two of the first [k] points have the same
    [x], and otherwise a fraction in lowest terms with a positive
    denominator.  It never fails with a zero or degenerate denominator. *)
Theorem evaluator_outcomes (pts : list point) (k : jsnumber) :
  match computeConstantTermFromSelected pts k with
  | Ok (n, d) =>
      (exists kn, k = IntegerValue (Z.of_nat kn) /\
                  (0 < kn <= List.length pts)%nat /\
                  NoDup (map x (firstn kn pts))) /\
      0 < d /\ Z.gcd n d = 1
  | Error e =>
      (e = InvalidK /\
       match k with IntegerValue z => z <= 0 | NotInteger => True end) \/
      (e = InsufficientPoints /\
       exists z, k = IntegerValue z /\ 0 < z /\
                 Z.of_nat (List.length pts) < z) \/
      (e = DuplicateX /\
       exists kn, k = IntegerValue (Z.of_nat kn) /\
                  (0 < kn <= List.length pts)%nat /\
                  hasDuplicateX (firstn kn pts))
  end.
Proof. exact (evaluator_cases pts k). Qed.

(** The evaluator on the first [k] points alone. *)
Lemma evaluator_firstn (pts : list point) (k : nat) :
  (k <= List.length pts)%nat ->
  computeConstantTermFromSelected (firstn k pts) (IntegerValue (Z.of_nat k))
  = computeConstantTermFromSelected pts (IntegerValue (Z.of_nat k)).
Proof.
  intros Hk. unfold computeConstantTermFromSelected.
  destruct (Z.of_nat k <=? 0); [reflexivity|].
  rewrite length_firstn, Nat.min_l by assumption.
  destruct (Z.ltb_spec (Z.of_nat k) (Z.of_nat k)); [lia|].
  destruct (Z.ltb_spec (Z.of_nat (List.length pts)) (Z.of_nat k)); [lia|].
  rewrite Nat2Z.id.
  assert (Hget : forall m, (m < k)%nat ->
                           pointAt (firstn k pts) m = pointAt pts m).
  { intros m Hm. unfold pointAt. rewrite nth_firstn.
    destruct (Nat.ltb_spec m k); [reflexivity|lia]. }
  rewrite (foldM_ext (accumulateTerm (firstn k pts) k) (accumulateTerm pts k));
    [reflexivity|].
  intros [tn td] j Hj. apply in_seq in Hj. unfold accumulateTerm, basisLoop.
  rewrite Hget by lia.
  rewrite (foldM_ext (basisStep (firstn k pts) j (x (pointAt pts j)))
                     (basisStep pts j (x (pointAt pts j)))); [reflexivity|].
  intros [nu de] i Hi. apply in_seq in Hi. unfold basisStep.
  now rewrite Hget by lia.
Qed.

(** X9. The evaluator reads the first [k] points only: the points after them
    do not change its outcome. *)
Theorem evaluator_reads_first_k (pts : list point) (k : nat) :
  (k <= List.length pts)%nat ->
  computeConstantTermFromSelected (firstn k pts) (IntegerValue (Z.of_nat k))
  = computeConstantTermFromSelected pts (IntegerValue (Z.of_nat k)).
Proof. exact (evaluator_firstn pts k). Qed.

Lemma evaluator_reads_first_k_witness :
  computeConstantTermFromSelected
    (firstn 2 [mkPoint 1 5; mkPoint 2 7; mkPoint 2 99])
    (IntegerValue (Z.of_nat 2))
  = computeConstantTermFromSelected
      [mkPoint 1 5; mkPoint 2 7; mkPoint 2 99] (IntegerValue (Z.of_nat 2)).
Proof.
  apply (evaluator_reads_first_k [mkPoint 1 5; mkPoint 2 7; mkPoint 2 99] 2).
  simpl; lia.
Defined.

(** The fraction the evaluator returns on points with distinct [x] is the
    value at 0 of every polynomial of degree below their number through
    them. *)
Lemma evaluator_unique_value (pts : list point) (n d : Z) (p : list Qc) :
  NoDup (map x pts) ->
  computeConstantTermFromSelected pts
    (IntegerValue (Z.of_nat (List.length pts))) = Ok (n, d) ->
  (List.length p <= List.length pts)%nat -> interpolates p pts ->
  evalPoly p 0%Qc = (zq n / zq d)%Qc.
Proof.
  intros Hnd E Hp Hi.
  assert (Hne : pts <> []) by (intros ->; discriminate E).
  destruct (evaluator_value pts Hne Hnd) as (n' & d' & E' & _ & _ & Hv).
  rewrite E in E'. injection E' as <- <-. rewrite Hv.
  apply lagrangeAt_unique; [|assumption|now apply interpolates_nodes].
  intros i j Hi' Hj' Hij Hx. apply zq_inj in Hx. revert Hx.
  now apply distinct_of_NoDup.
Qed.

(** X10. The order in which the points are handed to the evaluator does not
    matter: on all the points of a list, every reordering of the list gives
    the same outcome, the same fraction or the same failure. *)
Theorem evaluator_ignores_order (pts pts' : list point) :
  Permutation pts pts' ->
  computeConstantTermFromSelected pts
    (IntegerValue (Z.of_nat (List.length pts)))
  = computeConstantTermFromSelected pts'
      (IntegerValue (Z.of_nat (List.length pts'))).
Proof.
  intros Hperm.
  pose proof (Permutation_length Hperm) as Hlen.
  pose proof (evaluator_cases pts (IntegerValue (Z.of_nat (List.length pts))))
    as H.
  pose proof (evaluator_cases pts' (IntegerValue (Z.of_nat (List.length pts'))))
    as H'.
  assert (Hfull : forall (l : list point) kn,
             IntegerValue (Z.of_nat (List.length l)) = IntegerValue (Z.of_nat kn) ->
             firstn kn l = l).
  { intros l kn Ek. injection Ek as Ek. apply Nat2Z.inj in Ek. subst kn.
    apply firstn_all. }
  destruct (computeConstantTermFromSelected pts _) as [[n d]|e] eqn:E;
    destruct (computeConstantTermFromSelected pts' _) as [[n' d']|e'] eqn:E'.
  - destruct H as ((kn & Ek & _ & Hnd) & Hd & Hg).
    destruct H' as ((kn' & Ek' & _ & Hnd') & Hd' & Hg').
    rewrite (Hfull _ _ Ek) in Hnd. rewrite (Hfull _ _ Ek') in Hnd'.
    assert (Hne : pts <> []) by (intros ->; discriminate E).
    destruct (evaluator_value pts Hne Hnd) as (n0 & d0 & E0 & _ & _ & Hv).
    rewrite E in E0. injection E0 as <- <-.
    assert (Hdist : forall i j, (i < List.length pts)%nat ->
                                (j < List.length pts)%nat -> i <> j ->
                                xq pts i <> xq pts j).
    { intros i j Hi Hj Hij Hx. apply zq_inj in Hx. revert Hx.
      now apply distinct_of_NoDup. }
    destruct (lagrangeAt_isPoly (xq pts) (yq pts) (List.length pts) Hdist)
      as (p & Hp & Ep).
    assert (Hint : interpolates p pts).
    { apply interpolates_nodes. intros m Hm. rewrite <- Ep.
      now apply lagrangeAt_node. }
    assert (Hint' : interpolates p pts').
    { intros pt Hpt. apply Hint.
      now apply (Permutation_in _ (Permutation_sym Hperm)). }
    pose proof (evaluator_unique_value pts n d p Hnd E Hp Hint) as V.
    pose proof (evaluator_unique_value pts' n' d' p Hnd' E'
                  ltac:(rewrite <- Hlen; exact Hp) Hint') as V'.
    rewrite V in V'.
    assert (Hx : n * d' = n' * d).
    { apply zq_inj. rewrite !zq_mul.
      assert (zq d <> 0%Qc) by (apply zq_nonzero; lia).
      assert (zq d' <> 0%Qc) by (apply zq_nonzero; lia).
      replace (zq n) with (zq n / zq d * zq d)%Qc by (field; assumption).
      rewrite V'. field. assumption. }
    destruct (reduced_unique n d n' d' Hd Hd' Hg Hg' Hx) as [-> ->].
    reflexivity.
  - exfalso. destruct H as ((kn & Ek & Hkn & Hnd) & _).
    rewrite (Hfull _ _ Ek) in Hnd.
    assert (Hnd' : NoDup (map x pts'))
      by (apply (Permutation_NoDup (Permutation_map x Hperm)); assumption).
    injection Ek as Ek. apply Nat2Z.inj in Ek.
    destruct H' as [(_ & Hz)|[(_ & z & Ez & _ & Hz)|(_ & kn' & Ek' & _ & Hdup)]].
    + lia.
    + injection Ez as <-. lia.
    + rewrite (Hfull _ _ Ek') in Hdup.
      now apply (hasDuplicateX_not_NoDup pts').
  - exfalso. destruct H' as ((kn & Ek & Hkn & Hnd') & _).
    rewrite (Hfull _ _ Ek) in Hnd'.
    assert (Hnd : NoDup (map x pts)).
    { apply (Permutation_NoDup (Permutation_map x (Permutation_sym Hperm))).
      assumption. }
    injection Ek as Ek. apply Nat2Z.inj in Ek.
    destruct H as [(_ & Hz)|[(_ & z & Ez & _ & Hz)|(_ & kn' & Ek' & _ & Hdup)]].
    + lia.
    + injection Ez as <-. lia.
    + rewrite (Hfull _ _ Ek') in Hdup.
      now apply (hasDuplicateX_not_NoDup pts).
  - f_equal.
    destruct H as [(-> & Hz)|[(_ & z & Ez & _ & Hz)|(-> & kn & Ek & Hkn & _)]];
    destruct H' as [(-> & Hz')|[(_ & z' & Ez' & _ & Hz')
                               |(-> & kn' & Ek' & Hkn' & _)]];
      try reflexivity; exfalso;
      repeat match goal with
             | H : IntegerValue _ = IntegerValue _ |- _ =>
                 injection H as H
             end; lia.
Qed.

Lemma evaluator_ignores_order_witness :
  computeConstantTermFromSelected
    [mkPoint 1 3; mkPoint 2 7; mkPoint 3 13] (IntegerValue (Z.of_nat 3))
  = computeConstantTermFromSelected
      [mkPoint 3 13; mkPoint 1 3; mkPoint 2 7] (IntegerValue (Z.of_nat 3)).
Proof.
  apply (evaluator_ignores_order
           [mkPoint 1 3; mkPoint 2 7; mkPoint 3 13]
           [mkPoint 3 13; mkPoint 1 3; mkPoint 2 7]).
  apply Permutation_sym. apply Permutation_cons_append.
Defined.

(** ** What a successful computation returns *)

Lemma strict_NoDup (l : list point) :
  StronglySorted ltX l -> NoDup (map x l).
Proof.
  induction 1 as [|p l Hs IH Hp]; simpl; constructor; [|assumption].
  intros Hin. apply in_map_iff in Hin as (q & E & Hq).
  pose proof (proj1 (Forall_forall _ _) Hp q Hq) as Hlt.
  unfold ltX in Hlt. lia.
Qed.

(** A successful selection: [k] is positive and no larger than the number of
    points, the selected points are the first [k] of the sort, their [x]
    strictly increase and are at most those of the points left out, and
    the result is the value at 0 of every polynomial of degree below [k]
    through the selected points. *)
Lemma selectAndEvaluate_success (pts : list point) (k n d : Z) :
  selectAndEvaluate pts k = Ok (n, d) ->
  let selected := firstn (Z.to_nat k) (sortByX pts) in
  0 < k <= Z.of_nat (List.length pts) /\
  Z.of_nat (List.length selected) = k /\
  StronglySorted ltX selected /\
  (forall p q, In p selected -> In q (skipn (Z.to_nat k) (sortByX pts)) ->
               x p <= x q) /\
  (forall pt, In pt selected -> In pt pts) /\
  0 < d /\ Z.gcd n d = 1 /\
  forall p : list Qc,
    (Z.of_nat (List.length p) <= k) -> interpolates p selected ->
    evalPoly p 0%Qc = (zq n / zq d)%Qc.
Proof.
  intros Hok selected. unfold selectAndEvaluate in Hok. fold selected in Hok.
  destruct (Z.ltb_spec (Z.of_nat (List.length pts)) k) as [|Hlen];
    [discriminate|].
  destruct (adjacentScan_cases selected) as [Hscan|Hscan];
    rewrite Hscan in Hok; [|discriminate]. cbn [bind] in Hok.
  pose proof (evaluator_cases selected (IntegerValue k)) as Hout.
  rewrite Hok in Hout. destruct Hout as ((kn & Ek & Hkn & _) & Hd & Hg).
  injection Ek as Ek.
  assert (Hsl : List.length selected = Z.to_nat k).
  { unfold selected.
    rewrite length_firstn, <- (Permutation_length (sortByX_perm pts)). lia. }
  assert (Hstrict : StronglySorted ltX selected).
  { apply adjacentScan_strict; [|assumption].
    apply firstn_sorted, sortByX_sorted. }
  split; [lia|]. split; [lia|]. split; [assumption|].
  split; [|split; [|split; [assumption|split; [assumption|]]]].
  - intros p q Hp Hq.
    apply (sorted_app_le selected (skipn (Z.to_nat k) (sortByX pts)));
      try assumption.
    unfold selected. rewrite firstn_skipn. apply sortByX_sorted.
  - intros pt Hpt. apply (Permutation_in _ (Permutation_sym (sortByX_perm pts))).
    unfold selected in Hpt. eapply In_firstn, Hpt.
  - intros p Hp Hint.
    apply (evaluator_unique_value selected n d p);
      [now apply strict_NoDup| |lia|assumption].
    rewrite <- Hok. do 2 f_equal. lia.
Qed.

(** X11. When a builder succeeds, its result is the interpolation of the [k]
    points of the record with the smallest [x]: [k] is the positive integer
    read from [keys.k], the selected points are [k] points of the record
    whose [x] strictly increase and do not exceed those of the points left
    out, and the reduced fraction returned is the value at 0 of every
    polynomial of degree below [k] through the selected points. *)
Theorem builder_success_is_interpolation (NM : NumberModel)
  (properties : list (string * value)) (n d : Z) :
  findConstantTermFromString (VObject properties) = Ok (n, d) \/
  findConstantTermFromFile properties = Ok (n, d) ->
  exists (k : Z) (pts : list point),
    readK (VObject properties) = Ok k /\
    (collectPoints (pointOfKeyFromString (VObject properties)) properties
       = Ok pts \/
     collectPoints (pointOfKeyFromFile (VObject properties)) properties
       = Ok pts) /\
    let selected := firstn (Z.to_nat k) (sortByX pts) in
    0 < k <= Z.of_nat (List.length pts) /\
    Z.of_nat (List.length selected) = k /\
    StronglySorted ltX selected /\
    (forall p q, In p selected -> In q (skipn (Z.to_nat k) (sortByX pts)) ->
                 x p <= x q) /\
    (forall pt, In pt selected -> In pt pts) /\
    0 < d /\ Z.gcd n d = 1 /\
    forall p : list Qc,
      (Z.of_nat (List.length p) <= k) -> interpolates p selected ->
      evalPoly p 0%Qc = (zq n / zq d)%Qc.
Proof.
  intros [H|H].
  - unfold findConstantTermFromString in H.
    destruct (readK (VObject properties)) as [k|] eqn:Ek; [|discriminate].
    cbn [bind] in H.
    destruct (collectPoints _ properties) as [pts|] eqn:Ep; [|discriminate].
    cbn [bind] in H. exists k, pts. split; [reflexivity|]. split; [now left|].
    now apply selectAndEvaluate_success.
  - unfold findConstantTermFromFile in H.
    destruct (readK (VObject properties)) as [k|] eqn:Ek; [|discriminate].
    cbn [bind] in H.
    destruct (collectPoints _ properties) as [pts|] eqn:Ep; [|discriminate].
    cbn [bind] in H. exists k, pts. split; [reflexivity|]. split; [now right|].
    now apply selectAndEvaluate_success.
Qed.

Lemma builder_success_is_interpolation_witness :
  exists (k : Z) (pts : list point),
    readK (VObject lineRecord) = Ok k /\
    (collectPoints (pointOfKeyFromString (VObject lineRecord)) lineRecord
       = Ok pts \/
     collectPoints (pointOfKeyFromFile (VObject lineRecord)) lineRecord
       = Ok pts) /\
    let selected := firstn (Z.to_nat k) (sortByX pts) in
    0 < k <= Z.of_nat (List.length pts) /\
    Z.of_nat (List.length selected) = k /\
    StronglySorted ltX selected /\
    (forall p q, In p selected -> In q (skipn (Z.to_nat k) (sortByX pts)) ->
                 x p <= x q) /\
    (forall pt, In pt selected -> In pt pts) /\
    0 < 1 /\ Z.gcd 3 1 = 1 /\
    forall p : list Qc,
      (Z.of_nat (List.length p) <= k) -> interpolates p selected ->
      evalPoly p 0%Qc = (zq 3 / zq 1)%Qc.
Proof.
  apply (builder_success_is_interpolation IntegerRecords lineRecord 3 1).
  left. vm_compute. reflexivity.
Defined.

Lemma mapM_length {A B : Type} (f : A -> outcome B) (l : list A) (bs : list B) :
  mapM f l = Ok bs -> List.length bs = List.length l.
Proof.
  revert bs. induction l as [|a l IH]; intros bs H; simpl in H.
  - now injection H as <-.
  - destruct (f a); [|discriminate]. simpl in H.
    destruct (mapM f l) as [bs0|]; [|discriminate]. simpl in H.
    injection H as <-. simpl. now rewrite (IH bs0).
Qed.

(** X12. A record with fewer entries than [keys.k] asks for is never
    computed: when every entry is valid the builders fail with
    [InsufficientPoints], and otherwise with the error of the first entry
    that is not; the count is of all the keys other than [keys]. *)
Theorem too_few_entries (NM : NumberModel)
  (properties : list (string * value)) (k : Z) :
  readK (VObject properties) = Ok k ->
  Z.of_nat (List.length (filter isPointKey (map fst properties))) < k ->
  (match collectPoints (pointOfKeyFromString (VObject properties)) properties
   with
   | Ok _ => findConstantTermFromString (VObject properties)
             = Error InsufficientPoints
   | Error e => findConstantTermFromString (VObject properties) = Error e
   end) /\
  (match collectPoints (pointOfKeyFromFile (VObject properties)) properties
   with
   | Ok _ => findConstantTermFromFile properties = Error InsufficientPoints
   | Error e => findConstantTermFromFile properties = Error e
   end).
Proof.
  intros Hk Hfew. unfold findConstantTermFromString, findConstantTermFromFile.
  rewrite Hk. cbn [bind]. split.
  - destruct (collectPoints _ properties) as [pts|e] eqn:E; [|reflexivity].
    cbn [bind]. rewrite collectPoints_mapM in E. apply mapM_length in E.
    unfold selectAndEvaluate.
    destruct (Z.ltb_spec (Z.of_nat (List.length pts)) k); [reflexivity|lia].
  - destruct (collectPoints _ properties) as [pts|e] eqn:E; [|reflexivity].
    cbn [bind]. rewrite collectPoints_mapM in E. apply mapM_length in E.
    unfold selectAndEvaluate.
    destruct (Z.ltb_spec (Z.of_nat (List.length pts)) k); [reflexivity|lia].
Qed.

Lemma too_few_entries_witness :
  findConstantTermFromString
    (VObject [("1", exampleEntry "10" "5"); ("keys", exampleKeys 2)])
  = Error InsufficientPoints /\
  findConstantTermFromFile
    [("1", exampleEntry "10" "5"); ("keys", exampleKeys 2)]
  = Error InsufficientPoints.
Proof.
  apply (too_few_entries IntegerRecords
           [("1", exampleEntry "10" "5"); ("keys", exampleKeys 2)] 2).
  - reflexivity.
  - simpl. lia.
Defined.

(** ** Extracting the first JSON object of a text *)

Lemma fromFirstBrace_none (prev : option ascii) (str : string) :
  fromFirstBrace prev str = None <-> noBrace str = true.
Proof.
  unfold noBrace. revert prev. induction str as [|c r IH]; intros prev; simpl.
  - split; reflexivity.
  - destruct (Ascii.eqb c "{"); simpl; [split; discriminate|apply IH].
Qed.

Lemma fromFirstBrace_some (prev prev' : option ascii) (str fromStart : string) :
  fromFirstBrace prev str = Some (prev', fromStart) ->
  exists before rest,
    str = (before ++ fromStart)%string /\ noBrace before = true /\
    fromStart = String "{" rest.
Proof.
  unfold noBrace. revert prev. induction str as [|c r IH]; intros prev H;
    simpl in H; [discriminate|].
  destruct (Ascii.eqb c "{") eqn:Ec.
  - injection H as _ <-. apply Ascii.eqb_eq in Ec. subst c.
    exists "", r. repeat split.
  - destruct (IH _ H) as (before & rest & -> & Hb & ->).
    exists (String c before), rest. repeat split. simpl. now rewrite Ec.
Qed.

(** The scan reads no further than the text it returns. *)
Lemma scanObject_prefix (prev : option ascii) (str : string) (depth : Z)
  (inString : bool) (object : string) :
  scanObject prev str depth inString = Some object ->
  (exists after, str = (object ++ after)%string) /\
  forall after', scanObject prev (object ++ after')%string depth inString
                 = Some object.
Proof.
  revert prev depth inString object.
  induction str as [|ch rest IH]; intros prev depth inString object H;
    [discriminate|].
  cbn [scanObject] in H. cbv zeta in H.
  set (escaped := match prev with
                  | Some p => Ascii.eqb p backslashChar
                  | None => false
                  end) in *.
  set (inString' := if Ascii.eqb ch quoteChar && negb escaped
                    then negb inString else inString) in *.
  set (depth' := if Ascii.eqb ch "{" then depth + 1
                 else if Ascii.eqb ch "}" then depth - 1 else depth) in *.
  destruct inString' eqn:Ein.
  - destruct (scanObject (Some ch) rest depth true) as [o|] eqn:E;
      [|discriminate].
    injection H as <-. destruct (IH _ _ _ _ E) as ((after & ->) & Hpre).
    split; [now exists after|].
    intros after'. cbn [append scanObject]. cbv zeta.
    fold escaped. fold inString'. rewrite Ein. now rewrite Hpre.
  - destruct (depth' =? 0) eqn:Ed.
    + injection H as <-. split; [now exists rest|].
      intros after'. cbn [append scanObject]. cbv zeta.
      fold escaped. fold inString'. rewrite Ein. fold depth'. now rewrite Ed.
    + destruct (scanObject (Some ch) rest depth' false) as [o|] eqn:E;
        [|discriminate].
      injection H as <-. destruct (IH _ _ _ _ E) as ((after & ->) & Hpre).
      split; [now exists after|].
      intros after'. cbn [append scanObject]. cbv zeta.
      fold escaped. fold inString'. rewrite Ein. fold depth'. rewrite Ed.
      now rewrite Hpre.
Qed.

(** Below an open brace, the scan returns at a closing brace only. *)
Lemma scanObject_ends (prev : option ascii) (str : string) (depth : Z)
  (inString : bool) (object : string) :
  1 <= depth ->
  scanObject prev str depth inString = Some object ->
  exists middle, object = (middle ++ "}")%string.
Proof.
  revert prev depth inString object.
  induction str as [|ch rest IH]; intros prev depth inString object Hd H;
    [discriminate|].
  cbn [scanObject] in H. cbv zeta in H.
  destruct (if Ascii.eqb ch quoteChar &&
               negb match prev with
                    | Some p => Ascii.eqb p backslashChar
                    | None => false
                    end
            then negb inString else inString).
  - destruct (scanObject (Some ch) rest depth true) as [o|] eqn:E;
      [|discriminate].
    injection H as <-. destruct (IH _ _ _ _ Hd E) as (middle & ->).
    now exists (String ch middle).
  - destruct (Ascii.eqb ch "{") eqn:Eo.
    + destruct (Z.eqb_spec (depth + 1) 0); [lia|].
      destruct (scanObject (Some ch) rest (depth + 1) false) as [o|] eqn:E;
        [|discriminate].
      injection H as <-.
      destruct (IH _ (depth + 1) _ _ ltac:(lia) E) as (middle & ->).
      now exists (String ch middle).
    + destruct (Ascii.eqb ch "}") eqn:Ec.
      * destruct (Z.eqb_spec (depth - 1) 0).
        -- injection H as <-. apply Ascii.eqb_eq in Ec. subst ch. now exists "".
        -- destruct (scanObject (Some ch) rest (depth - 1) false) as [o|] eqn:E;
             [|discriminate].
           injection H as <-.
           destruct (IH _ (depth - 1) _ _ ltac:(lia) E) as (middle & ->).
           now exists (String ch middle).
      * destruct (Z.eqb_spec depth 0); [lia|].
        destruct (scanObject (Some ch) rest depth false) as [o|] eqn:E;
          [|discriminate].
        injection H as <-. destruct (IH _ _ _ _ Hd E) as (middle & ->).
        now exists (String ch middle).
Qed.

(** The scan from an opening brace does not depend on what precedes it. *)
Lemma scanObject_start (prev prev' : option ascii) (rest : string) :
  scanObject prev (String "{" rest) 0 false
  = scanObject prev' (String "{" rest) 0 false.
Proof.
  cbn [scanObject]. change (Ascii.eqb "{" quoteChar) with false. reflexivity.
Qed.

Lemma scanObject_open (prev : option ascii) (rest : string) (object : string) :
  scanObject prev (String "{" rest) 0 false = Some object ->
  exists middle, object = String "{" (middle ++ "}")%string.
Proof.
  cbn [scanObject]. change (Ascii.eqb "{" quoteChar) with false.
  cbn [andb]. cbv zeta. rewrite Ascii.eqb_refl. cbn [Z.add Z.eqb].
  destruct (scanObject (Some "{"%char) rest 1 false) as [o|] eqn:E;
    [|discriminate].
  intros H. injection H as <-.
  destruct (scanObject_ends _ _ 1 _ _ ltac:(lia) E) as (middle & ->).
  now exists middle.
Qed.

Lemma fromFirstBrace_app (prev : option ascii) (before rest : string) :
  noBrace before = true ->
  exists prev',
    fromFirstBrace prev (before ++ String "{" rest)%string
    = Some (prev', String "{" rest).
Proof.
  unfold noBrace. revert prev.
  induction before as [|c r IH]; intros prev H; simpl in *.
  - now exists prev.
  - destruct (Ascii.eqb c "{"); [discriminate|]. now apply IH.
Qed.

(** The outcomes of [extractFirstJsonObject] and the shape of what it
    extracts. *)
Lemma extractFirstJsonObject_parts (str : string) :
  (extractFirstJsonObject str = NoJsonObject <-> noBrace str = true) /\
  forall object,
    extractFirstJsonObject str = Extracted object ->
    exists before middle after,
      str = (before ++ object ++ after)%string /\
      noBrace before = true /\
      object = String "{" (middle ++ "}")%string /\
      forall before' after',
        noBrace before' = true ->
        extractFirstJsonObject (before' ++ object ++ after')%string
        = Extracted object.
Proof.
  unfold extractFirstJsonObject. split.
  - destruct (fromFirstBrace None str) as [[prev fromStart]|] eqn:E.
    + split.
      * destruct (scanObject prev fromStart 0 false); discriminate.
      * intros H. apply (fromFirstBrace_none None) in H. congruence.
    + split; [|reflexivity]. intros _. now apply (fromFirstBrace_none None).
  - intros object H.
    destruct (fromFirstBrace None str) as [[prev fromStart]|] eqn:E;
      [|discriminate].
    destruct (scanObject prev fromStart 0 false) as [o|] eqn:Es;
      [|discriminate].
    injection H as ->.
    destruct (fromFirstBrace_some _ _ _ _ E) as (before & rest & -> & Hb & ->).
    destruct (scanObject_open _ _ _ Es) as (middle & Eo).
    destruct (scanObject_prefix _ _ _ _ _ Es) as ((after & Ea) & Hpre).
    exists before, middle, after.
    split; [now rewrite Ea|]. split; [exact Hb|]. split; [exact Eo|].
    intros before' after' Hb'.
    pose proof (Hpre after') as Hs. rewrite Eo in Hs at 1. rewrite Eo at 1.
    cbn [append] in *.
    destruct (fromFirstBrace_app None before' (middle ++ "}" ++ after') Hb')
      as (prev' & Ef).
    revert Hs Ef. rewrite ?string_app_assoc. cbn [append].
    intros Hs ->.
    now rewrite (scanObject_start prev' prev), Hs.
Qed.

(** X13. [extractFirstJsonObject] fails with 'No JSON object found' exactly on
    a text without an opening brace.  What it extracts is a piece of the
    text that starts at the first opening brace of the text and ends with a
    closing brace.  Neither the text after that piece nor the text before
    it matters: the piece is extracted again from any text that holds it
    after a start without a brace, and so from the piece itself. *)
Theorem extractFirstJsonObject_spec (str : string) :
  (extractFirstJsonObject str = NoJsonObject <-> noBrace str = true) /\
  forall object,
    extractFirstJsonObject str = Extracted object ->
    exists before middle after,
      str = (before ++ object ++ after)%string /\
      noBrace before = true /\
      object = String "{" (middle ++ "}")%string /\
      (forall before' after',
          noBrace before' = true ->
          extractFirstJsonObject (before' ++ object ++ after')%string
          = Extracted object) /\
      extractFirstJsonObject object = Extracted object.
Proof.
  destruct (extractFirstJsonObject_parts str) as (Hnone & Hsome).
  split; [exact Hnone|]. intros object H.
  destruct (Hsome object H) as (before & middle & after & E & Hb & Eo & Hin).
  exists before, middle, after. repeat (split; [assumption|]).
  specialize (Hin "" "" eq_refl). cbn [append] in Hin.
  now rewrite string_app_empty_r in Hin.
Qed.

Lemma extractFirstJsonObject_spec_witness :
  exists before middle after,
    noisyText = (before ++ noisyObject ++ after)%string /\
    noBrace before = true /\
    noisyObject = String "{" (middle ++ "}")%string /\
    (forall before' after',
        noBrace before' = true ->
        extractFirstJsonObject (before' ++ noisyObject ++ after')%string
        = Extracted noisyObject) /\
    extractFirstJsonObject noisyObject = Extracted noisyObject.
Proof.
  apply (proj2 (extractFirstJsonObject_spec noisyText) noisyObject).
  reflexivity.
Defined.

(** ** The first solver *)

Lemma indexOf_mapGet (s : string) (i : Z) (c : ascii) :
  indexOfFrom i s c
  = match mapGet (entriesFrom i s) c with Some d => d | None => -1 end.
Proof.
  revert i. induction s as [|c' s IH]; intros i; cbn; [reflexivity|].
  destruct (Ascii.eqb c c'); [reflexivity|apply IH].
Qed.

Lemma parseLoop_digitLoop (base : Z) (s : list N) (result : Z) :
  parseLoop base s result
  = match Wide.digitLoop base s result with
    | Ok n => inr n
    | Error _ => inl InvalidDigit
    end.
Proof.
  revert result. induction s as [|c s IH]; intros result; [reflexivity|].
  cbn [parseLoop Wide.digitLoop]. cbv zeta.
  assert (E : match Wide.lowerCaseKey c with
              | Some cl => indexOfFrom 0 DIGITS cl
              | None => -1
              end = Wide.digitOf c).
  { unfold Wide.digitOf. destruct (Wide.lowerCaseKey c); [|reflexivity].
    apply (indexOf_mapGet DIGITS 0). }
  rewrite E.
  destruct ((Wide.digitOf c =? -1) || (Wide.digitOf c >=? base));
    [reflexivity|apply IH].
Qed.

Lemma wide_valid_body (base : Z) (s : list N) :
  forallb (Wide.validDigit base) s = true ->
  Wide.trimStart s = s /\ Wide.trimEnd s = s /\ Wide.removeSeparators s = s /\
  Wide.stripSign s = s.
Proof.
  intros H. split; [|split; [|split]].
  - destruct s as [|c s]; [reflexivity|]. cbn [forallb] in H.
    apply andb_prop in H as (Hc & _).
    apply wide_validDigit_facts in Hc as (Hw & _).
    cbn [Wide.trimStart]. now rewrite Hw.
  - induction s as [|c s IH]; [reflexivity|]. cbn [forallb] in H.
    apply andb_prop in H as (Hc & Hs).
    apply wide_validDigit_facts in Hc as (Hw & _).
    cbn [Wide.trimEnd]. rewrite (IH Hs), Hw. now destruct s.
  - induction s as [|c s IH]; [reflexivity|]. cbn [forallb] in H.
    apply andb_prop in H as (Hc & Hs).
    apply wide_validDigit_facts in Hc as (_ & _ & Hu & _).
    cbn [Wide.removeSeparators]. now rewrite Hu, (IH Hs).
  - destruct s as [|c s]; [reflexivity|]. cbn [forallb] in H.
    apply andb_prop in H as (Hc & _).
    apply wide_validDigit_facts in Hc as (_ & Hs & _).
    cbn [Wide.stripSign]. now rewrite Hs.
Qed.

(** X14. The parser of the first solver reads a string as a numeral in any
    integer base, without checking the base: it returns the positional
    value when every character is a digit below the base and fails
    otherwise, the digits being the characters whose lower case is in the
    alphabet: 0-9, a-z, A-Z and the Kelvin sign U+212A, which counts as k.
    So the empty string gives 0, and a string that holds a sign, a white
    space or a separator is refused.  On a non-empty string and a base from
    2 to 36, whatever it returns the robust parser returns too. *)
Theorem parseBigInt_positional (stringValue : list N) (base : Z) :
  parseBigInt stringValue (IntegerValue base)
  = (if forallb (Wide.validDigit base) stringValue
     then inr (Wide.positionalValue base stringValue)
     else inl InvalidDigit) /\
  parseBigInt [] (IntegerValue base) = inr 0 /\
  (forall front c back,
      stringValue = front ++ c :: back ->
      Wide.isSign c || Wide.isWhiteSpace c || (c =? 95)%N = true ->
      parseBigInt stringValue (IntegerValue base) = inl InvalidDigit) /\
  (forall n, validBase base -> stringValue <> [] ->
             parseBigInt stringValue (IntegerValue base) = inr n ->
             Wide.parseBigIntFromString stringValue (IntegerValue base)
             = Ok n).
Proof.
  assert (E : forall s, parseBigInt s (IntegerValue base)
              = if forallb (Wide.validDigit base) s
                then inr (Wide.positionalValue base s)
                else inl InvalidDigit).
  { intros s. cbn [parseBigInt].
    rewrite parseLoop_digitLoop, wide_digitLoop_spec.
    destruct (forallb (Wide.validDigit base) s); [|reflexivity].
    rewrite wide_accumulate_positional. f_equal; lia. }
  split; [apply E|]. split; [reflexivity|]. split.
  - intros front c back -> Hc. rewrite E, forallb_app. cbn [forallb].
    destruct (Wide.validDigit base c) eqn:Hv.
    + apply wide_validDigit_facts in Hv as (Hw & Hs & Hu & _).
      rewrite Hw, Hs, Hu in Hc. discriminate.
    + now rewrite andb_false_r.
  - intros n Hb Hne H. rewrite E in H.
    destruct (forallb (Wide.validDigit base) stringValue) eqn:Hv;
      [|discriminate].
    injection H as <-.
    destruct (wide_valid_body base stringValue Hv) as (Hts & Hte & Hr & Hs).
    assert (Hbody : Wide.bodyOf stringValue = stringValue).
    { unfold Wide.bodyOf, Wide.trim. now rewrite Hts, Hte, Hs, Hr. }
    rewrite wide_parse_unfold, Hbody by assumption.
    destruct stringValue as [|c r]; [contradiction|].
    rewrite wide_digitLoop_spec, Hv. cbn [bind].
    rewrite wide_accumulate_positional. unfold Wide.trim.
    rewrite Hts, Hte. cbn [Wide.signOf].
    cbn [forallb] in Hv. apply andb_prop in Hv as (Hc & _).
    apply wide_validDigit_facts in Hc as (_ & Hsg & _).
    unfold Wide.isSign in Hsg. apply orb_false_elim in Hsg as (_ & Hm).
    rewrite Hm. f_equal. lia.
Qed.

Lemma parseBigInt_positional_witness :
  Wide.parseBigIntFromString [70; Wide.kelvinSign]%N (IntegerValue 36)
  = Ok 560.
Proof.
  apply (proj2 (proj2 (proj2
           (parseBigInt_positional [70; Wide.kelvinSign]%N 36))) 560).
  - unfold validBase. lia.
  - discriminate.
  - reflexivity.
Defined.

(** The inner loop of the first solver computes the products the inner loop
    of the evaluator returns. *)
Lemma productLoop_basisLoop (pts : list point) (j : nat) (xj : Z)
  (l : list nat) (acc : Z * Z) (n d : Z) :
  foldM (basisStep pts j xj) l acc = Ok (n, d) ->
  fold_left (productStep pts j xj) l acc = (n, d).
Proof.
  revert acc. induction l as [|i l IH]; intros [n0 d0] H; cbn [foldM fold_left] in *.
  - congruence.
  - unfold basisStep in H at 1. unfold productStep at 2.
    destruct (i =? j)%nat; cbn [bind] in H; [now apply IH|].
    destruct (x (pointAt pts i) =? xj); cbn [bind] in H; [discriminate|].
    now apply IH.
Qed.

Lemma productLoop_zero_stays (pts : list point) (j : nat) (xj : Z)
  (l : list nat) (n0 : Z) :
  snd (fold_left (productStep pts j xj) l (n0, 0)) = 0.
Proof.
  revert n0. induction l as [|i l IH]; intros n0; cbn [fold_left]; [reflexivity|].
  unfold productStep at 2. destruct (i =? j)%nat; [apply IH|].
  rewrite Z.mul_0_l. apply IH.
Qed.

(** A point that shares the [x] of the j-th makes the denominator zero. *)
Lemma productLoop_partner (pts : list point) (j : nat) (l : list nat)
  (acc : Z * Z) :
  (exists i, In i l /\ i <> j /\ x (pointAt pts i) = x (pointAt pts j)) ->
  snd (fold_left (productStep pts j (x (pointAt pts j))) l acc) = 0.
Proof.
  revert acc. induction l as [|i l IH]; intros [n0 d0] (i' & Hin & Hne & Hx).
  - destruct Hin.
  - cbn [fold_left]. unfold productStep at 2.
    destruct (Nat.eqb_spec i j) as [->|Hij].
    + apply IH. exists i'. destruct Hin as [<-|Hin]; [contradiction|auto].
    + destruct Hin as [<-|Hin].
      * rewrite Hx, Z.sub_diag, Z.mul_0_r. apply productLoop_zero_stays.
      * apply IH. exists i'. auto.
Qed.

Section FirstSolver.

Variable pts : list point.
Variable k : nat.

Local Abbreviation xs := (xq pts).
Local Abbreviation ys := (yq pts).

(** The outer loop of the first solver stops with a division by zero at the
    first index that has a partner; over indices without a partner it runs
    to its end. *)
Lemma addTerm_cases (l : list nat) (c : Z) :
  (foldThrown (addTerm pts k) l c = inl DivisionByZero /\
   exists j i, In j l /\ In i (seq 0 k) /\ i <> j /\
               x (pointAt pts i) = x (pointAt pts j)) \/
  (exists c', foldThrown (addTerm pts k) l c = inr c' /\
              forall j, In j l -> noPartner pts k j).
Proof.
  revert c. induction l as [|j l IH]; intros c.
  - right. exists c. split; [reflexivity|intros j []].
  - cbn [foldThrown]. unfold addTerm at 1 3. unfold productLoop.
    destruct (basisLoop_cases pts j (seq 0 k) 1 1)
      as [(_ & i & Hi & Hne & Hx)|(n & d & E & Hnp & _ & Hd)].
    + pose proof (productLoop_partner pts j (seq 0 k) (1, 1)
                    (ex_intro _ i (conj Hi (conj Hne Hx)))) as Hz.
      destruct (fold_left _ (seq 0 k) (1, 1)) as [n d]. cbn [snd] in Hz.
      subst d. cbn [Z.eqb]. left. split; [reflexivity|].
      exists j, i. repeat split; auto. now left.
    + rewrite (productLoop_basisLoop _ _ _ _ _ _ _ E).
      assert (Hd0 : d <> 0).
      { intros ->. rewrite zq_1, Qcmult_1_l, zq_0 in Hd. symmetry in Hd.
        revert Hd. apply basisAt_nonzero. intros i Hi Hne E'.
        apply (Hnp i Hi Hne). now apply zq_inj. }
      destruct (Z.eqb_spec d 0) as [|_]; [contradiction|].
      destruct (IH (c + Z.quot (y (pointAt pts j) * n) d))
        as [(E' & j' & i & Hj' & Hi & Hne & Hx)|(c' & E' & Hall)].
      * left. split; [assumption|]. exists j', i. repeat split; auto. now right.
      * right. exists c'. split; [assumption|].
        intros j' [<-|Hj']; [assumption|now apply Hall].
Qed.

(** Over indices whose terms are integers, the outer loop adds the terms of
    Lagrange's formula at 0. *)
Lemma addTerm_exact (l : list nat) (c : Z) :
  (forall j, In j l -> noPartner pts k j /\ integralTerm pts k j) ->
  exists c',
    foldThrown (addTerm pts k) l c = inr c' /\
    zq c' = (zq c + sumOver (fun j => lagrangeTerm xs ys k j 0) l)%Qc.
Proof.
  revert c. induction l as [|j l IH]; intros c Hl.
  - exists c. cbn [foldThrown sumOver]. split; [reflexivity|ring].
  - destruct (Hl j (or_introl eq_refl)) as (Hnp & Hint).
    cbn [foldThrown sumOver]. unfold addTerm at 1. unfold integralTerm in Hint.
    unfold productLoop in *.
    destruct (basisLoop_cases pts j (seq 0 k) 1 1)
      as [(_ & i & Hi & Hne & Hx)|(n & d & E & _ & Hn & Hd)].
    { exfalso. exact (Hnp i Hi Hne Hx). }
    rewrite (productLoop_basisLoop _ _ _ _ _ _ _ E) in *.
    rewrite zq_1, Qcmult_1_l in Hn, Hd.
    assert (Hdq : zq d <> 0%Qc).
    { rewrite Hd. apply basisAt_nonzero. intros i Hi Hne E'.
      apply (Hnp i Hi Hne). now apply zq_inj. }
    assert (Hd0 : d <> 0) by (intros ->; now apply Hdq).
    destruct (Z.eqb_spec d 0) as [|_]; [contradiction|].
    destruct (IH (c + Z.quot (y (pointAt pts j) * n) d)
                 (fun j' Hj' => Hl j' (or_intror Hj')))
      as (c' & E' & Hv).
    exists c'. split; [assumption|]. rewrite Hv, zq_add.
    assert (Hterm : zq (Z.quot (y (pointAt pts j) * n) d)
                    = lagrangeTerm xs ys k j 0).
    { destruct Hint as (q & Hq). rewrite Hq, Z.quot_mul by assumption.
      unfold lagrangeTerm. rewrite <- Hn, <- Hd.
      change (ys j) with (zq (y (pointAt pts j))).
      rewrite <- zq_mul, Hq, zq_mul. field. assumption. }
    rewrite Hterm. ring.
Qed.

End FirstSolver.

Lemma slice0_positive (allPoints : list point) (k : Z) :
  0 <= k -> slice0 allPoints k = firstn (Z.to_nat k) allPoints.
Proof. intros H. unfold slice0. destruct (Z.ltb_spec k 0); [lia|reflexivity]. Qed.

(** X15. The first solver, from the sorted points and an integer [k], has
    three outcomes: 'Not enough points' when there are fewer than [k]
    points; a division by zero when two of the first [k] points have the
    same [x]; and otherwise an integer, which is 0 when [k] is not
    positive, as [k] is not checked. *)
Theorem findConstantTerm_outcomes (allPoints : list point) (k : Z) :
  match findConstantTerm allPoints k with
  | inr c =>
      (k <= 0 /\ c = 0) \/
      (0 < k <= Z.of_nat (List.length allPoints) /\
       NoDup (map x (firstn (Z.to_nat k) allPoints)))
  | inl e =>
      (e = NotEnoughPoints /\ Z.of_nat (List.length allPoints) < k) \/
      (e = DivisionByZero /\
       0 < k <= Z.of_nat (List.length allPoints) /\
       hasDuplicateX (firstn (Z.to_nat k) allPoints))
  end.
Proof.
  unfold findConstantTerm.
  destruct (Z.leb_spec k 0) as [Hk|Hk].
  - destruct (Z.ltb_spec (Z.of_nat (List.length (slice0 allPoints k))) k);
      [lia|].
    replace (Z.to_nat k) with 0%nat by lia. cbn [seq foldThrown]. now left.
  - rewrite slice0_positive by lia. rewrite length_firstn.
    set (kn := Z.to_nat k).
    destruct (Z.ltb_spec (Z.of_nat (Nat.min kn (List.length allPoints))) k)
      as [Hlen|Hlen].
    { left. split; [reflexivity|lia]. }
    assert (Hkn : (kn <= List.length allPoints)%nat) by lia.
    destruct (addTerm_cases (firstn kn allPoints) kn (seq 0 kn) 0)
      as [(E & j & i & Hj & Hi & Hne & Hx)|(c & E & Hall)]; rewrite E.
    + right. split; [reflexivity|]. split; [lia|].
      apply in_seq in Hi, Hj.
      destruct (Nat.lt_ge_cases i j).
      * exists i, j. rewrite length_firstn. split; [lia|exact Hx].
      * exists j, i. rewrite length_firstn. split; [lia|now symmetry].
    + right. split; [lia|].
      rewrite <- (Nat.min_id kn), <- firstn_firstn.
      apply noPartner_NoDup; [rewrite length_firstn; lia|assumption].
Qed.

(** X16. When the first [k] points have pairwise distinct [x] and every term
    of Lagrange's formula at 0 is an integer, the truncating divisions of
    the first solver lose nothing: it returns an integer [c], and the exact
    evaluator returns [c] over 1 on the same points. *)
Theorem findConstantTerm_exact (allPoints : list point) (k : nat) :
  (0 < k <= List.length allPoints)%nat ->
  NoDup (map x (firstn k allPoints)) ->
  (forall j, (j < k)%nat -> integralTerm (firstn k allPoints) k j) ->
  exists c,
    findConstantTerm allPoints (Z.of_nat k) = inr c /\
    computeConstantTermFromSelected allPoints (IntegerValue (Z.of_nat k))
    = Ok (c, 1).
Proof.
  intros Hk Hnd Hint. unfold findConstantTerm.
  rewrite slice0_positive, Nat2Z.id by lia.
  set (selected := firstn k allPoints) in *.
  assert (Hlen : List.length selected = k)
    by (unfold selected; rewrite length_firstn; lia).
  rewrite Hlen. destruct (Z.ltb_spec (Z.of_nat k) (Z.of_nat k)); [lia|].
  destruct (addTerm_exact selected k (seq 0 k) 0) as (c & E & Hc).
  { intros j Hj. apply in_seq in Hj. split; [|apply Hint; lia].
    intros i Hi Hne. apply in_seq in Hi.
    apply distinct_of_NoDup; (assumption || lia). }
  exists c. split; [assumption|].
  rewrite <- (evaluator_firstn allPoints k) by lia. fold selected.
  destruct (evaluator_value selected) as (n & d & En & Hd & Hg & Hv).
  { intros Hnil. rewrite Hnil in Hlen. simpl in Hlen. lia. }
  { assumption. }
  rewrite Hlen in En, Hv. rewrite En.
  unfold lagrangeAt in Hv. rewrite zq_0, Qcplus_0_l, <- Hv in Hc.
  assert (Hcd : n = d * c).
  { apply zq_inj. rewrite zq_mul, Hc. field. apply zq_nonzero. lia. }
  assert (d = 1).
  { rewrite Hcd, Z.gcd_comm, Z.gcd_mul_diag_l in Hg by lia. lia. }
  subst d. do 2 f_equal. lia.
Qed.

Lemma findConstantTerm_exact_witness :
  exists c,
    findConstantTerm [mkPoint 1 3; mkPoint 2 7; mkPoint 3 13; mkPoint 5 0]
                     (Z.of_nat 3) = inr c /\
    computeConstantTermFromSelected
      [mkPoint 1 3; mkPoint 2 7; mkPoint 3 13; mkPoint 5 0]
      (IntegerValue (Z.of_nat 3)) = Ok (c, 1).
Proof.
  apply (findConstantTerm_exact
           [mkPoint 1 3; mkPoint 2 7; mkPoint 3 13; mkPoint 5 0] 3).
  - simpl; lia.
  - simpl. repeat constructor; simpl; intuition lia.
  - intros j Hj.
    destruct j as [|[|[|j]]]; [exists 9|exists (-21)|exists 13|lia];
      vm_compute; reflexivity.
Defined.

(** ** Input texts *)

Lemma trimStart_keeps (s : string) (c : ascii) (t : string) :
  isWhiteSpace c = false ->
  trimStart (s ++ String c t)%string = (trimStart s ++ String c t)%string.
Proof.
  intros Hc. induction s as [|a s IH]; cbn [append trimStart].
  - now rewrite Hc.
  - destruct (isWhiteSpace a); [assumption|reflexivity].
Qed.

Lemma trimEnd_keeps (s : string) (c : ascii) (t : string) :
  isWhiteSpace c = false ->
  trimEnd (s ++ String c t)%string = (s ++ String c (trimEnd t))%string.
Proof.
  intros Hc. induction s as [|a s IH]; cbn [append trimEnd].
  - rewrite Hc. now destruct (trimEnd t).
  - rewrite IH. now destruct s.
Qed.

(** Trimming a text around a piece that starts and ends with a brace. *)
Lemma trim_around (before middle after : string) :
  trim (before ++ String "{" (middle ++ "}") ++ after)%string
  = (trimStart before ++ String "{" (middle ++ "}") ++ trimEnd after)%string.
Proof.
  unfold trim. cbn [append]. rewrite trimStart_keeps by reflexivity.
  rewrite !string_app_assoc. cbn [append].
  change (trimStart before ++ String "{" (middle ++ String "}" after))%string
    with (trimStart before ++ String "{" middle ++ String "}" after)%string.
  rewrite <- string_app_assoc, trimEnd_keeps by reflexivity.
  now rewrite string_app_assoc.
Qed.

Lemma noBrace_trimStart (s : string) :
  noBrace s = true -> noBrace (trimStart s) = true.
Proof.
  unfold noBrace. induction s as [|c s IH]; cbn [trimStart allChars];
    [reflexivity|].
  intros H. apply andb_prop in H as (Hc & Hs).
  destruct (isWhiteSpace c); [now apply IH|].
  cbn [allChars]. now rewrite Hc, Hs.
Qed.

Lemma endsWith_spec (s suffix : string) :
  endsWith s suffix = true <-> exists stem, s = (stem ++ suffix)%string.
Proof.
  induction s as [|c s IH]; cbn [endsWith].
  - rewrite orb_false_r, String.eqb_eq. split.
    + intros <-. now exists "".
    + intros ([|? ?] & E); [exact E|discriminate].
  - rewrite orb_true_iff, String.eqb_eq, IH. split.
    + intros [<-|(stem & ->)]; [now exists ""|now exists (String c stem)].
    + intros ([|a stem] & E); [now left|].
      right. exists stem. cbn [append] in E. now injection E.
Qed.

(** X17. The string builder reads the JSON object out of a text that is not
    JSON as a whole: when a piece that [extractFirstJsonObject] accepts
    stands after a start without a brace, what surrounds the piece does not
    change the value read.  White space around the text never matters, a
    text of white space is refused as empty, and whatever the file builder
    reads from a text, the string builder reads too. *)
Theorem parsedFromString_ignores_noise (NM : NumberModel)
  (JSON_parse : string -> option value) :
  (forall before object after,
      noBrace before = true ->
      extractFirstJsonObject object = Extracted object ->
      JSON_parse (trim (before ++ object ++ after)%string) = None ->
      parsedFromString JSON_parse (before ++ object ++ after)%string
      = parsedFromString JSON_parse object) /\
  (forall ws1 text ws2,
      allWhite ws1 = true -> allWhite ws2 = true ->
      parsedFromString JSON_parse (ws1 ++ text ++ ws2)%string
      = parsedFromString JSON_parse text /\
      parsedFromString JSON_parse ws1 = inl EmptyInput) /\
  (forall raw data,
      parsedFromFile JSON_parse raw = inr data ->
      parsedFromString JSON_parse raw = inr data /\
      exists middle, trim raw = String "{" (middle ++ "}")%string).
Proof.
  split; [|split].
  - intros before object after Hb Ho Hfail.
    destruct (extractFirstJsonObject_parts object) as (_ & Hparts).
    destruct (Hparts object Ho) as (_ & middle & _ & _ & _ & Eo & Hin).
    unfold parsedFromString. cbv zeta. rewrite Hfail.
    assert (Et : trim object = object).
    { pose proof (trim_around "" middle "") as T.
      cbn [append trimStart trimEnd] in T.
      rewrite string_app_empty_r in T. now rewrite Eo. }
    rewrite Et.
    assert (El : forall t, (String.length (trim (before ++ object ++ t))
                            =? 0)%nat = false).
    { intros t. rewrite Eo, trim_around.
      destruct (trimStart before); reflexivity. }
    assert (El' : (String.length object =? 0)%nat = false)
      by (rewrite Eo; reflexivity).
    rewrite El, El'.
    assert (Ex : extractFirstJsonObject (trim (before ++ object ++ after))
                 = Extracted object).
    { rewrite Eo, trim_around, <- Eo.
      apply Hin. now apply noBrace_trimStart. }
    rewrite Ex, Ho.
    destruct (JSON_parse object); reflexivity.
  - intros ws1 text ws2 H1 H2. unfold parsedFromString. cbv zeta.
    rewrite trim_white by assumption. split; [reflexivity|].
    pose proof (trim_white ws1 "" "" H1 eq_refl) as E.
    cbn [append] in E. rewrite string_app_empty_r in E. now rewrite E.
  - intros raw data. unfold parsedFromFile, parsedFromString. cbv zeta.
    destruct (String.length (trim raw) =? 0)%nat; [discriminate|].
    unfold startsWith.
    destruct (trim raw) as [|c rest] eqn:Et; [discriminate|].
    cbn [String.prefix].
    destruct (ascii_dec "{" c) as [<-|]; [|cbn [negb orb]; discriminate].
    replace (String.prefix "" rest) with true by (now destruct rest).
    cbn [negb orb].
    destruct (endsWith (String "{" rest) "}") eqn:Ee; [|discriminate].
    cbn [negb].
    destruct (JSON_parse (String "{" rest)) as [v|]; [|discriminate].
    intros H. split; [exact H|].
    apply endsWith_spec in Ee as ([|a stem] & E); [discriminate|].
    cbn [append] in E. injection E as <- ->. now exists stem.
Qed.

Lemma parsedFromString_ignores_noise_witness :
  parsedFromString (@parseEmptyObject IntegerRecords)
    ("out: " ++ "{}" ++ " done")%string
  = parsedFromString (@parseEmptyObject IntegerRecords) "{}" /\
  parsedFromString (@parseEmptyObject IntegerRecords)
    (" " ++ "{}" ++ " ")%string
  = parsedFromString (@parseEmptyObject IntegerRecords) "{}" /\
  parsedFromString (@parseEmptyObject IntegerRecords) " {} "
  = inr (VObject []).
Proof.
  destruct (parsedFromString_ignores_noise IntegerRecords parseEmptyObject)
    as (H1 & H2 & H3).
  split; [|split].
  - apply H1; reflexivity.
  - apply (H2 " " "{}" " "); reflexivity.
  - apply (H3 " {} " (VObject [])). reflexivity.
Defined.

(** ** The batch drivers *)

Lemma ascii_compare_refl (c : ascii) : Ascii.compare c c = Eq.
Proof. unfold Ascii.compare. apply N.compare_refl. Qed.

Lemma ascii_compare_eq (a b : ascii) : Ascii.compare a b = Eq -> a = b.
Proof.
  unfold Ascii.compare. intros H. apply N.compare_eq in H.
  rewrite <- (ascii_N_embedding a), <- (ascii_N_embedding b). now f_equal.
Qed.

Lemma nameLe_trans (f g h : string) : nameLe f g -> nameLe g h -> nameLe f h.
Proof.
  unfold nameLe, String.leb.
  revert g h. induction f as [|a f IH]; intros [|b g] [|c h];
    cbn [String.compare]; try congruence.
  unfold Ascii.compare.
  destruct (N.compare_spec (N_of_ascii a) (N_of_ascii b)) as [Eab|Lab|Gab];
    destruct (N.compare_spec (N_of_ascii b) (N_of_ascii c)) as [Ebc|Lbc|Gbc];
    destruct (N.compare_spec (N_of_ascii a) (N_of_ascii c)) as [Eac|Lac|Gac];
    try congruence; try lia.
  apply IH.
Qed.

Lemma nameLe_total (f g : string) : nameLe f g \/ nameLe g f.
Proof. apply String.leb_total. Qed.

Lemma insertName_perm (f : string) (l : list string) :
  Permutation (f :: l) (insertName f l).
Proof.
  induction l as [|g l IH]; simpl; [reflexivity|].
  destruct (String.leb f g); [reflexivity|].
  rewrite perm_swap. now apply perm_skip.
Qed.

Lemma sortNames_perm (l : list string) : Permutation l (sortNames l).
Proof.
  induction l as [|f l IH]; simpl; [reflexivity|].
  rewrite <- insertName_perm. now apply perm_skip.
Qed.

Lemma insertName_sorted (f : string) (l : list string) :
  StronglySorted nameLe l -> StronglySorted nameLe (insertName f l).
Proof.
  induction 1 as [|g l Hs IH Hg]; simpl.
  - repeat constructor.
  - destruct (String.leb f g) eqn:Hfg.
    + constructor; [now constructor|].
      constructor; [exact Hfg|].
      apply Forall_forall. intros h Hh.
      apply (nameLe_trans f g h Hfg).
      now apply (proj1 (Forall_forall _ _) Hg).
    + constructor; [assumption|].
      apply Forall_forall. intros h Hh.
      apply (Permutation_in _ (Permutation_sym (insertName_perm f l))) in Hh.
      destruct Hh as [<-|Hh].
      * destruct (nameLe_total f g) as [H|H]; [unfold nameLe in H; congruence|].
        exact H.
      * now apply (proj1 (Forall_forall _ _) Hg).
Qed.

Lemma sortNames_sorted (l : list string) : StronglySorted nameLe (sortNames l).
Proof.
  induction l as [|f l IH]; simpl; [constructor|]. now apply insertName_sorted.
Qed.

(** Two sorted lists of the same names are the same list. *)
Lemma sorted_names_unique (l l' : list string) :
  StronglySorted nameLe l -> StronglySorted nameLe l' ->
  Permutation l l' -> l = l'.
Proof.
  intros Hl. revert l'. induction Hl as [|f l Hs IH Hf]; intros l' Hl' Hp.
  - apply Permutation_nil in Hp. now subst.
  - destruct Hl' as [|g l' Hs' Hg].
    { apply Permutation_sym, Permutation_nil in Hp. discriminate. }
    assert (Efg : f = g).
    { assert (Hin : In f (g :: l'))
        by (apply (Permutation_in _ Hp); now left).
      assert (Hin' : In g (f :: l))
        by (apply (Permutation_in _ (Permutation_sym Hp)); now left).
      destruct Hin as [->|Hin]; [reflexivity|].
      destruct Hin' as [->|Hin']; [reflexivity|].
      apply String.leb_antisym.
      - now apply (proj1 (Forall_forall _ _) Hf).
      - now apply (proj1 (Forall_forall _ _) Hg). }
    subst g. f_equal. apply IH; [assumption|].
    now apply Permutation_cons_inv in Hp.
Qed.

Lemma jsonFilesOf_perm (files files' : list string) :
  Permutation files files' -> jsonFilesOf files = jsonFilesOf files'.
Proof.
  intros Hp. unfold jsonFilesOf.
  apply sorted_names_unique; try apply sortNames_sorted.
  rewrite <- !sortNames_perm. now do 2 apply filter_perm.
Qed.

Lemma lowerCaseString_app (s t : string) :
  lowerCaseString (s ++ t) = (lowerCaseString s ++ lowerCaseString t)%string.
Proof. induction s as [|c s IH]; simpl; [reflexivity|now rewrite IH]. Qed.

Lemma lowerCaseString_split (f a b : string) :
  lowerCaseString f = (a ++ b)%string ->
  exists a' b', f = (a' ++ b')%string /\
                lowerCaseString a' = a /\ lowerCaseString b' = b.
Proof.
  revert f. induction a as [|c a IH]; intros f E.
  - exists "", f. repeat split. exact E.
  - destruct f as [|c' f]; [discriminate|].
    cbn [append lowerCaseString] in E. injection E as Ec E.
    destruct (IH f E) as (a' & b' & -> & Ea & Eb).
    exists (String c' a'), b'. repeat split; [|assumption].
    cbn [lowerCaseString]. now rewrite Ec, Ea.
Qed.

(** X18. The names a batch driver processes are the names of the directory
    that end in '.json' in any mix of cases, other than 'package.json' as
    written in lower case and the names that start with a dot; they are
    processed in the order of their code units, whatever the order in which
    the directory lists them. *)
Theorem jsonFilesOf_selection (files : list string) :
  (forall f,
      In f (jsonFilesOf files) <->
      In f files /\
      (exists stem ext, f = (stem ++ ext)%string /\
                        lowerCaseString ext = ".json") /\
      f <> "package.json" /\ startsWith f "." = false) /\
  StronglySorted nameLe (jsonFilesOf files) /\
  (forall files', Permutation files files' ->
                  jsonFilesOf files = jsonFilesOf files').
Proof.
  split; [|split].
  - intros f. unfold jsonFilesOf. split.
    + intros H.
      apply (Permutation_in _ (Permutation_sym (sortNames_perm _))) in H.
      apply filter_In in H as (H & Hi). apply filter_In in H as (H & Hj).
      unfold isInputName in Hi. apply andb_prop in Hi as (Hp & Hd).
      unfold isJsonName in Hj. apply endsWith_spec in Hj as (stem & Hj).
      apply lowerCaseString_split in Hj as (a & b & -> & _ & Eb).
      repeat split.
      * assumption.
      * now exists a, b.
      * intros E. rewrite E in Hp. discriminate.
      * now destruct (startsWith (a ++ b) ".").
    + intros (H & (stem & ext & -> & Ee) & Hp & Hd).
      apply (Permutation_in _ (sortNames_perm _)).
      apply filter_In. split; [apply filter_In; split; [assumption|]|].
      * unfold isJsonName. apply endsWith_spec.
        exists (lowerCaseString stem). now rewrite lowerCaseString_app, Ee.
      * unfold isInputName. rewrite Hd.
        destruct (String.eqb_spec (stem ++ ext) "package.json");
          [contradiction|reflexivity].
  - apply sortNames_sorted.
  - intros files'. apply jsonFilesOf_perm.
Qed.

Lemma jsonFilesOf_selection_witness :
  jsonFilesOf ["b.json"; ".c.json"; "package.json"; "A.JSON"; "notes.txt"]
  = jsonFilesOf ["notes.txt"; "A.JSON"; "package.json"; ".c.json"; "b.json"].
Proof.
  apply (proj2 (proj2 (jsonFilesOf_selection
           ["b.json"; ".c.json"; "package.json"; "A.JSON"; "notes.txt"]))).
  apply Permutation_rev.
Defined.

Section BatchRun.

Context {E R : Type}.
Variable attempt : string -> E + R.

Lemma batchStep_fold (l : list string) (console : list (@consoleLine E R))
  (exitCode : Z) :
  fold_left (batchStep attempt) l (console, exitCode)
  = (console ++ map (lineOf attempt) l,
     if forallb (succeeds attempt) l then exitCode else 1).
Proof.
  revert console exitCode. induction l as [|f l IH]; intros console exitCode.
  - cbn. now rewrite app_nil_r.
  - cbn [fold_left map forallb].
    assert (Es : batchStep attempt (console, exitCode) f
                 = (console ++ [lineOf attempt f],
                    if succeeds attempt f then exitCode else 1)).
    { unfold batchStep, lineOf, succeeds. now destruct (attempt f). }
    rewrite Es, IH, <- app_assoc. cbn [app]. f_equal.
    destruct (succeeds attempt f); cbn [andb]; [reflexivity|].
    now destruct (forallb (succeeds attempt) l).
Qed.

End BatchRun.

(** X19. A batch driver prints one line for each name it processes, in their
    order, the result of the file or its error: the failure of a file does
    not stop the files after it.  The exit code is 0 exactly when there is a
    name to process and every one succeeds.  The order in which the
    directory lists its names changes nothing. *)
Theorem batch_lines (E R : Type) (attempt : string -> E + R)
  (files : list string) :
  (jsonFilesOf files <> [] ->
   fst (batch attempt files) = map (lineOf attempt) (jsonFilesOf files)) /\
  (snd (batch attempt files) = 0 <->
   jsonFilesOf files <> [] /\
   forall f, In f (jsonFilesOf files) -> exists r, attempt f = inr r) /\
  (snd (batch attempt files) = 0 \/ snd (batch attempt files) = 1) /\
  (forall files', Permutation files files' ->
                  batch attempt files = batch attempt files').
Proof.
  unfold batch. cbv zeta. split; [|split; [|split]].
  - intros Hne. destruct (jsonFilesOf files) as [|f l]; [contradiction|].
    cbn [List.length Nat.eqb]. now rewrite batchStep_fold.
  - destruct (jsonFilesOf files) as [|f l] eqn:Ej.
    + cbn. split; [discriminate|]. now intros ([] & _).
    + cbn [List.length Nat.eqb]. rewrite batchStep_fold. cbn [snd].
      destruct (forallb (succeeds attempt) (f :: l)) eqn:Ea.
      * split; [|reflexivity]. intros _. split; [discriminate|].
        intros g Hg. apply (proj1 (forallb_forall _ _) Ea) in Hg.
        unfold succeeds in Hg. destruct (attempt g) as [|r]; [discriminate|].
        now exists r.
      * split; [discriminate|]. intros (_ & Hall). exfalso.
        assert (Ht : forallb (succeeds attempt) (f :: l) = true).
        { apply forallb_forall. intros g Hg. destruct (Hall g Hg) as (r & Er).
          unfold succeeds. now rewrite Er. }
        congruence.
  - destruct (jsonFilesOf files) as [|f l]; [now right|].
    cbn [List.length Nat.eqb]. rewrite batchStep_fold. cbn [snd].
    destruct (forallb (succeeds attempt) (f :: l)); [now left|now right].
  - intros files' Hp. now rewrite (jsonFilesOf_perm files files' Hp).
Qed.

Lemma batch_lines_witness :
  batch (fun f => if String.eqb f "b.json" then inl tt else inr 7)
        ["b.json"; "package.json"; "A.JSON"]
  = batch (fun f => if String.eqb f "b.json" then inl tt else inr 7)
          ["A.JSON"; "package.json"; "b.json"].
Proof.
  apply (proj2 (proj2 (proj2 (batch_lines unit Z
           (fun f => if String.eqb f "b.json" then inl tt else inr 7)
           ["b.json"; "package.json"; "A.JSON"])))).
  apply Permutation_rev.
Defined.
